(** * Chatterbox-TTS-Server: the text-preparation pipeline

    A shallow embedding of the pure text transforms of the repository:

    - [text_normalization.py]: [int_to_words_us], [normalize_currency_usd],
      [normalize_text];
    - [pronunciation.py]: [apply_pronunciation_dict];
    - [multi_voice.py]: [_find_bracket_ranges], [parse_voice_directives],
      [split_paragraphs], [build_segments_from_paragraphs];
    - [auto_pauses.py]: [_compute_pause_seconds], [insert_auto_pauses].

    Modelling choices, used throughout:

    - a Python [str] is a list of Unicode code points ([char := N]); offsets
      and lengths are [nat];
    - what Python takes from the Unicode database ([str.isspace],
      [str.isalpha], [\d], [\w], [str.lower], case-insensitive matching) and
      the compiler of replacement templates of [re.sub] form a type class
      [PyEnv]; every general theorem holds for every instance, and the
      instance [ascii_env] (right on code points below 128 and on templates
      without a backslash) runs the concrete examples;
    - the [re] module is a small backtracking matcher that enumerates the
      matches of a pattern in Python's priority order;
    - a Python [float] is an exact rational ([Q]): rounding errors of binary
      floating point are not modelled;
    - an exception is a value of [result]. *)

From Stdlib Require Import ZArith NArith QArith Qround Qabs Lqa Lia List Bool.
From Stdlib Require Import Strings.String Strings.Ascii Numbers.DecimalString.
From Stdlib Require Import Sorting.Sorted Sorting.Permutation.
From stdpp Require Import base option list gmap sorting.

#[local] Open Scope nat_scope.
#[local] Open Scope list_scope.

(** ** Characters and text *)

Abbreviation char := N (only parsing).
Abbreviation text := (list N) (only parsing).

(** A string literal of the source, as code points. *)
Fixpoint str (s : string) : text :=
  match s with
  | EmptyString => []
  | String a s' => N_of_ascii a :: str s'
  end.

Definition chr (a : ascii) : char := N_of_ascii a.

Definition ch_eqb (a b : char) : bool := N.eqb a b.

Definition in_range (lo hi : ascii) (c : char) : bool :=
  (N.leb (chr lo) c && N.leb c (chr hi))%bool.

(** Python exceptions the pipeline can raise. *)
Inductive exn := ValueError | ReError.

Inductive result (A : Type) :=
| Ok (a : A)
| Raise (e : exn).
Arguments Ok {A} a.
Arguments Raise {A} e.

Definition bind {A B} (r : result A) (f : A -> result B) : result B :=
  match r with
  | Ok a => f a
  | Raise e => Raise e
  end.

Notation "'let*' x := r 'in' k" := (bind r (fun x => k))
  (at level 10, x name, r at level 100, k at level 200).

(** What the code takes from the Python runtime: the Unicode database and
    the template compiler of [re.sub]. *)
Class PyEnv := {
  uc_isspace : char -> bool;          (* str.isspace, \s, str.strip *)
  uc_isalpha : char -> bool;          (* str.isalpha *)
  uc_isdigit : char -> bool;          (* str.isdigit *)
  uc_isdecimal : char -> bool;        (* \d *)
  uc_isalnum : char -> bool;          (* \w is alnum or underscore *)
  uc_decimal_value : char -> Z;       (* the digit value read by int() *)
  uc_lower : text -> text;            (* str.lower *)
  uc_ieq : char -> char -> bool;      (* re.IGNORECASE: pattern char, text char *)
  uc_decimal_range :
    forall c, uc_isdecimal c = true -> (0 <= uc_decimal_value c <= 9)%Z;
  (* a replacement string with a backslash, compiled for a pattern without
     groups: an error, or the expansion as a function of the matched text *)
  re_template : text -> result (text -> text);
}.

(** The tables restricted to ASCII: exact below 128, empty above. *)
Definition ascii_isspace (c : char) : bool :=
  (in_range "009" "013" c || in_range "028" "032" c)%bool.

Definition ascii_isdigit (c : char) : bool := in_range "0" "9" c.

Definition ascii_isupper (c : char) : bool := in_range "A" "Z" c.

Definition ascii_islower (c : char) : bool := in_range "a" "z" c.

Definition ascii_isalpha (c : char) : bool :=
  (ascii_isupper c || ascii_islower c)%bool.

Definition ascii_lower_char (c : char) : char :=
  if ascii_isupper c then (c + 32)%N else c.

Lemma ascii_decimal_range (c : char) :
  ascii_isdigit c = true -> (0 <= Z.of_N c - 48 <= 9)%Z.
Proof.
  unfold ascii_isdigit, in_range, chr. cbn.
  rewrite andb_true_iff, !N.leb_le. lia.
Qed.

Definition ascii_env : PyEnv := {|
  uc_isspace := ascii_isspace;
  uc_isalpha := ascii_isalpha;
  uc_isdigit := ascii_isdigit;
  uc_isdecimal := ascii_isdigit;
  uc_isalnum := fun c => (ascii_isalpha c || ascii_isdigit c)%bool;
  uc_decimal_value := fun c => (Z.of_N c - 48)%Z;
  uc_lower := map ascii_lower_char;
  uc_ieq := fun p c => ch_eqb (ascii_lower_char p) (ascii_lower_char c);
  uc_decimal_range := ascii_decimal_range;
  re_template := fun _ => Raise ReError;
|}.

(** ** Slices and other [str] methods *)

(** [s[a:b]] for offsets [0 <= a], [0 <= b]. *)
Definition slice (s : text) (a b : nat) : text := take (b - a) (drop a s).

(** [s[a:]]. *)
Definition slice_from (s : text) (a : nat) : text := drop a s.

Fixpoint lstrip_by (p : char -> bool) (s : text) : text :=
  match s with
  | c :: s' => if p c then lstrip_by p s' else s
  | [] => []
  end.

Definition rstrip_by (p : char -> bool) (s : text) : text :=
  rev (lstrip_by p (rev s)).

Fixpoint startswith (s prefix : text) : bool :=
  match prefix, s with
  | [], _ => true
  | p :: prefix', c :: s' => ch_eqb p c && startswith s' prefix'
  | _ :: _, [] => false
  end.

Definition text_eqb (a b : text) : bool := bool_decide (a = b).

(** Truthiness of a list. *)
Definition nonempty {A} (l : list A) : bool :=
  match l with [] => false | _ :: _ => true end.

Definition contains_char (c : char) (s : text) : bool := existsb (ch_eqb c) s.

Section WithEnv.
Context {E : PyEnv}.

(** [s.strip()]. *)
Definition strip (s : text) : text := rstrip_by uc_isspace (lstrip_by uc_isspace s).

(** ** The [re] module

    A match attempt is a state: the current offset and the groups captured so
    far.  [ends r st] lists the states in which [r] can finish when started in
    [st], in the order Python's backtracking matcher tries them, so the first
    element is the match Python reports. *)

Record mstate := MState {
  ms_pos : nat;
  ms_groups : list (nat * (nat * nat));
}.

Inductive regex :=
| Eps
| Set_ (p : char -> bool)                 (* one character of a class *)
| Seq (r1 r2 : regex)
| Alt (r1 r2 : regex)
| Star (r : regex)                        (* greedy *)
| Group (i : nat) (r : regex)
| Assert (a : text -> nat -> bool).       (* zero-width assertion *)

(** The greedy loop: another iteration first (it must consume something),
    then leaving the loop. Every iteration advances, so [fuel] greater than
    the rest of the text is never used up. *)
Fixpoint star_iter (f : mstate -> list mstate) (fuel : nat) (st : mstate)
  : list mstate :=
  match fuel with
  | 0 => [st]
  | S n =>
      flat_map (fun st' => if ms_pos st <? ms_pos st' then star_iter f n st' else [])
               (f st) ++ [st]
  end.

Fixpoint ends (s : text) (r : regex) (st : mstate) : list mstate :=
  match r with
  | Eps => [st]
  | Set_ p =>
      match s !! ms_pos st with
      | Some c => if p c then [MState (S (ms_pos st)) (ms_groups st)] else []
      | None => []
      end
  | Seq r1 r2 => flat_map (ends s r2) (ends s r1 st)
  | Alt r1 r2 => ends s r1 st ++ ends s r2 st
  | Star r' => star_iter (ends s r') (S (length s - ms_pos st)) st
  | Group i r' =>
      map (fun st' => MState (ms_pos st') ((i, (ms_pos st, ms_pos st')) :: ms_groups st'))
          (ends s r' st)
  | Assert a => if a s (ms_pos st) then [st] else []
  end.

(** Derived forms. *)
Definition Lit (c : ascii) : regex := Set_ (ch_eqb (chr c)).
Definition LitI (c : ascii) : regex := Set_ (uc_ieq (chr c)).
Definition Plus (r : regex) : regex := Seq r (Star r).
Definition Opt (r : regex) : regex := Alt r Eps.

Fixpoint Lits (s : string) : regex :=
  match s with
  | EmptyString => Eps
  | String a s' => Seq (Lit a) (Lits s')
  end.

Fixpoint LitsI (s : string) : regex :=
  match s with
  | EmptyString => Eps
  | String a s' => Seq (LitI a) (LitsI s')
  end.

(** A literal key, as [re.escape] makes it. *)
Fixpoint LitText (k : text) : regex :=
  match k with
  | [] => Eps
  | c :: k' => Seq (Set_ (ch_eqb c)) (LitText k')
  end.

(** [r{lo,hi}], greedy. *)
Fixpoint UpTo (n : nat) (r : regex) : regex :=
  match n with
  | 0 => Eps
  | S n' => Opt (Seq r (UpTo n' r))
  end.

Fixpoint Exactly (n : nat) (r : regex) : regex :=
  match n with
  | 0 => Eps
  | S n' => Seq r (Exactly n' r)
  end.

Definition Repeat (lo hi : nat) (r : regex) : regex :=
  Seq (Exactly lo r) (UpTo (hi - lo) r).

Definition cls_space : regex := Set_ uc_isspace.
Definition cls_digit : regex := Set_ uc_isdecimal.
Definition is_word (c : char) : bool := (uc_isalnum c || ch_eqb (chr "_") c)%bool.

Definition char_before (s : text) (i : nat) : option char :=
  match i with 0 => None | S j => s !! j end.

Definition opt_test (p : char -> bool) (o : option char) : bool :=
  match o with Some c => p c | None => false end.

(** [\b]. *)
Definition word_boundary : regex :=
  Assert (fun s i => xorb (opt_test is_word (char_before s i)) (opt_test is_word (s !! i))).

(** [(?<![...])] and [(?![...])] for a class. *)
Definition not_behind (p : char -> bool) : regex :=
  Assert (fun s i => negb (opt_test p (char_before s i))).
Definition not_ahead (p : char -> bool) : regex :=
  Assert (fun s i => negb (opt_test p (s !! i))).

(** A match object: span and groups. *)
Record rmatch := RMatch {
  m_start : nat;
  m_end : nat;
  m_groups : list (nat * (nat * nat));
}.

Definition m_group (m : rmatch) (i : nat) : option (nat * nat) :=
  snd <$> List.find (fun g => fst g =? i) (m_groups m).

(** [pattern.match(s, i)]; with [must_advance] an empty match is refused
    (the matcher's rule after an empty match at the same offset). *)
Definition match_at (r : regex) (s : text) (i : nat) (must_advance : bool)
  : option rmatch :=
  match List.find (fun st => negb must_advance || negb (ms_pos st =? i))
                  (ends s r (MState i [])) with
  | Some st => Some (RMatch i (ms_pos st) (ms_groups st))
  | None => None
  end.

(** [pattern.finditer(s)]: leftmost matches, left to right, not overlapping.
    A turn of the loop moves on or, after an empty match, stays once at the
    same offset; the turns given below are enough for every text. *)
Fixpoint finditer_from (r : regex) (s : text) (fuel i : nat) (must_advance : bool)
  : list rmatch :=
  match fuel with
  | 0 => []
  | S fuel' =>
      if length s <? i then []
      else match match_at r s i must_advance with
           | Some m =>
               m :: (if m_end m =? i then finditer_from r s fuel' i true
                     else finditer_from r s fuel' (m_end m) false)
           | None => finditer_from r s fuel' (S i) false
           end
  end.

Definition finditer (r : regex) (s : text) : list rmatch :=
  finditer_from r s (2 * length s + 3) 0 false.

(** [pattern.sub(repl, s)] for a callable [repl] that may raise. *)
Fixpoint sub_loop (repl : rmatch -> result text) (s : text) (last : nat)
    (ms : list rmatch) : result text :=
  match ms with
  | [] => Ok (slice_from s last)
  | m :: ms' =>
      let* new := repl m in
      let* rest := sub_loop repl s (m_end m) ms' in
      Ok (slice s last (m_start m) ++ new ++ rest)
  end.

Definition re_sub (r : regex) (repl : rmatch -> result text) (s : text) : result text :=
  sub_loop repl s 0 (finditer r s).

(** [pattern.sub(repl, s)] for a replacement without a backslash. *)
Fixpoint sub_literal_loop (repl : text) (s : text) (last : nat) (ms : list rmatch) : text :=
  match ms with
  | [] => slice_from s last
  | m :: ms' => slice s last (m_start m) ++ repl ++ sub_literal_loop repl s (m_end m) ms'
  end.

Definition re_sub_literal (r : regex) (repl : text) (s : text) : text :=
  sub_literal_loop repl s 0 (finditer r s).

(** ** text_normalization.py *)

Definition ONES : list text :=
  map str ["zero"; "one"; "two"; "three"; "four"; "five"; "six"; "seven";
           "eight"; "nine"]%string.

Definition TEENS : list text :=
  map str ["ten"; "eleven"; "twelve"; "thirteen"; "fourteen"; "fifteen";
           "sixteen"; "seventeen"; "eighteen"; "nineteen"]%string.

Definition TENS : list text :=
  map str [""; ""; "twenty"; "thirty"; "forty"; "fifty"; "sixty"; "seventy";
           "eighty"; "ninety"]%string.

(** [table[i]]; every index the code computes is in range. *)
Definition item (table : list text) (i : Z) : text :=
  default [] (table !! Z.to_nat i).

Definition two_digit_words (num : Z) : text :=
  if (num <? 10)%Z then item ONES num
  else if (num <? 20)%Z then item TEENS (num - 10)
  else
    let tens_val := (num / 10)%Z in
    let ones_val := (num mod 10)%Z in
    if (ones_val =? 0)%Z then item TENS tens_val
    else item TENS tens_val ++ str " " ++ item ONES ones_val.

Definition three_digit_words (num : Z) : text :=
  let hundreds := (num / 100)%Z in
  let rem := (num mod 100)%Z in
  let parts := [] in
  let parts :=
    if (hundreds =? 0)%Z then parts
    else parts ++ [item ONES hundreds ++ str " hundred"] in
  let parts :=
    if (rem =? 0)%Z then parts
    else (if (hundreds =? 0)%Z then parts else parts ++ [str ", "])
           ++ [two_digit_words rem] in
  if nonempty parts then concat parts else str "zero".

Definition int_to_words_us (n : Z) : result text :=
  if ((n <? 0) || (999999999 <? n))%Z then Raise ValueError
  else if (n =? 0)%Z then Ok (str "zero")
  else
    let millions := (n / 1000000)%Z in
    let remainder := (n mod 1000000)%Z in
    let thousands := (remainder / 1000)%Z in
    let below_thousand := (remainder mod 1000)%Z in
    let parts := [] in
    let parts :=
      if (millions =? 0)%Z then parts
      else parts ++ [three_digit_words millions ++ str " million"] in
    let parts :=
      if (thousands =? 0)%Z then parts
      else (if nonempty parts then parts ++ [str ", "] else parts)
             ++ [three_digit_words thousands ++ str " thousand"] in
    let parts :=
      if (negb (below_thousand =? 0)%Z || negb (nonempty parts))
      then (if (nonempty parts && negb (below_thousand =? 0)%Z)
            then parts ++ [str ", "] else parts)
             ++ [three_digit_words below_thousand]
      else parts in
    Ok (concat parts).

(** [\[[^\]]*\]] *)
Definition protected_span_re : regex :=
  Seq (Lit "[") (Seq (Star (Set_ (fun c => negb (ch_eqb (chr "]") c)))) (Lit "]")).

Definition spans_of (ms : list rmatch) : list (nat * nat) :=
  map (fun m => (m_start m, m_end m)) ms.

Definition _find_protected_spans (s : text) : list (nat * nat) :=
  spans_of (finditer protected_span_re s).

Fixpoint unprotected_loop (s : text) (transform : text -> result text)
    (last_index : nat) (spans : list (nat * nat)) : result text :=
  match spans with
  | [] =>
      if last_index <? length s then transform (slice_from s last_index)
      else Ok []
  | (start, end_) :: spans' =>
      let* head := (if last_index <? start
                    then transform (slice s last_index start) else Ok []) in
      let* rest := unprotected_loop s transform end_ spans' in
      Ok (head ++ slice s start end_ ++ rest)
  end.

Definition _apply_to_unprotected_segments (s : text) (spans : list (nat * nat))
    (transform : text -> result text) : result text :=
  unprotected_loop s transform 0 spans.

(** [\$((?:\d{1,3}(?:,\d{3})+)|\d+)(?:\.(\d{1,2}))?] *)
Definition currency_pattern : regex :=
  Seq (Lit "$")
    (Seq (Group 1 (Alt (Seq (Repeat 1 3 cls_digit)
                            (Plus (Seq (Lit ",") (Exactly 3 cls_digit))))
                       (Plus cls_digit)))
         (Opt (Seq (Lit ".") (Group 2 (Repeat 1 2 cls_digit))))).

(** [int(s)] on a string of decimal digits. *)
Definition int_of_digits (s : text) : Z :=
  fold_left (fun acc c => (10 * acc + uc_decimal_value c)%Z) s 0%Z.

Definition group_text (s : text) (m : rmatch) (i : nat) : option text :=
  (fun g => slice s (fst g) (snd g)) <$> m_group m i.

Definition replace_match (max_value : Z) (s : text) (m : rmatch) : result text :=
  let dollars_str := default [] (group_text s m 1) in
  let cents_str := group_text s m 2 in
  let dollars_int :=
    int_of_digits (List.filter (fun c => negb (ch_eqb (chr ",") c)) dollars_str) in
  if (max_value <? dollars_int)%Z then Ok (slice s (m_start m) (m_end m))
  else
    let cents_int :=
      match cents_str with
      | None => 0%Z
      | Some cs => if length cs =? 1 then (int_of_digits cs * 10)%Z
                   else int_of_digits cs
      end in
    if ((dollars_int =? 0) && (0 <? cents_int))%Z then
      let* cents_words := int_to_words_us cents_int in
      let cent_label := if (cents_int =? 1)%Z then str "cent" else str "cents" in
      Ok (cents_words ++ str " " ++ cent_label)
    else
      let* dollars_words := int_to_words_us dollars_int in
      let dollar_label := if (dollars_int =? 1)%Z then str "dollar" else str "dollars" in
      if (cents_int =? 0)%Z then
        if (dollars_int =? 0)%Z then Ok (str "zero dollars")
        else Ok (dollars_words ++ str " " ++ dollar_label)
      else
        let* cents_words := int_to_words_us cents_int in
        let cent_label := if (cents_int =? 1)%Z then str "cent" else str "cents" in
        Ok (dollars_words ++ str " " ++ dollar_label ++ str " and "
              ++ cents_words ++ str " " ++ cent_label).

Definition normalize_currency_usd (s : text) (max_value : option Z) : result text :=
  let max_value := default 999999999%Z max_value in
  let transform := fun segment =>
    re_sub currency_pattern (replace_match max_value segment) segment in
  let protected_spans := _find_protected_spans s in
  match protected_spans with
  | [] => transform s
  | _ => _apply_to_unprotected_segments s protected_spans transform
  end.

(** [pattern.sub(repl, s)] for a string [repl]: the template is compiled
    first (also when nothing matches); without a backslash it is literal. *)
Definition re_sub_template (r : regex) (repl : text) (s : text) : result text :=
  let* expand := (if contains_char (chr "\") repl then re_template repl
                  else Ok (fun _ => repl)) in
  re_sub r (fun m => Ok (expand (slice s (m_start m) (m_end m)))) s.

(** ** pronunciation.py *)

(** [TOKEN_CHARS_CLASS]: [A-Za-z0-9'] *)
Definition is_token_char (c : char) : bool :=
  (in_range "A" "Z" c || in_range "a" "z" c || in_range "0" "9" c
   || ch_eqb (chr "'") c)%bool.

Definition BRACKET_SPAN_PATTERN : regex := protected_span_re.

Definition _find_bracket_spans (s : text) : list (nat * nat) :=
  spans_of (finditer BRACKET_SPAN_PATTERN s).

(** Order of [str]: code point by code point, a proper prefix first. *)
Fixpoint text_leb (a b : text) : bool :=
  match a, b with
  | [], _ => true
  | _ :: _, [] => false
  | x :: a', y :: b' => if N.ltb x y then true else if N.ltb y x then false else text_leb a' b'
  end.

(** The sort key [(-len(k), k)]. *)
Definition key_leb (a b : text) : bool :=
  if length b <? length a then true
  else if length a <? length b then false
  else text_leb a b.

Definition key_le (a b : text) : Prop := key_leb a b = true.

#[local] Instance key_le_dec a b : Decision (key_le a b).
Proof. unfold key_le. apply _. Defined.

Definition ordered_keys (keys : list text) : list text := merge_sort key_le keys.

(** [(?<![A-Za-z0-9'])KEY(?![A-Za-z0-9'])] *)
Definition key_pattern (key : text) : regex :=
  Seq (not_behind is_token_char) (Seq (LitText key) (not_ahead is_token_char)).

Definition _build_replacement_patterns (keys : list text) : list (text * regex) :=
  map (fun key => (key, key_pattern key)) (ordered_keys keys).

(** The body of the loop of [_apply_to_segment]; [mapping[key]] cannot fail,
    the keys being those of the mapping. *)
Definition sweep (mapping : gmap (list N) (list N)) (segment : result text)
    (kp : text * regex) : result text :=
  let* seg := segment in
  re_sub_template (snd kp) (default [] (mapping !! fst kp)) seg.

Definition mapping_keys (mapping : gmap (list N) (list N)) : list text :=
  fst <$> map_to_list mapping.

Definition _apply_to_segment (segment : text) (mapping : gmap (list N) (list N))
  : result text :=
  if bool_decide (mapping = ∅) then Ok segment
  else fold_left (sweep mapping)
                 (_build_replacement_patterns (mapping_keys mapping)) (Ok segment).

Fixpoint split_loop (s : text) (last_index : nat) (spans : list (nat * nat))
  : list (bool * text) :=
  match spans with
  | [] => if last_index <? length s then [(false, slice_from s last_index)] else []
  | (start, end_) :: spans' =>
      (if last_index <? start then [(false, slice s last_index start)] else [])
        ++ (true, slice s start end_) :: split_loop s end_ spans'
  end.

Definition _split_by_brackets (s : text) : list (bool * text) :=
  let spans := _find_bracket_spans s in
  match spans with
  | [] => [(false, s)]
  | _ => split_loop s 0 spans
  end.

Fixpoint process_segments (mapping : gmap (list N) (list N))
    (segments : list (bool * text)) : result text :=
  match segments with
  | [] => Ok []
  | (is_protected, chunk) :: rest =>
      let* head := (if is_protected then Ok chunk else _apply_to_segment chunk mapping) in
      let* tail := process_segments mapping rest in
      Ok (head ++ tail)
  end.

Definition apply_pronunciation_dict (s : text) (mapping : gmap (list N) (list N))
  : result text :=
  if (negb (nonempty s) || bool_decide (mapping = ∅))%bool then Ok s
  else process_segments mapping (_split_by_brackets s).

(** ** multi_voice.py *)

(** [<voice\s*:\s*([A-Za-z0-9_-]+)\s*>] *)
Definition is_voice_id_char (c : char) : bool :=
  (in_range "A" "Z" c || in_range "a" "z" c || in_range "0" "9" c
   || ch_eqb (chr "_") c || ch_eqb (chr "-") c)%bool.

Definition _VOICE_DIRECTIVE_RE : regex :=
  Seq (Lits "<voice")
    (Seq (Star cls_space)
      (Seq (Lit ":")
        (Seq (Star cls_space)
          (Seq (Group 1 (Plus (Set_ is_voice_id_char)))
            (Seq (Star cls_space) (Lit ">")))))).

(** The loop state of [_find_bracket_ranges]; a [range(a, b)] is the pair
    [(a, b)]. *)
Record br_state := BrState {
  br_ranges : list (nat * nat);
  br_start : option nat;
  br_depth : nat;
}.

Definition br_step (st : br_state) (idx : nat) (ch : char) : br_state :=
  if ch_eqb ch (chr "[") then
    BrState (br_ranges st)
            (if br_depth st =? 0 then Some idx else br_start st)
            (br_depth st + 1)
  else if (ch_eqb ch (chr "]") && (0 <? br_depth st))%bool then
    let depth := br_depth st - 1 in
    match br_start st with
    | Some start =>
        if depth =? 0 then BrState (br_ranges st ++ [(start, idx + 1)]) None depth
        else BrState (br_ranges st) (br_start st) depth
    | None => BrState (br_ranges st) (br_start st) depth
    end
  else st.

Fixpoint br_loop (st : br_state) (idx : nat) (s : text) : br_state :=
  match s with
  | [] => st
  | ch :: s' => br_loop (br_step st idx ch) (S idx) s'
  end.

Definition _find_bracket_ranges (s : text) : list (nat * nat) :=
  br_ranges (br_loop (BrState [] None 0) 0 s).

Definition in_range_pair (position : nat) (r : nat * nat) : bool :=
  ((fst r <=? position) && (position <? snd r))%bool.

Definition _is_within_brackets (position : nat) (ranges : list (nat * nat)) : bool :=
  existsb (in_range_pair position) ranges.

Record segment := Segment {
  voice_id : option (list N);
  seg_text : list N;
}.

Definition directive_matches (s : text) : list rmatch :=
  let bracket_ranges := _find_bracket_ranges s in
  List.filter (fun m => negb (_is_within_brackets (m_start m) bracket_ranges))
              (finditer _VOICE_DIRECTIVE_RE s).

(** The loop over the directives: the segments so far, the offset after the
    last directive and the current voice. *)
Fixpoint directive_loop (s : text) (matches : list rmatch)
    (segments : list segment) (last_index : nat) (current_voice : option (list N))
  : list segment * nat * option (list N) :=
  match matches with
  | [] => (segments, last_index, current_voice)
  | m :: matches' =>
      let segment_text := slice s last_index (m_start m) in
      let segments :=
        if nonempty (strip segment_text)
        then segments ++ [Segment current_voice segment_text]
        else segments in
      directive_loop s matches' segments (m_end m)
                     (Some (strip (default [] (group_text s m 1))))
  end.

Definition segments_of_matches (s : text) (matches : list rmatch) : list segment :=
  let '(segments, last_index, current_voice) := directive_loop s matches [] 0 None in
  let tail_text := slice_from s last_index in
  if (nonempty (strip tail_text) || negb (nonempty segments))%bool
  then segments ++ [Segment current_voice tail_text]
  else segments.

Definition parse_voice_directives (s : text) : list segment :=
  segments_of_matches s (directive_matches s).

(** ** auto_pauses.py *)

Definition number_re : regex :=
  Seq (Plus cls_digit) (Opt (Seq (Lit ".") (Plus cls_digit))).

(** [\[pause:(\d+(?:\.\d+)?)s\]], re.IGNORECASE *)
Definition MANUAL_PAUSE_CANONICAL_PATTERN : regex :=
  Seq (Lit "[") (Seq (LitsI "pause") (Seq (Lit ":")
    (Seq (Group 1 number_re) (Seq (LitI "s") (Lit "]"))))).

(** [\[(\d+(?:\.\d+)?)s\]], re.IGNORECASE *)
Definition MANUAL_PAUSE_SHORTHAND_PATTERN : regex :=
  Seq (Lit "[") (Seq (Group 1 number_re) (Seq (LitI "s") (Lit "]"))).

Definition is_bracket (c : char) : bool :=
  (ch_eqb (chr "[") c || ch_eqb (chr "]") c)%bool.

(** [\[[^\[\]]+\]] *)
Definition BRACKET_TOKEN_PATTERN : regex :=
  Seq (Lit "[") (Seq (Plus (Set_ (fun c => negb (is_bracket c)))) (Lit "]")).

(** [\.\.+] *)
Definition ELLIPSIS_PATTERN : regex := Seq (Lit ".") (Plus (Lit ".")).

(** [\s-\s] *)
Definition SPACED_DASH_PATTERN : regex :=
  Seq cls_space (Seq (Lit "-") cls_space).

(** [\n\s*\n] *)
Definition paragraph_pattern : regex :=
  Seq (Lit "010") (Seq (Star cls_space) (Lit "010")).

(** [\b[\w']+\b] *)
Definition word_pattern : regex :=
  Seq word_boundary
      (Seq (Plus (Set_ (fun c => (is_word c || ch_eqb (chr "'") c)%bool))) word_boundary).

Definition DISCOURSE_MARKERS : list text :=
  map str ["however"; "therefore"; "meanwhile"; "in fact"; "on the other hand";
           "so"; "but"]%string.

Inductive style_name := audiobook | youtube | ad.

Inductive boundary := comma | semicolon | colon | emdash | sentence_end | paragraph.

Definition boundary_eqb (a b : boundary) : bool :=
  match a, b with
  | comma, comma | semicolon, semicolon | colon, colon | emdash, emdash
  | sentence_end, sentence_end | paragraph, paragraph => true
  | _, _ => false
  end.

Definition BASE_PAUSES (n : style_name) (b : boundary) : Q :=
  (match n, b with
  | audiobook, comma => 0.16 | audiobook, semicolon => 0.32
  | audiobook, colon => 0.36 | audiobook, emdash => 0.24
  | audiobook, sentence_end => 0.55 | audiobook, paragraph => 1.15
  | youtube, comma => 0.12 | youtube, semicolon => 0.22
  | youtube, colon => 0.24 | youtube, emdash => 0.18
  | youtube, sentence_end => 0.38 | youtube, paragraph => 0.80
  | ad, comma => 0.07 | ad, semicolon => 0.14
  | ad, colon => 0.16 | ad, emdash => 0.12
  | ad, sentence_end => 0.26 | ad, paragraph => 0.55
  end)%Q.

(** The table [_get_style_base] returns: one of the three tables of
    [BASE_PAUSES] themselves, or the table built afresh for "dramatic",
    which is identical ([is]) to none of them. *)
Inductive style_base := Shared (n : style_name) | DramaticCopy.

(** [style_base.get(boundary_type)]; the six kinds are keys of every table. *)
Definition base_of (sb : style_base) (b : boundary) : Q :=
  match sb with
  | Shared n => BASE_PAUSES n b
  | DramaticCopy => (BASE_PAUSES audiobook b * 1.35)%Q
  end.

Definition _get_style_base (style : text) : style_base :=
  let style_lower := uc_lower (if nonempty style then style else str "audiobook") in
  if text_eqb style_lower (str "dramatic") then DramaticCopy
  else if text_eqb style_lower (str "audiobook") then Shared audiobook
  else if text_eqb style_lower (str "youtube") then Shared youtube
  else if text_eqb style_lower (str "ad") then Shared ad
  else Shared audiobook.

(** Python's [max] and [min] of two numbers: the first one unless the second
    is strictly greater (smaller). *)
Definition py_max (a b : Q) : Q := if Qlt_le_dec a b then b else a.
Definition py_min (a b : Q) : Q := if Qlt_le_dec b a then b else a.

(** [q > 0] *)
Definition Qgtb0 (q : Q) : bool := if Qlt_le_dec 0 q then true else false.

Definition _clamp (value minimum maximum : Q) : Q :=
  py_max minimum (py_min maximum value).

(** Rounding to the nearest integer, ties to even: what [.3f] does to the
    thousandths. *)
Definition round_half_even (q : Q) : Z :=
  let f := Qfloor q in
  let r := (q - inject_Z f)%Q in
  match Qcompare r (1 # 2) with
  | Lt => f
  | Gt => (f + 1)%Z
  | Eq => if Z.even f then f else (f + 1)%Z
  end.

Definition decimal_of_Z (z : Z) : text := str (NilZero.string_of_uint (N.to_uint (Z.to_N z))).

(** [f"{i:03d}"] for [0 <= i < 1000]. *)
Definition pad3 (i : Z) : text :=
  let d := decimal_of_Z i in
  repeat (chr "0") (3 - length d) ++ d.

(** [f"{seconds:.3f}"] *)
Definition format_3f (seconds : Q) : text :=
  let n := round_half_even (Qabs seconds * 1000) in
  (if Qlt_le_dec seconds 0 then str "-" else [])
    ++ decimal_of_Z (n / 1000) ++ str "." ++ pad3 (n mod 1000).

Definition _format_pause (seconds : Q) : text :=
  let formatted :=
    rstrip_by (ch_eqb (chr ".")) (rstrip_by (ch_eqb (chr "0")) (format_3f seconds)) in
  let formatted :=
    if contains_char (chr ".") formatted then formatted else formatted ++ str ".0" in
  str "[pause:" ++ formatted ++ str "s]".

(** The order of tuples of two integers. *)
Definition span_leb (a b : nat * nat) : bool :=
  (fst a <? fst b) || ((fst a =? fst b) && (snd a <=? snd b)).

Definition span_le (a b : nat * nat) : Prop := span_leb a b = true.

#[local] Instance span_le_dec a b : Decision (span_le a b).
Proof. unfold span_le. apply _. Defined.

Definition _find_spans (pattern : regex) (s : text) : list (nat * nat) :=
  spans_of (finditer pattern s).

Definition _inside_spans (index : nat) (spans : list (nat * nat)) : bool :=
  existsb (fun sp => (fst sp <=? index) && (index <? snd sp)) spans.

Definition _has_manual_pause_near (index : nat) (spans : list (nat * nat)) : bool :=
  let window := 3%Z in
  existsb (fun sp => ((Z.of_nat (fst sp) <=? Z.of_nat index + window)
                      && (Z.of_nat index - window <=? Z.of_nat (snd sp)))%Z) spans.

Fixpoint alpha_run_end (s : text) (fuel end_ : nat) : nat :=
  match fuel with
  | 0 => end_
  | S fuel' =>
      match s !! end_ with
      | Some c => if uc_isalpha c then alpha_run_end s fuel' (S end_) else end_
      | None => end_
      end
  end.

Fixpoint next_word_loop (s : text) (bracket_spans : list (nat * nat)) (fuel idx : nat)
  : text :=
  match fuel with
  | 0 => []
  | S fuel' =>
      match s !! idx with
      | None => []
      | Some c =>
          match List.find (fun sp => (fst sp <=? idx) && (idx <? snd sp)) bracket_spans with
          | Some sp => next_word_loop s bracket_spans fuel' (snd sp)
          | None =>
              if uc_isalpha c
              then uc_lower (slice s idx (alpha_run_end s (length s) idx))
              else next_word_loop s bracket_spans fuel' (S idx)
          end
      end
  end.

Definition _next_word (s : text) (start_index : nat) (bracket_spans : list (nat * nat))
  : text :=
  next_word_loop s bracket_spans (length s) start_index.

Definition _words_in_sentence (s : text) : Z :=
  let cleaned := re_sub_literal BRACKET_TOKEN_PATTERN (str " ") s in
  Z.of_nat (length (finditer word_pattern cleaned)).

(** A double or a single quote. *)
Definition is_quote (c : char) : bool :=
  (ch_eqb (chr "034") c || ch_eqb (chr "'") c)%bool.

(** The backward loop of [_should_skip_open_quote_boundary], started at
    [n - 1]: the offset of the nearest non-space character before [n]. *)
Fixpoint prev_non_space (s : text) (n : nat) : option nat :=
  match n with
  | 0 => None
  | S j =>
      match s !! j with
      | Some c => if uc_isspace c then prev_non_space s j else Some j
      | None => None
      end
  end.

Definition _should_skip_open_quote_boundary (s : text) (index : nat) : bool :=
  match prev_non_space s index with
  | None => false
  | Some p =>
      if opt_test is_quote (s !! p)
      then (p =? 0) || opt_test uc_isspace (char_before s p)
      else false
  end.

Definition marker_bump (sb : style_base) (boundary_type : boundary) : Q :=
  (match boundary_type with
  | sentence_end =>
      match sb with
      | Shared youtube => 0.07
      | Shared ad => 0.04
      | _ => 0.10
      end
  | comma | semicolon | colon | emdash => 0.04
  | paragraph => 0
  end)%Q.

(** The body of [_compute_pause_seconds] up to the clamp. *)
Definition unclamped_pause (boundary_type : boundary) (punctuation_char : option char)
    (sb : style_base) (speed_factor strength : Q) (words_in_sentence : option Z)
    (next_word : text) : Q :=
  let base_value := base_of sb boundary_type in
  let pause := (base_value / py_max speed_factor 0.2)%Q in
  let pause := (pause * strength)%Q in
  let pause :=
    match boundary_type, words_in_sentence with
    | sentence_end, Some w =>
        let extra := (_clamp (inject_Z (w - 18) / 40) 0 0.35 * 0.25)%Q in
        let pause := (pause + extra)%Q in
        if opt_test (ch_eqb (chr "?")) punctuation_char then (pause + 0.07)%Q else pause
    | _, _ => pause
    end in
  if nonempty next_word then
    let bump :=
      if existsb (fun m => startswith next_word (uc_lower m)) DISCOURSE_MARKERS
      then marker_bump sb boundary_type else 0%Q in
    (pause + bump)%Q
  else pause.

Definition _compute_pause_seconds (boundary_type : boundary) (punctuation_char : option char)
    (sb : style_base) (speed_factor strength : Q) (topup_only : bool)
    (min_pause max_pause : Q) (words_in_sentence : option Z) (next_word : text) : Q :=
  let pause :=
    unclamped_pause boundary_type punctuation_char sb speed_factor strength
      words_in_sentence next_word in
  let pause := _clamp pause min_pause max_pause in
  if (topup_only && negb (boundary_eqb boundary_type paragraph))%bool
  then (pause * 0.65)%Q else pause.

Definition _in_same_bracket_boundary (position : nat) (spans : list (nat * nat)) : bool :=
  existsb (fun sp => (fst sp <? position) && (position <? snd sp)) spans.

Definition _collect_spaced_dash_boundaries (s : text) : list nat :=
  map (fun m => m_start m + 1) (finditer SPACED_DASH_PATTERN s).

(** The state of the scanning loop of [_collect_boundaries_for_segment]. *)
Record scan_state := ScanState {
  sentence_start : nat;
  insertions : list (nat * list N);
}.

Definition is_sentence_mark (c : char) : bool :=
  (ch_eqb (chr ".") c || ch_eqb (chr "!") c || ch_eqb (chr "?") c)%bool.

Definition EM_DASH : char := 8212%N.
Definition EN_DASH : char := 8211%N.

(** The three reasons for which a sentence mark at [idx] is passed over. *)
Definition ellipsis_at (s : text) (idx : nat) : bool :=
  match match_at ELLIPSIS_PATTERN s idx false with Some _ => true | None => false end.

Definition decimal_dot_at (s : text) (start end_ idx : nat) (c : char) : bool :=
  (ch_eqb c (chr ".") && (start <? idx) && (idx + 1 <? end_)
   && opt_test uc_isdigit (char_before s idx) && opt_test uc_isdigit (s !! (idx + 1)))%bool.

(** The classification of the character [c] found at [idx]: the boundary type
    (if any) and whether the sentence starts anew after it. [None] is the
    [continue] taken for a sentence mark that is passed over. *)
Definition classify (s : text) (start end_ : nat) (spaced_dash_positions : list nat)
    (idx : nat) (c : char) : option (option boundary * bool) :=
  if is_sentence_mark c then
    if ellipsis_at s idx then None
    else if decimal_dot_at s start end_ idx c then None
    else if _should_skip_open_quote_boundary s idx then None
    else Some (Some sentence_end, true)
  else if ch_eqb c (chr ",") then Some (Some comma, false)
  else if ch_eqb c (chr ";") then Some (Some semicolon, false)
  else if ch_eqb c (chr ":") then Some (Some colon, false)
  else if (ch_eqb c EM_DASH || ch_eqb c EN_DASH
           || existsb (Nat.eqb idx) spaced_dash_positions)%bool
  then Some (Some emdash, false)
  else if (ch_eqb c (chr "010") || ch_eqb c (chr "013"))%bool then Some (None, true)
  else Some (None, false).

(** The loop that moves [insertion_pos] past the quote characters that
    follow, up to [end]. *)
Fixpoint skip_quotes (s : text) (end_ fuel insertion_pos : nat) : nat :=
  match fuel with
  | 0 => insertion_pos
  | S fuel' =>
      if (insertion_pos <? end_) && opt_test is_quote (s !! insertion_pos)
      then skip_quotes s end_ fuel' (S insertion_pos)
      else insertion_pos
  end.

Section Config.
Variables (s : text) (bracket_spans manual_pause_spans : list (nat * nat)).
Variables (sb : style_base) (speed_factor strength : Q) (topup_only : bool).
Variables (min_pause max_pause : Q).

(** What is done for a boundary found at [idx]: the tag to insert, if any. *)
Definition boundary_insertion (end_ idx : nat) (c : char) (boundary_type : boundary)
    (words_in_sentence : option Z) (insertions : list (nat * list N))
  : list (nat * list N) :=
  let insertion_pos := skip_quotes s end_ (length s) (idx + 1) in
  if (_in_same_bracket_boundary idx bracket_spans
      || _in_same_bracket_boundary insertion_pos bracket_spans)%bool
  then insertions
  else if _has_manual_pause_near insertion_pos manual_pause_spans then insertions
  else
    let next_word := _next_word s insertion_pos bracket_spans in
    let pause_seconds :=
      _compute_pause_seconds boundary_type (Some c) sb speed_factor strength
        topup_only min_pause max_pause words_in_sentence next_word in
    if (Qgtb0 pause_seconds
        && negb (existsb (fun ins => fst ins =? insertion_pos) insertions))%bool
    then insertions ++ [(insertion_pos, _format_pause pause_seconds)]
    else insertions.

(** One turn of the [while idx < end] loop. *)
Definition scan_step (start end_ : nat) (spaced_dash_positions : list nat)
    (idx : nat) (st : scan_state) : scan_state :=
  match s !! idx with
  | None => st
  | Some c =>
      if _inside_spans idx bracket_spans then st
      else
        match classify s start end_ spaced_dash_positions idx c with
        | None => st
        | Some (boundary_type, new_sentence) =>
            let words_in_sentence :=
              match boundary_type with
              | Some sentence_end =>
                  Some (_words_in_sentence (slice s (sentence_start st) (idx + 1)))
              | _ => None
              end in
            let sentence_start' := if new_sentence then idx + 1 else sentence_start st in
            match boundary_type with
            | Some b =>
                ScanState sentence_start'
                  (boundary_insertion end_ idx c b words_in_sentence (insertions st))
            | None => ScanState sentence_start' (insertions st)
            end
        end
  end.

Fixpoint scan_loop (start end_ : nat) (spaced_dash_positions : list nat)
    (n idx : nat) (st : scan_state) : scan_state :=
  match n with
  | 0 => st
  | S n' =>
      scan_loop start end_ spaced_dash_positions n' (S idx)
                (scan_step start end_ spaced_dash_positions idx st)
  end.

Definition _collect_boundaries_for_segment (start end_ : nat) : list (nat * list N) :=
  let spaced_dash_positions :=
    map (fun pos => start + pos) (_collect_spaced_dash_boundaries (slice s start end_)) in
  insertions (scan_loop start end_ spaced_dash_positions (end_ - start) start
                        (ScanState start [])).

(** The insertion for the paragraph break that ends at [boundary_pos]. *)
Definition paragraph_insertion (boundary_pos : nat) : list (nat * list N) :=
  if (negb (_inside_spans boundary_pos bracket_spans)
      && negb (_has_manual_pause_near boundary_pos manual_pause_spans))%bool
  then
    let pause_seconds :=
      _compute_pause_seconds paragraph None sb speed_factor strength topup_only
        min_pause max_pause None (_next_word s boundary_pos bracket_spans) in
    if Qgtb0 pause_seconds
    then [(boundary_pos, _format_pause pause_seconds)] else []
  else [].

(** The loop over the paragraph breaks, then the last segment. *)
Fixpoint paragraph_loop (para_matches : list rmatch) (para_start : nat)
  : list (nat * list N) :=
  match para_matches with
  | [] => _collect_boundaries_for_segment para_start (length s)
  | para_match :: rest =>
      _collect_boundaries_for_segment para_start (m_start para_match)
        ++ paragraph_insertion (m_end para_match)
        ++ paragraph_loop rest (m_end para_match)
  end.

End Config.

(** [sorted(insertions, key=lambda x: x[0])]: stable. *)
Fixpoint insert_by_pos (x : nat * list N) (l : list (nat * list N)) : list (nat * list N) :=
  match l with
  | [] => [x]
  | y :: l' => if fst x <=? fst y then x :: l else y :: insert_by_pos x l'
  end.

Definition sorted_by_pos (l : list (nat * list N)) : list (nat * list N) :=
  foldr insert_by_pos [] l.

(** The splicing loop: the pieces of the text and the tags, in order. *)
Fixpoint splice_loop (s : text) (last_idx : nat) (insertions : list (nat * list N)) : text :=
  match insertions with
  | [] => slice_from s last_idx
  | (pos, tag) :: rest =>
      if pos <? last_idx then splice_loop s last_idx rest
      else slice s last_idx pos ++ tag ++ splice_loop s pos rest
  end.

Definition collect_insertions (s : text) (style : text) (speed_factor strength : Q)
    (topup_only : bool) (min_pause max_pause : Q) : list (nat * list N) :=
  let style_base := _get_style_base style in
  let bracket_spans := _find_spans BRACKET_TOKEN_PATTERN s in
  let manual_pause_spans :=
    merge_sort span_le
      (_find_spans MANUAL_PAUSE_CANONICAL_PATTERN s
         ++ _find_spans MANUAL_PAUSE_SHORTHAND_PATTERN s) in
  paragraph_loop s bracket_spans manual_pause_spans style_base speed_factor strength
    topup_only min_pause max_pause (finditer paragraph_pattern s) 0.

Definition insert_auto_pauses (s : text) (style : text) (speed_factor strength : Q)
    (topup_only : bool) (min_pause max_pause : Q) : text :=
  if negb (nonempty s) then s
  else
    let insertions :=
      collect_insertions s style speed_factor strength topup_only min_pause max_pause in
    if negb (nonempty insertions) then s
    else splice_loop s 0 (sorted_by_pos insertions).

End WithEnv.

(** ** The number format in the words of the specification

    The integer is cut into its groups of three digits (millions, thousands,
    units); every group that is not zero is written out, followed by the name
    of its scale, and the groups are joined with a comma and a space. A group
    is written the same way: its hundreds, then its last two digits. *)

(** [sep.join(parts)] *)
Fixpoint join (sep : list N) (parts : list (list N)) : list N :=
  match parts with
  | [] => []
  | [p] => p
  | p :: ps => p ++ sep ++ join sep ps
  end.

Definition hundreds_part (g : Z) : list (list N) :=
  if (g / 100 =? 0)%Z then [] else [item ONES (g / 100) ++ str " hundred"].

Definition tens_part (g : Z) : list (list N) :=
  if (g mod 100 =? 0)%Z then [] else [two_digit_words (g mod 100)].

Definition group_spec (g : Z) : list N :=
  join (str ", ") (hundreds_part g ++ tens_part g).

Definition scaled_group (g : Z) (scale : string) : list (list N) :=
  if (g =? 0)%Z then [] else [group_spec g ++ str scale].

Definition int_to_words_spec (n : Z) : list N :=
  if (n =? 0)%Z then str "zero"
  else join (str ", ")
         (scaled_group (n / 1000000) " million"
            ++ scaled_group ((n / 1000) mod 1000) " thousand"
            ++ scaled_group (n mod 1000) "").

(** ** Directive mode in the words of the specification

    The directives cut the text into gaps: the text before the first
    directive, with no voice, and the text between a directive and the next
    one, with the voice of the former. The tail is the text after the last
    directive. *)

Section DirectiveSpec.
Context {E : PyEnv}.

Definition has_nonspace (t : list N) : bool :=
  existsb (fun c => negb (uc_isspace c)) t.

Definition directive_voice (s : list N) (m : rmatch) : list N :=
  strip (default [] (group_text s m 1)).

Fixpoint gaps (s : list N) (ms : list rmatch) (last_index : nat)
    (voice : option (list N)) : list segment :=
  match ms with
  | [] => []
  | m :: ms' =>
      Segment voice (slice s last_index (m_start m))
        :: gaps s ms' (m_end m) (Some (directive_voice s m))
  end.

Definition tail_start (ms : list rmatch) : nat :=
  match last ms with Some m => m_end m | None => 0 end.

Definition tail_voice (s : list N) (ms : list rmatch) : option (list N) :=
  directive_voice s <$> last ms.

Definition tail_segment (s : list N) (ms : list rmatch) : segment :=
  Segment (tail_voice s ms) (slice_from s (tail_start ms)).

Definition spoken (seg : segment) : bool := has_nonspace (seg_text seg).

End DirectiveSpec.

(** ** What an inserted tag says

    A tag inserted under a configuration renders a duration [d] that is a
    value [v] of the interval from [min_pause] to [max_pause], or, with
    [topup_only], 0.65 times such a value. *)

Section TagSpec.
Context {E : PyEnv}.

Definition conservative (topup_only : bool) (boundary_type : boundary) : bool :=
  topup_only && negb (boundary_eqb boundary_type paragraph).

Definition tag_in_bounds (topup_only : bool) (min_pause max_pause : Q)
    (ins : nat * list N) : Prop :=
  exists d v : Q,
    snd ins = _format_pause d
    /\ (0 < d)%Q
    /\ (min_pause <= v <= max_pause)%Q
    /\ (d = v \/ (topup_only = true /\ d = (v * 0.65)%Q)).

End TagSpec.

(** ** The terms of a duration that do not depend on the speed

    The extra of a long sentence, the bonus of a question mark and the bump
    of a discourse marker are added after the division by the speed. *)

Section AdditiveSpec.
Context {E : PyEnv}.

Definition additive_terms (boundary_type : boundary) (punctuation_char : option N)
    (sb : style_base) (words_in_sentence : option Z) (next_word : list N) : Q :=
  (match boundary_type, words_in_sentence with
   | sentence_end, Some w =>
       _clamp (inject_Z (w - 18) / 40) 0 0.35 * 0.25
       + (if opt_test (ch_eqb (chr "?")) punctuation_char then 0.07 else 0)
   | _, _ => 0
   end
   + (if (nonempty next_word
          && existsb (fun m => startswith next_word (uc_lower m)) DISCOURSE_MARKERS)%bool
      then marker_bump sb boundary_type else 0))%Q.

(** The value is not changed by the clamp. *)
Definition not_clamped (min_pause max_pause value : Q) : Prop :=
  (min_pause <= value <= max_pause)%Q.

End AdditiveSpec.

(** ** Notions used to state what the matcher does *)

Section MatcherSpec.
Context {E : PyEnv}.
Variable s : list N.

(** A match never moves backwards and never leaves the text. *)
Definition advances (st st' : mstate) : Prop :=
  ms_pos st <= ms_pos st' /\ (ms_pos st <= length s -> ms_pos st' <= length s).

(** A span of the text. *)
Definition span_in_text (m : rmatch) : Prop :=
  m_start m <= m_end m <= length s.

(** A bound on the number of turns that [finditer] takes from the offset
    [i]: two for every offset that is left, one less after an empty match. *)
Definition turns_left (i : nat) (must_advance : bool) : nat :=
  if length s <? i then 0
  else 2 * (length s + 1 - i) - (if must_advance then 1 else 0).

(** The length of the run of characters of the class [p] that starts the
    list. *)
Fixpoint run_length (p : N -> bool) (l : list N) : nat :=
  match l with
  | c :: l' => if p c then S (run_length p l') else 0
  | [] => 0
  end.

Definition run (p : N -> bool) (i : nat) : nat := run_length p (drop i s).

Definition not_close (c : N) : bool := negb (ch_eqb (chr "]") c).
Definition not_bracket (c : N) : bool := negb (is_bracket c).
Definition is_open : N -> bool := ch_eqb (chr "[").
Definition is_close : N -> bool := ch_eqb (chr "]").

(** Where a match of [\[[^\]]*\]] that starts at [i] ends. *)
Definition protected_end (i : nat) : option nat :=
  if (opt_test is_open (s !! i)
      && opt_test is_close (s !! (S i + run not_close (S i))))%bool
  then Some (S (S i + run not_close (S i))) else None.

(** Where a match of [\[[^\[\]]+\]] that starts at [i] ends. *)
Definition token_end (i : nat) : option nat :=
  if (opt_test is_open (s !! i) && opt_test not_bracket (s !! S i)
      && opt_test is_close (s !! (S (S i) + run not_bracket (S (S i)))))%bool
  then Some (S (S (S i) + run not_bracket (S (S i)))) else None.

End MatcherSpec.

(** ** Text whose brackets are flat

    A text without nested and without empty brackets is a sequence of
    pieces: a character other than an opening bracket, or a token, that is
    a non-empty body without brackets between an opening and a closing
    bracket. *)

Inductive piece :=
| Plain (c : N)
| Token (body : list N).

Definition piece_ok (pc : piece) : bool :=
  match pc with
  | Plain c => negb (is_open c)
  | Token body => nonempty body && forallb not_bracket body
  end.

Definition flat_ok (ps : list piece) : bool := forallb piece_ok ps.

Definition render_piece (pc : piece) : list N :=
  match pc with
  | Plain c => [c]
  | Token body => chr "[" :: body ++ [chr "]"]
  end.

Fixpoint render (ps : list piece) : list N :=
  match ps with
  | [] => []
  | pc :: ps' => render_piece pc ++ render ps'
  end.

(** The spans of the tokens of a text that starts at offset [i]. *)
Fixpoint piece_spans (i : nat) (ps : list piece) : list (nat * nat) :=
  match ps with
  | [] => []
  | Plain _ :: ps' => piece_spans (S i) ps'
  | Token body :: ps' =>
      (i, i + length body + 2) :: piece_spans (i + length body + 2) ps'
  end.

(** The match that starts with the pieces [ps], at offset [i]. *)
Definition token_match (i : nat) (ps : list piece) : option rmatch :=
  match ps with
  | Token body :: _ => Some (RMatch i (i + length body + 2) [])
  | _ => None
  end.

(** ** Splicing tags into a text

    [spliced i t ins out]: [out] is the text [t], whose first character has
    offset [i], with every tag of [ins] inserted at its offset; no character
    of [t] is consumed or changed. *)

Inductive spliced : nat -> list N -> list (nat * list N) -> list N -> Prop :=
| spliced_done i t : spliced i t [] t
| spliced_char i c t ins out :
    spliced (S i) t ins out -> spliced i (c :: t) ins (c :: out)
| spliced_tag i t tag ins out :
    spliced i t ins out -> spliced i t ((i, tag) :: ins) (tag ++ out).

(** The number of inserted characters that precede the character of offset
    [a]. *)
Fixpoint tags_before (ins : list (nat * list N)) (a : nat) : nat :=
  match ins with
  | [] => 0
  | x :: rest => (if fst x <=? a then length (snd x) else 0) + tags_before rest a
  end.

(** Where the character of offset [a] goes. *)
Definition shift (ins : list (nat * list N)) (a : nat) : nat := a + tags_before ins a.

Fixpoint nondecreasing_from (lo : nat) (ins : list (nat * list N)) : Prop :=
  match ins with
  | [] => True
  | x :: rest => lo <= fst x /\ nondecreasing_from (fst x) rest
  end.

(** What the annotator inserts: at an offset of the text that is not
    strictly inside one of the spans, the tag of a duration that
    [_compute_pause_seconds] returned and that is more than zero. *)
Definition inserted_by {E : PyEnv} (s : list N) (spans : list (nat * nat))
    (sb : style_base) (speed_factor strength : Q) (topup_only : bool)
    (min_pause max_pause : Q) (x : nat * list N) : Prop :=
  exists b pc w nw,
    snd x = _format_pause
              (_compute_pause_seconds b pc sb speed_factor strength topup_only
                 min_pause max_pause w nw)
    /\ (0 < _compute_pause_seconds b pc sb speed_factor strength topup_only
              min_pause max_pause w nw)%Q
    /\ fst x <= length s
    /\ _in_same_bracket_boundary (fst x) spans = false.

(** An insertion at an offset of the text that is not strictly inside one of
    the spans. *)
Definition insertion_ok (s : list N) (spans : list (nat * nat)) (x : nat * list N) : Prop :=
  fst x <= length s /\ _in_same_bracket_boundary (fst x) spans = false.

(** ** The sentence marks that are passed over, in words *)

Section MarkSpec.
Context {E : PyEnv}.
Variable s : list N.

Definition char_is (i : nat) (p : N -> bool) : Prop :=
  exists c, s !! i = Some c /\ p c = true.

(** A dot with a dot right after it. *)
Definition followed_by_dot (idx : nat) : Prop :=
  char_is idx (ch_eqb (chr ".")) /\ char_is (S idx) (ch_eqb (chr ".")).

(** A dot between two digits of the segment from [start] to [end_]. *)
Definition between_digits (start end_ idx : nat) : Prop :=
  char_is idx (ch_eqb (chr ".")) /\ start < idx /\ idx + 1 < end_
  /\ char_is (idx - 1) uc_isdigit /\ char_is (idx + 1) uc_isdigit.

(** The nearest character before [idx] that is not whitespace is a quote
    that starts the text or follows whitespace. *)
Definition after_opening_quote (idx : nat) : Prop :=
  exists p,
    p < idx
    /\ char_is p (fun c => negb (uc_isspace c) && is_quote c)
    /\ (forall k, p < k < idx -> char_is k uc_isspace)
    /\ (p = 0 \/ char_is (p - 1) uc_isspace).

Definition passed_over (start end_ idx : nat) : Prop :=
  followed_by_dot idx \/ between_digits start end_ idx \/ after_opening_quote idx.

End MarkSpec.

(** ** The currency rules in the words of the specification *)

Section CurrencySpec.
Context {E : PyEnv}.

(** The decimal digits of [s] from [a] on, up to [b]. *)
Definition digits_between (p : N -> bool) (s : list N) (a b : nat) : Prop :=
  a <= b <= length s /\ forall k, a <= k < b -> opt_test p (s !! k) = true.

Definition digit_or_comma (c : N) : bool := (uc_isdecimal c || ch_eqb (chr ",") c)%bool.

(** The groups of a match of the currency pattern that starts at [i]: the
    dollars, digits and commas, and possibly one or two digits of cents. *)
Definition currency_groups (s : list N) (i : nat) (groups : list (nat * (nat * nat)))
  : Prop :=
  exists j,
    digits_between digit_or_comma s (S i) j
    /\ (groups = [(1, (S i, j))]
        \/ exists k, groups = [(2, (S j, k)); (1, (S i, j))]
                     /\ digits_between uc_isdecimal s (S j) k
                     /\ 1 <= k - S j <= 2).

(** A pattern made of character classes only leaves the groups alone and
    reads characters of its classes. *)
Fixpoint classes_within (q : N -> bool) (r : regex) : Prop :=
  match r with
  | Eps => True
  | Set_ p => forall c, p c = true -> q c = true
  | Seq r1 r2 | Alt r1 r2 => classes_within q r1 /\ classes_within q r2
  | Star r' => classes_within q r'
  | Group _ _ | Assert _ => False
  end.

Definition reads (q : N -> bool) (s : list N) (st st' : mstate) : Prop :=
  ms_groups st' = ms_groups st
  /\ (ms_pos st <= length s -> digits_between q s (ms_pos st) (ms_pos st')).

(** The amounts that a match stands for: a single digit of cents counts
    tenfold. *)
Definition dollars_of (s : list N) (m : rmatch) : Z :=
  int_of_digits
    (List.filter (fun c => negb (ch_eqb (chr ",") c)) (default [] (group_text s m 1))).

Definition cents_of (s : list N) (m : rmatch) : Z :=
  match group_text s m 2 with
  | None => 0
  | Some cs => if length cs =? 1 then int_of_digits cs * 10 else int_of_digits cs
  end.

(** The unit, in the plural except for exactly 1. *)
Definition label (unit_ : string) (n : Z) : list N :=
  if (n =? 1)%Z then str unit_ else str unit_ ++ str "s".

(** What replaces an amount. *)
Definition spoken_amount (max_value : Z) (literal : list N) (dollars cents : Z) : list N :=
  if (max_value <? dollars)%Z then literal
  else if (dollars =? 0)%Z then
    if (cents =? 0)%Z then str "zero dollars"
    else int_to_words_spec cents ++ str " " ++ label "cent" cents
  else if (cents =? 0)%Z then
    int_to_words_spec dollars ++ str " " ++ label "dollar" dollars
  else
    int_to_words_spec dollars ++ str " " ++ label "dollar" dollars ++ str " and "
      ++ int_to_words_spec cents ++ str " " ++ label "cent" cents.

End CurrencySpec.

(** ** Whole words and chunks, in the words of the specification *)

Section PronunciationSpec.
Context {E : PyEnv}.

(** The key stands at offset [i] of the segment, with no token character
    (ASCII letter, ASCII digit, apostrophe) right before it or right after
    it. *)
Definition whole_word_at (seg key : list N) (i : nat) : bool :=
  negb (opt_test is_token_char (char_before seg i))
  && startswith (drop i seg) key
  && negb (opt_test is_token_char (seg !! (i + length key))).

(** One sweep: every match of the key in the segment, from left to right,
    replaced by the value of the key. *)
Definition sweep_key (mapping : gmap (list N) (list N)) (segment : result (list N))
    (key : list N) : result (list N) :=
  let* seg := segment in
  re_sub_template (key_pattern key) (default [] (mapping !! key)) seg.

(** The result for a chunk: a protected chunk as it is, another one after
    the sweeps of the keys, in order. *)
Definition chunk_result (mapping : gmap (list N) (list N)) (keys : list (list N))
    (chunk : bool * list N) (r : list N) : Prop :=
  if fst chunk then r = snd chunk
  else fold_left (sweep_key mapping) keys (Ok (snd chunk)) = Ok r.

(** Spans in order, one after the other, between [lo] and [hi]. *)
Fixpoint chained (lo hi : nat) (spans : list (nat * nat)) : Prop :=
  match spans with
  | [] => True
  | sp :: rest => lo <= fst sp /\ fst sp <= snd sp /\ snd sp <= hi /\ chained (snd sp) hi rest
  end.

End PronunciationSpec.

(** ** Paragraph mode of multi_voice.py, and the entry point of
    text_normalization.py *)

(** The line boundaries of [str.splitlines]: line feed, vertical tab, form
    feed, carriage return, the file, group and record separators, next
    line, and the line and paragraph separators. *)
Definition is_linebreak (c : N) : bool :=
  existsb (N.eqb c) [10; 11; 12; 13; 28; 29; 30; 133; 8232; 8233]%N.

(** [s.splitlines()]: the lines without their line boundaries; a carriage
    return followed by a line feed is one boundary, and there is no empty
    last line after a final boundary. [line] is the line read so far. *)
Fixpoint splitlines_from (line s : list N) : list (list N) :=
  match s with
  | [] => if nonempty line then [line] else []
  | c :: s' =>
      if is_linebreak c then
        line :: match s' with
                | c' :: s'' =>
                    if (N.eqb c 13 && N.eqb c' 10)%bool then splitlines_from [] s''
                    else splitlines_from [] s'
                | [] => splitlines_from [] s'
                end
      else splitlines_from (line ++ [c]) s'
  end.

Definition splitlines (s : list N) : list (list N) := splitlines_from [] s.

Section ParagraphMode.
Context {E : PyEnv}.

(** ["\n".join(current_lines).strip()] *)
Definition paragraph_of (current_lines : list (list N)) : list N :=
  strip (join [chr "010"] current_lines).

(** One turn of the loop of [split_paragraphs] over the lines: the
    paragraphs so far and the lines of the current one. *)
Definition paragraph_step (st : list (list N) * list (list N)) (line : list N)
  : list (list N) * list (list N) :=
  let '(paragraphs, current_lines) := st in
  if text_eqb (strip line) [] then
    if nonempty current_lines
    then (paragraphs ++ [paragraph_of current_lines], [])
    else (paragraphs, current_lines)
  else (paragraphs, current_lines ++ [line]).

Definition split_paragraphs (s : list N) : list (list N) :=
  let '(paragraphs, current_lines) := fold_left paragraph_step (splitlines s) ([], []) in
  let paragraphs :=
    if nonempty current_lines then paragraphs ++ [paragraph_of current_lines]
    else paragraphs in
  List.filter nonempty paragraphs.

(** [assignments[idx] if idx < len(assignments) and assignments[idx] else
    default_voice] *)
Definition assigned_voice (assignments : list (list N)) (default_voice : list N)
    (idx : nat) : list N :=
  match assignments !! idx with
  | Some v => if nonempty v then v else default_voice
  | None => default_voice
  end.

(** The loop of [build_segments_from_paragraphs] from the index [idx] on. *)
Fixpoint build_segments_from (idx : nat) (paragraphs assignments : list (list N))
    (default_voice : list N) : list segment :=
  match paragraphs with
  | [] => []
  | paragraph_ :: rest =>
      if negb (nonempty (strip paragraph_))
      then build_segments_from (S idx) rest assignments default_voice
      else Segment (Some (assigned_voice assignments default_voice idx)) paragraph_
             :: build_segments_from (S idx) rest assignments default_voice
  end.

Definition build_segments_from_paragraphs (paragraphs assignments : list (list N))
    (default_voice : list N) : list segment :=
  build_segments_from 0 paragraphs assignments default_voice.

(** [normalize_text(text, normalize_currency=..., currency_max_value=...)] *)
Definition normalize_text (s : list N) (normalize_currency : bool)
    (currency_max_value : option Z) : result (list N) :=
  let max_value := default 999999999%Z currency_max_value in
  if normalize_currency then normalize_currency_usd s (Some max_value) else Ok s.

End ParagraphMode.

(** ** Notions used to state the further properties *)

(** A span that starts with an opening bracket and ends with a closing
    bracket. *)
Definition bracketed (s : list N) (sp : nat * nat) : Prop :=
  fst sp < snd sp
  /\ s !! fst sp = Some (chr "[") /\ s !! (snd sp - 1) = Some (chr "]").

(** The characters between the two brackets of a span are of the class
    [inner]. *)
Definition body_of_class (inner : N -> bool) (s : list N) (sp : nat * nat) : Prop :=
  forall k, fst sp < k < snd sp - 1 -> opt_test inner (s !! k) = true.

(** What the loop of [_find_bracket_ranges] keeps true, after the
    characters [pre]: the ranges found are in order and bracketed, and a
    start is remembered exactly while the depth is not zero. *)
Definition br_inv (pre : list N) (st : br_state) : Prop :=
  chained 0 (match br_start st with Some a => a | None => length pre end) (br_ranges st)
  /\ Forall (bracketed pre) (br_ranges st)
  /\ match br_start st with
     | Some a => a < length pre /\ pre !! a = Some (chr "[") /\ 0 < br_depth st
     | None => br_depth st = 0
     end.

(** What the currency pass makes of a chunk of the text: a protected
    chunk as it is, another one with its amounts replaced. *)
Definition currency_chunk_result {E : PyEnv} (max_value : Z) (chunk : bool * list N)
    (r : list N) : Prop :=
  if fst chunk then r = snd chunk
  else re_sub currency_pattern (replace_match max_value (snd chunk)) (snd chunk) = Ok r.

(** The characters of a number in words: a small letter, a space or a
    comma. *)
Definition is_spoken_char (c : N) : bool :=
  (in_range "a" "z" c || ch_eqb (chr " ") c || ch_eqb (chr ",") c)%bool.

Definition spoken_text (t : list N) : Prop := forallb is_spoken_char t = true.

(** The key stands as a whole word somewhere in the segment. *)
Definition occurs_whole {E : PyEnv} (seg key : list N) : bool :=
  existsb (whole_word_at seg key) (seq 0 (S (length seg))).

(** The characters at which the annotator can insert a tag: a sentence
    mark, a comma, a semicolon, a colon, an em or en dash, a hyphen (between
    spaces) and the line feed (of a paragraph break). *)
Definition is_boundary_char (c : N) : bool :=
  (is_sentence_mark c || ch_eqb c (chr ",") || ch_eqb c (chr ";") || ch_eqb c (chr ":")
   || ch_eqb c EM_DASH || ch_eqb c EN_DASH || ch_eqb c (chr "-") || ch_eqb c (chr "010"))%bool.

(** The environment reads ASCII as Python does: among the ASCII characters
    the decimal digits are 0 to 9, and a character matches itself when the
    case is ignored. *)
Definition reads_ascii (E : PyEnv) : Prop :=
  (forall c, (c < 128)%N -> uc_isdecimal c = ascii_isdigit c)
  /\ (forall c, uc_ieq c c = true).

(** A string of ASCII digits. *)
Definition ascii_digits (t : list N) : Prop := Forall (fun c => ascii_isdigit c = true) t.

(** * Theorems *)

(** ** The matcher *)

Section Matcher.
Context {E : PyEnv}.
Variable s : list N.

Lemma star_iter_advances (f : mstate -> list mstate) :
  (forall st st', In st' (f st) -> advances s st st') ->
  forall fuel st st', In st' (star_iter f fuel st) -> advances s st st'.
Proof.
  intros Hf. induction fuel as [|n IH]; intros st st' Hin; cbn [star_iter] in Hin.
  - destruct Hin as [<-|[]]. split; auto.
  - apply in_app_iff in Hin as [Hin|[<-|[]]]; [|split; auto].
    apply in_flat_map in Hin as (mid & Hmid & Hin).
    destruct (ms_pos st <? ms_pos mid); [|destruct Hin].
    apply Hf in Hmid. apply IH in Hin. unfold advances in *. lia.
Qed.

Lemma ends_advances (r : regex) :
  forall st st', In st' (ends s r st) -> advances s st st'.
Proof.
  induction r as [|p|r1 IH1 r2 IH2|r1 IH1 r2 IH2|r IH|i r IH|a]; intros st st' Hin;
    cbn [ends] in Hin.
  - destruct Hin as [<-|[]]. split; auto.
  - destruct (s !! ms_pos st) as [c|] eqn:Hc; [|destruct Hin].
    destruct (p c); [|destruct Hin]. destruct Hin as [<-|[]].
    apply lookup_lt_Some in Hc. split; cbn; lia.
  - apply in_flat_map in Hin as (mid & Hmid & Hin).
    apply IH1 in Hmid. apply IH2 in Hin. unfold advances in *. lia.
  - apply in_app_iff in Hin as [Hin|Hin]; auto.
  - eapply star_iter_advances; eauto.
  - apply in_map_iff in Hin as (mid & <- & Hin). apply IH in Hin. exact Hin.
  - destruct (a s (ms_pos st)); [|destruct Hin]. destruct Hin as [<-|[]]. split; auto.
Qed.

Lemma match_at_span (r : regex) (i : nat) (ma : bool) (m : rmatch) :
  match_at r s i ma = Some m ->
  m_start m = i /\ i <= m_end m /\ (i <= length s -> m_end m <= length s)
  /\ (ma = true -> i < m_end m).
Proof.
  unfold match_at. destruct (List.find _ _) as [st|] eqn:Hf; [|discriminate].
  intros [= <-]. cbn. apply find_some in Hf as [Hin Hma].
  apply ends_advances in Hin as [H1 H2]. cbn in *.
  repeat split; auto.
  intros ->. cbn in Hma. apply negb_true_iff, Nat.eqb_neq in Hma. lia.
Qed.

Lemma finditer_from_spans (r : regex) :
  forall fuel i ma,
    Forall (fun m => i <= m_start m /\ span_in_text s m) (finditer_from r s fuel i ma).
Proof.
  induction fuel as [|n IH]; intros i ma; cbn [finditer_from]; [constructor|].
  destruct (length s <? i) eqn:Hlen; [constructor|].
  apply Nat.ltb_ge in Hlen.
  destruct (match_at r s i ma) as [m|] eqn:Hm.
  - apply match_at_span in Hm as (Hs & He & Hl & _).
    constructor; [unfold span_in_text; lia|].
    destruct (m_end m =? i) eqn:Heq.
    + apply IH.
    + eapply Forall_impl; [apply IH|]. cbn. intros m' [? ?]. split; [lia|assumption].
  - eapply Forall_impl; [apply IH|]. cbn. intros m' [? ?]. split; [lia|assumption].
Qed.

Lemma finditer_spans (r : regex) : Forall (span_in_text s) (finditer r s).
Proof.
  eapply Forall_impl; [apply finditer_from_spans|]. cbn. now intros m [_ ?].
Qed.

(** *** The fuel is enough

    The loops of the matcher are given a number of turns in advance; with
    that number or with any larger one the result is the same. *)

Lemma flat_map_ext_In {A B} (f g : A -> list B) (l : list A) :
  (forall a, In a l -> f a = g a) -> flat_map f l = flat_map g l.
Proof.
  intros H. rewrite !flat_map_concat_map. f_equal. now apply map_ext_in.
Qed.

Lemma star_iter_enough (f : mstate -> list mstate) :
  (forall st st', In st' (f st) -> advances s st st') ->
  forall fuel fuel' st,
    ms_pos st <= length s ->
    length s - ms_pos st < fuel -> length s - ms_pos st < fuel' ->
    star_iter f fuel st = star_iter f fuel' st.
Proof.
  intros Hf. induction fuel as [|n IH]; intros fuel' st Hst H1 H2; [lia|].
  destruct fuel' as [|n']; [lia|]. cbn [star_iter]. f_equal.
  apply flat_map_ext_In. intros st' Hin.
  destruct (Nat.ltb_spec (ms_pos st) (ms_pos st')); [|reflexivity].
  apply Hf in Hin as [_ Hle]. specialize (Hle Hst). apply IH; lia.
Qed.

Lemma ends_star_enough (r : regex) (st : mstate) (fuel : nat) :
  ms_pos st <= length s -> length s - ms_pos st < fuel ->
  ends s (Star r) st = star_iter (ends s r) fuel st.
Proof.
  intros Hst Hfuel. cbn [ends].
  apply star_iter_enough; [apply ends_advances|assumption|lia|assumption].
Qed.

Lemma finditer_from_enough (r : regex) :
  forall fuel fuel' i ma,
    turns_left s i ma <= fuel -> turns_left s i ma <= fuel' ->
    finditer_from r s fuel i ma = finditer_from r s fuel' i ma.
Proof.
  unfold turns_left.
  induction fuel as [|n IH]; intros fuel' i ma H1 H2.
  - destruct (Nat.ltb_spec (length s) i) as [Hi|Hi].
    + destruct fuel' as [|n']; [reflexivity|]. cbn [finditer_from].
      now replace (length s <? i) with true by (symmetry; apply Nat.ltb_lt; lia).
    + destruct ma; lia.
  - destruct fuel' as [|n'].
    + cbn [finditer_from].
      destruct (Nat.ltb_spec (length s) i) as [Hi|Hi]; [reflexivity|destruct ma; lia].
    + cbn [finditer_from].
      destruct (Nat.ltb_spec (length s) i) as [Hi|Hi]; [reflexivity|].
      destruct (match_at r s i ma) as [m|] eqn:Hm.
      * apply match_at_span in Hm as (Hs & He & Hl & Hma). specialize (Hl Hi).
        f_equal. destruct (Nat.eqb_spec (m_end m) i) as [Heq|Hne].
        -- assert (ma = false) by (destruct ma; [specialize (Hma eq_refl); lia|reflexivity]).
           subst ma.
           apply IH; replace (length s <? i) with false
             by (symmetry; apply Nat.ltb_ge; lia); lia.
        -- apply IH; destruct (Nat.ltb_spec (length s) (m_end m)); destruct ma; lia.
      * apply IH; destruct (Nat.ltb_spec (length s) (S i)); destruct ma; lia.
Qed.

Lemma finditer_enough (r : regex) (fuel : nat) :
  2 * length s + 2 <= fuel -> finditer r s = finditer_from r s fuel 0 false.
Proof.
  intros Hfuel. unfold finditer.
  apply finditer_from_enough; unfold turns_left; cbn [Nat.ltb Nat.leb]; lia.
Qed.

(** *** A loop over one class of characters *)

Lemma run_step (p : N -> bool) (i : nat) :
  run s p i = match s !! i with
            | Some c => if p c then S (run s p (S i)) else 0
            | None => 0
            end.
Proof.
  unfold run. destruct (s !! i) as [c|] eqn:Hc.
  - rewrite (drop_S _ _ _ Hc). reflexivity.
  - apply lookup_ge_None in Hc. now rewrite drop_ge.
Qed.

Lemma run_in (p : N -> bool) (i k : nat) :
  k < run s p i -> exists c, s !! (i + k) = Some c /\ p c = true.
Proof.
  revert i. induction k as [|k IH]; intros i Hk; rewrite run_step in Hk;
    destruct (s !! i) as [c|] eqn:Hc; try lia; destruct (p c) eqn:Hp; try lia.
  - rewrite Nat.add_0_r. eauto.
  - replace (i + S k) with (S i + k) by lia. apply IH. lia.
Qed.

Lemma ends_seq (r1 r2 : regex) (st : mstate) :
  ends s (Seq r1 r2) st = flat_map (ends s r2) (ends s r1 st).
Proof. reflexivity. Qed.

Lemma ends_star (r : regex) (st : mstate) :
  ends s (Star r) st = star_iter (ends s r) (S (length s - ms_pos st)) st.
Proof. reflexivity. Qed.

Lemma ends_set (p : N -> bool) (i : nat) g :
  ends s (Set_ p) (MState i g)
  = if opt_test p (s !! i) then [MState (S i) g] else [].
Proof. cbn. destruct (s !! i) as [c|]; reflexivity. Qed.

Lemma star_iter_set (p : N -> bool) (fuel i : nat) g :
  star_iter (ends s (Set_ p)) (S fuel) (MState i g)
  = (if opt_test p (s !! i) then star_iter (ends s (Set_ p)) fuel (MState (S i) g)
     else []) ++ [MState i g].
Proof.
  cbn [star_iter]. rewrite ends_set.
  destruct (opt_test p (s !! i)); [|reflexivity].
  cbn [flat_map ms_pos]. rewrite app_nil_r.
  replace (i <? S i) with true by (symmetry; apply Nat.ltb_lt; lia). reflexivity.
Qed.

(** A loop over the class [p] followed by a character of a class [q] that
    is disjoint from it: the loop takes the whole run, and nothing is gained
    by giving characters back. *)
Lemma star_then_set (p q : N -> bool) :
  (forall c, q c = true -> p c = false) ->
  forall fuel i g,
    length s - i < fuel ->
    flat_map (ends s (Set_ q)) (star_iter (ends s (Set_ p)) fuel (MState i g))
    = if opt_test q (s !! (i + run s p i)) then [MState (S (i + run s p i)) g] else [].
Proof.
  intros Hpq. induction fuel as [|n IH]; intros i g Hfuel; [lia|].
  rewrite star_iter_set, flat_map_app. cbn [flat_map]. rewrite app_nil_r, ends_set.
  rewrite (run_step p i).
  destruct (s !! i) as [c|] eqn:Hc; cbn [opt_test].
  - destruct (p c) eqn:Hp.
    + rewrite IH by (apply lookup_lt_Some in Hc; lia).
      replace (q c) with false by (destruct (q c) eqn:Hq; [apply Hpq in Hq; congruence|reflexivity]).
      rewrite app_nil_r. replace (i + S (run s p (S i))) with (S i + run s p (S i)) by lia.
      reflexivity.
    + cbn [flat_map app]. rewrite Nat.add_0_r, Hc. reflexivity.
  - cbn [flat_map app]. rewrite Nat.add_0_r, Hc. reflexivity.
Qed.

(** *** The two bracket patterns *)

Lemma find_advancing (i e : nat) (ma : bool) g :
  i < e ->
  List.find (fun st => negb ma || negb (ms_pos st =? i)) [MState e g] = Some (MState e g).
Proof.
  intros Hlt. cbn. replace (e =? i) with false by (symmetry; apply Nat.eqb_neq; lia).
  now rewrite orb_true_r.
Qed.

Lemma match_at_protected (i : nat) (ma : bool) :
  match_at protected_span_re s i ma = (fun e => RMatch i e []) <$> protected_end s i.
Proof.
  unfold match_at, protected_span_re, protected_end, Lit.
  rewrite ends_seq, ends_set. fold is_open.
  destruct (opt_test is_open (s !! i)); cbn [andb flat_map]; [|reflexivity].
  rewrite app_nil_r, ends_seq, ends_star. cbn [ms_pos].
  rewrite (star_then_set not_close (ch_eqb (chr "]"))).
  - fold is_close. destruct (opt_test is_close _); [|reflexivity].
    rewrite find_advancing by lia. reflexivity.
  - intros c Hc. unfold not_close. now rewrite Hc.
  - lia.
Qed.

Lemma match_at_token (i : nat) (ma : bool) :
  match_at BRACKET_TOKEN_PATTERN s i ma = (fun e => RMatch i e []) <$> token_end s i.
Proof.
  unfold match_at, BRACKET_TOKEN_PATTERN, token_end, Lit, Plus.
  rewrite ends_seq, ends_set. fold is_open.
  destruct (opt_test is_open (s !! i)); cbn [andb flat_map]; [|reflexivity].
  rewrite app_nil_r, 2!ends_seq, ends_set. fold not_bracket.
  destruct (opt_test not_bracket (s !! S i)); cbn [andb flat_map]; [|reflexivity].
  rewrite app_nil_r, ends_star. cbn [ms_pos].
  rewrite (star_then_set not_bracket (ch_eqb (chr "]"))).
  - fold is_close. destruct (opt_test is_close _); [|reflexivity].
    rewrite find_advancing by lia. reflexivity.
  - intros c Hc. unfold not_bracket, is_bracket. rewrite Hc. now rewrite orb_true_r.
  - lia.
Qed.

(** *** Substitution *)

Lemma sub_loop_ok (repl : rmatch -> result (list N)) (ms : list rmatch) :
  Forall (fun m => exists t, repl m = Ok t) ms ->
  forall last, exists out, sub_loop repl s last ms = Ok out.
Proof.
  induction 1 as [|m ms [t Ht] _ IH]; intros last; cbn [sub_loop]; [eauto|].
  rewrite Ht. cbn [bind]. destruct (IH (m_end m)) as [rest ->]. cbn [bind]. eauto.
Qed.

End Matcher.

(** ** text_normalization.py: numbers in words *)

Lemma three_digit_words_spec (g : Z) :
  g <> 0%Z -> (0 <= g < 1000)%Z -> three_digit_words g = group_spec g.
Proof.
  intros Hg Hr. unfold three_digit_words, group_spec, hundreds_part, tens_part.
  destruct (g / 100 =? 0)%Z eqn:Hh; destruct (g mod 100 =? 0)%Z eqn:Hm;
    cbn [app nonempty concat join].
  - apply Z.eqb_eq in Hh, Hm.
    exfalso. apply Hg. Z.div_mod_to_equations. lia.
  - now rewrite app_nil_r.
  - now rewrite app_nil_r.
  - now rewrite !app_nil_r.
Qed.

Lemma thousands_group (n : Z) :
  (0 <= n)%Z -> (n mod 1000000 / 1000 = (n / 1000) mod 1000)%Z.
Proof. intros Hn. Z.div_mod_to_equations. lia. Qed.

Lemma units_group (n : Z) :
  (0 <= n)%Z -> ((n mod 1000000) mod 1000 = n mod 1000)%Z.
Proof. intros Hn. Z.div_mod_to_equations. lia. Qed.

Lemma int_to_words_us_in_range (n : Z) :
  (0 <= n <= 999999999)%Z -> int_to_words_us n = Ok (int_to_words_spec n).
Proof.
  intros Hn. unfold int_to_words_us, int_to_words_spec.
  replace ((n <? 0) || (999999999 <? n))%Z with false by lia.
  destruct (n =? 0)%Z eqn:H0; [reflexivity|].
  apply Z.eqb_neq in H0.
  rewrite thousands_group, units_group by lia.
  assert (Hm : (0 <= n / 1000000 < 1000)%Z) by (Z.div_mod_to_equations; lia).
  assert (Ht : (0 <= (n / 1000) mod 1000 < 1000)%Z) by (Z.div_mod_to_equations; lia).
  assert (Hu : (0 <= n mod 1000 < 1000)%Z) by (Z.div_mod_to_equations; lia).
  assert (Hsum : (n = 1000000 * (n / 1000000) + 1000 * ((n / 1000) mod 1000)
                      + n mod 1000)%Z) by (Z.div_mod_to_equations; lia).
  unfold scaled_group. f_equal.
  destruct (n / 1000000 =? 0)%Z eqn:Em;
    destruct ((n / 1000) mod 1000 =? 0)%Z eqn:Et;
    destruct (n mod 1000 =? 0)%Z eqn:Eu;
    rewrite ?Z.eqb_eq, ?Z.eqb_neq in Em, Et, Eu;
    try (exfalso; lia);
    cbn [app nonempty negb orb andb concat join];
    rewrite ?three_digit_words_spec by (assumption || lia);
    rewrite ?app_nil_r, <- ?app_assoc; reflexivity.
Qed.

Lemma int_to_words_us_out_of_range (n : Z) :
  ~ (0 <= n <= 999999999)%Z -> int_to_words_us n = Raise ValueError.
Proof.
  intros Hn. unfold int_to_words_us.
  replace ((n <? 0) || (999999999 <? n))%Z with true by lia. reflexivity.
Qed.

(** C7. [int_to_words_us n] returns the words of [n] for every [n] from 0 to
    999,999,999: the groups of three digits, each formatted by its hundreds
    and its last two digits, followed by "million" or "thousand" and joined
    with ", "; "zero" for 0, and "six hundred, fifty seven" for 657. For every
    other integer, and only then, it raises [ValueError]. *)
Theorem int_to_words_us_contract (n : Z) :
  int_to_words_us n
    = (if decide (0 <= n <= 999999999)%Z then Ok (int_to_words_spec n)
       else Raise ValueError)
  /\ (int_to_words_us n = Raise ValueError <-> (n < 0 \/ 999999999 < n)%Z)
  /\ int_to_words_us 0 = Ok (str "zero")
  /\ int_to_words_us 657 = Ok (str "six hundred, fifty seven")
  /\ int_to_words_us 15348 = Ok (str "fifteen thousand, three hundred, forty eight").
Proof.
  split; [|split; [|repeat split; reflexivity]].
  - destruct (decide (0 <= n <= 999999999)%Z) as [Hn|Hn].
    + now apply int_to_words_us_in_range.
    + now apply int_to_words_us_out_of_range.
  - split.
    + intros Hr. destruct (decide (0 <= n <= 999999999)%Z) as [Hn|Hn]; [|lia].
      rewrite int_to_words_us_in_range in Hr by assumption. discriminate.
    + intros Hn. apply int_to_words_us_out_of_range. lia.
Qed.

(** ** multi_voice.py: directives *)

Section Directives.
Context {E : PyEnv}.

Lemma lstrip_by_nonempty p (t : list N) :
  nonempty (lstrip_by p t) = existsb (fun c => negb (p c)) t.
Proof.
  induction t as [|c t IH]; [reflexivity|]. cbn. destruct (p c); [apply IH|reflexivity].
Qed.

Lemma lstrip_by_existsb p q (t : list N) :
  (forall c, q c = true -> p c = false) ->
  existsb q (lstrip_by p t) = existsb q t.
Proof.
  intros Hq. induction t as [|c t IH]; [reflexivity|]. cbn.
  destruct (p c) eqn:Hp; [|reflexivity].
  rewrite IH. destruct (q c) eqn:Hc; [|reflexivity].
  apply Hq in Hc. congruence.
Qed.

Lemma nonempty_rev {A} (l : list A) : nonempty (rev l) = nonempty l.
Proof.
  destruct l as [|a l]; [reflexivity|]. cbn.
  destruct (rev l); reflexivity.
Qed.

Lemma existsb_rev {A} (f : A -> bool) (l : list A) : existsb f (rev l) = existsb f l.
Proof.
  induction l as [|a l IH]; [reflexivity|]. cbn.
  rewrite existsb_app, IH. cbn. destruct (f a), (existsb f l); reflexivity.
Qed.

(** [s.strip()] is truthy exactly when [s] has a character that is not
    whitespace. *)
Lemma strip_nonempty (t : list N) : nonempty (strip t) = has_nonspace t.
Proof.
  unfold strip, rstrip_by, has_nonspace.
  rewrite nonempty_rev, lstrip_by_nonempty, existsb_rev.
  apply lstrip_by_existsb. intros c. now destruct (uc_isspace c).
Qed.

Lemma last_cons_cons {A} (a b : A) (l : list A) : last (a :: b :: l) = last (b :: l).
Proof. reflexivity. Qed.

(** The loop keeps the gaps that have something to say, and ends after the
    last directive, with its voice. *)
Lemma directive_loop_spec (s : list N) (ms : list rmatch) :
  forall segs last_index voice,
    directive_loop s ms segs last_index voice
    = (segs ++ List.filter spoken (gaps s ms last_index voice),
       match last ms with Some m => m_end m | None => last_index end,
       match last ms with Some m => Some (directive_voice s m) | None => voice end).
Proof.
  induction ms as [|m ms IH]; intros segs last_index voice.
  - cbn. now rewrite app_nil_r.
  - cbn [directive_loop gaps List.filter]. rewrite IH.
    unfold spoken at 2. cbn [seg_text]. rewrite strip_nonempty.
    destruct ms as [|m' ms].
    + cbn. destruct (has_nonspace _); now rewrite <- ?app_assoc.
    + rewrite last_cons_cons. destruct (last (m' :: ms)) eqn:Hl.
      * destruct (has_nonspace _); now rewrite <- ?app_assoc.
      * now apply last_None in Hl.
Qed.

Lemma segments_of_matches_spec (s : list N) (ms : list rmatch) :
  let body := List.filter spoken (gaps s ms 0 None) in
  segments_of_matches s ms
  = if (spoken (tail_segment s ms) || negb (nonempty body))%bool
    then body ++ [tail_segment s ms] else body.
Proof.
  cbn zeta. unfold segments_of_matches. rewrite directive_loop_spec. cbn [app].
  rewrite strip_nonempty.
  unfold tail_segment, tail_voice, tail_start, spoken. cbn [seg_text].
  destruct (last ms); reflexivity.
Qed.

Lemma filter_spoken_Forall (l : list segment) :
  Forall (fun seg => spoken seg = true) (List.filter spoken l).
Proof.
  apply List.Forall_forall. intros seg Hin. now apply List.filter_In in Hin.
Qed.

(** C2, as the code has it. The text after the last directive becomes the
    last segment, with the voice of that directive, exactly when it has a
    character that is not whitespace or no segment comes before it; an empty
    or blank tail that follows other segments is dropped. The list returned
    is never empty. *)
Theorem parse_voice_directives_tail (s : list N) :
  let ms := directive_matches s in
  let body := List.filter spoken (gaps s ms 0 None) in
  parse_voice_directives s
    = (if (has_nonspace (slice_from s (tail_start ms)) || negb (nonempty body))%bool
       then body ++ [tail_segment s ms] else body)
  /\ parse_voice_directives s <> [].
Proof.
  cbn zeta. unfold parse_voice_directives.
  rewrite segments_of_matches_spec. cbn zeta.
  split; [reflexivity|].
  destruct (spoken (tail_segment _ _)); cbn [orb].
  - now destruct (List.filter _ _).
  - destruct (List.filter _ _); cbn; discriminate.
Qed.

(** C10. The segments are the gaps between the directives that have a
    character that is not whitespace, in order, followed or not by the tail:
    an empty or blank gap gives no segment, and every segment except possibly
    the last one has something to say. *)
Theorem parse_voice_directives_gaps (s : list N) :
  let ms := directive_matches s in
  let body := List.filter spoken (gaps s ms 0 None) in
  (parse_voice_directives s = body
   \/ parse_voice_directives s = body ++ [tail_segment s ms])
  /\ Forall (fun seg => spoken seg = true) (removelast (parse_voice_directives s)).
Proof.
  cbn zeta. unfold parse_voice_directives.
  rewrite segments_of_matches_spec. cbn zeta.
  destruct (_ || _)%bool.
  - split; [now right|]. rewrite removelast_last. apply filter_spoken_Forall.
  - split; [now left|].
    pose proof (filter_spoken_Forall (gaps s (directive_matches s) 0 None)) as HF.
    rewrite List.Forall_forall in *. intros seg Hin. apply HF.
    clear HF. induction (List.filter _ _) as [|a l IH]; [easy|].
    destruct l as [|b l]; [easy|].
    destruct Hin as [->|Hin]; [now left|right; now apply IH].
Qed.

End Directives.

(** C2, as stated, fails: after [Hello<voice:a>] the tail is empty and is not
    the only segment, yet it is no segment of the result. *)
Lemma parse_voice_directives_drops_empty_tail :
  tail_segment (E := ascii_env) (str "Hello<voice:a>")
      (@directive_matches ascii_env (str "Hello<voice:a>"))
    = Segment (Some (str "a")) []
  /\ @parse_voice_directives ascii_env (str "Hello<voice:a>")
     = [Segment None (str "Hello")]
  /\ last (@parse_voice_directives ascii_env (str "Hello<voice:a>"))
     <> Some (Segment (Some (str "a")) []).
Proof. vm_compute. repeat split; discriminate. Qed.

(** C10 on two directives in a row: the first voice gets no segment. *)
Example directive_followed_by_directive :
  @parse_voice_directives ascii_env (str "<voice:a><voice:b>x")
  = [Segment (Some (str "b")) (str "x")].
Proof. vm_compute. reflexivity. Qed.

(** ** auto_pauses.py: the loops end

    The [while] loops that look for a word or pass over quotes are given as
    many turns as the text has characters; more turns change nothing. *)

Section LoopsEnd.
Context {E : PyEnv}.
Variable s : list N.

Lemma skip_quotes_enough (end_ : nat) :
  forall fuel fuel' pos,
    length s - pos <= fuel -> length s - pos <= fuel' ->
    skip_quotes s end_ fuel pos = skip_quotes s end_ fuel' pos.
Proof.
  induction fuel as [|n IH]; intros fuel' pos H1 H2.
  - destruct fuel' as [|n']; [reflexivity|]. cbn [skip_quotes].
    rewrite (lookup_ge_None_2 s pos) by lia. cbn. now rewrite andb_false_r.
  - destruct fuel' as [|n']; cbn [skip_quotes].
    + rewrite (lookup_ge_None_2 s pos) by lia. cbn. now rewrite andb_false_r.
    + destruct (_ && _)%bool eqn:Hc; [|reflexivity].
      apply andb_true_iff in Hc as [_ Hq].
      destruct (s !! pos) eqn:Hs; [|discriminate]. apply lookup_lt_Some in Hs.
      apply IH; lia.
Qed.

Lemma alpha_run_end_enough :
  forall fuel fuel' end_,
    length s - end_ <= fuel -> length s - end_ <= fuel' ->
    alpha_run_end s fuel end_ = alpha_run_end s fuel' end_.
Proof.
  induction fuel as [|n IH]; intros fuel' end_ H1 H2.
  - destruct fuel' as [|n']; [reflexivity|]. cbn [alpha_run_end].
    now rewrite (lookup_ge_None_2 s end_) by lia.
  - destruct fuel' as [|n']; cbn [alpha_run_end].
    + now rewrite (lookup_ge_None_2 s end_) by lia.
    + destruct (s !! end_) as [c|] eqn:Hs; [|reflexivity]. apply lookup_lt_Some in Hs.
      destruct (uc_isalpha c); [|reflexivity]. apply IH; lia.
Qed.

Lemma next_word_loop_enough (bracket_spans : list (nat * nat)) :
  forall fuel fuel' idx,
    length s - idx <= fuel -> length s - idx <= fuel' ->
    next_word_loop s bracket_spans fuel idx = next_word_loop s bracket_spans fuel' idx.
Proof.
  induction fuel as [|n IH]; intros fuel' idx H1 H2.
  - destruct fuel' as [|n']; [reflexivity|]. cbn [next_word_loop].
    now rewrite (lookup_ge_None_2 s idx) by lia.
  - destruct fuel' as [|n']; cbn [next_word_loop].
    + now rewrite (lookup_ge_None_2 s idx) by lia.
    + destruct (s !! idx) as [c|] eqn:Hs; [|reflexivity]. apply lookup_lt_Some in Hs.
      destruct (List.find _ bracket_spans) as [sp|] eqn:Hf.
      * apply find_some in Hf as [_ Hsp]. apply andb_true_iff in Hsp as [_ Hsp].
        apply Nat.ltb_lt in Hsp. apply IH; lia.
      * destruct (uc_isalpha c); [reflexivity|]. apply IH; lia.
Qed.

End LoopsEnd.

(** ** auto_pauses.py: what is inserted *)

Section Insertions.
Context {E : PyEnv}.

Lemma Qgtb0_true (q : Q) : Qgtb0 q = true -> (0 < q)%Q.
Proof. unfold Qgtb0. now destruct (Qlt_le_dec 0 q). Qed.

Lemma skip_quotes_le (s : list N) (end_ fuel : nat) :
  forall pos, pos <= length s -> skip_quotes s end_ fuel pos <= length s.
Proof.
  induction fuel as [|fuel IH]; intros pos Hpos; cbn [skip_quotes]; [assumption|].
  destruct (_ && _)%bool eqn:Hc; [|assumption].
  apply andb_true_iff in Hc as [_ Hq].
  destruct (s !! pos) as [c|] eqn:Hs; [|discriminate].
  apply lookup_lt_Some in Hs. apply IH. lia.
Qed.

Lemma not_inside_not_strictly_inside (pos : nat) (spans : list (nat * nat)) :
  _inside_spans pos spans = false -> _in_same_bracket_boundary pos spans = false.
Proof.
  unfold _inside_spans, _in_same_bracket_boundary.
  induction spans as [|sp spans IH]; [reflexivity|]. cbn [existsb].
  rewrite !orb_false_iff. intros [H1 H2]. split; [|now apply IH].
  destruct (Nat.ltb_spec (fst sp) pos), (Nat.leb_spec (fst sp) pos),
    (Nat.ltb_spec pos (snd sp)); cbn in *; try reflexivity; try discriminate; lia.
Qed.

Variables (s : list N) (bracket_spans manual_pause_spans : list (nat * nat)).
Variables (sb : style_base) (speed_factor strength : Q) (topup_only : bool).
Variables (min_pause max_pause : Q).

Let inserted :=
  Forall (inserted_by s bracket_spans sb speed_factor strength topup_only
            min_pause max_pause).

Lemma boundary_insertion_inserted end_ idx c b w ins :
  idx < length s -> inserted ins ->
  inserted (boundary_insertion s bracket_spans manual_pause_spans sb speed_factor strength
              topup_only min_pause max_pause end_ idx c b w ins).
Proof.
  intros Hidx Hins. unfold boundary_insertion. cbv zeta.
  destruct (_ || _)%bool eqn:Hbr; [assumption|].
  destruct (_has_manual_pause_near _ _); [assumption|].
  destruct (_ && _)%bool eqn:Hc; [|assumption].
  apply andb_true_iff in Hc as [Hpos _]. apply orb_false_iff in Hbr as [_ Hbr].
  apply Forall_app. split; [assumption|]. constructor; [|constructor].
  eexists b, (Some c), w, _. cbn [fst snd].
  split; [reflexivity|]. split; [now apply Qgtb0_true|].
  split; [apply skip_quotes_le; lia|exact Hbr].
Qed.

Lemma scan_step_inserted start end_ dashes idx st :
  inserted (insertions st) ->
  inserted (insertions (scan_step s bracket_spans manual_pause_spans sb speed_factor
                          strength topup_only min_pause max_pause start end_ dashes idx st)).
Proof.
  intros Hst. unfold scan_step.
  destruct (s !! idx) as [c|] eqn:Hc; [|assumption].
  apply lookup_lt_Some in Hc.
  destruct (_inside_spans idx bracket_spans); [assumption|].
  destruct (classify s start end_ dashes idx c) as [[[b|] ns]|]; cbn [insertions];
    try assumption.
  now apply boundary_insertion_inserted.
Qed.

Lemma scan_loop_inserted start end_ dashes n :
  forall idx st,
    inserted (insertions st) ->
    inserted (insertions (scan_loop s bracket_spans manual_pause_spans sb speed_factor
                            strength topup_only min_pause max_pause start end_ dashes n
                            idx st)).
Proof.
  induction n as [|n IH]; intros idx st Hst; [assumption|].
  cbn [scan_loop]. apply IH. now apply scan_step_inserted.
Qed.

Lemma paragraph_insertion_inserted boundary_pos :
  boundary_pos <= length s ->
  inserted (paragraph_insertion s bracket_spans manual_pause_spans sb speed_factor strength
              topup_only min_pause max_pause boundary_pos).
Proof.
  intros Hpos. unfold paragraph_insertion. cbv zeta.
  destruct (_ && _)%bool eqn:Hc; [|constructor].
  apply andb_true_iff in Hc as [Hc _]. apply negb_true_iff in Hc.
  destruct (Qgtb0 _) eqn:Hd; [|constructor].
  constructor; [|constructor]. eexists paragraph, None, None, _. cbn [fst snd].
  split; [reflexivity|]. split; [now apply Qgtb0_true|].
  split; [assumption|now apply not_inside_not_strictly_inside].
Qed.

Lemma paragraph_loop_inserted para_matches :
  Forall (span_in_text s) para_matches ->
  forall para_start,
    inserted (paragraph_loop s bracket_spans manual_pause_spans sb speed_factor strength
                topup_only min_pause max_pause para_matches para_start).
Proof.
  induction 1 as [|m ms Hm _ IH]; intros para_start; cbn [paragraph_loop];
    unfold _collect_boundaries_for_segment.
  - apply scan_loop_inserted. constructor.
  - apply Forall_app. split; [apply scan_loop_inserted; constructor|].
    apply Forall_app. split; [|apply IH].
    apply paragraph_insertion_inserted. unfold span_in_text in Hm. lia.
Qed.

End Insertions.

(** Every insertion that [insert_auto_pauses] collects is of this kind. *)
Lemma collect_insertions_inserted {E : PyEnv} (s style : list N) (speed_factor strength : Q)
    (topup_only : bool) (min_pause max_pause : Q) :
  Forall (inserted_by s (_find_spans BRACKET_TOKEN_PATTERN s) (_get_style_base style)
            speed_factor strength topup_only min_pause max_pause)
    (collect_insertions s style speed_factor strength topup_only min_pause max_pause).
Proof.
  unfold collect_insertions. cbv zeta. apply paragraph_loop_inserted, finditer_spans.
Qed.

(** ** auto_pauses.py: the durations *)

Section Durations.
Context {E : PyEnv}.

Lemma _clamp_bounds (value lo hi : Q) :
  (lo <= hi)%Q -> (lo <= _clamp value lo hi <= hi)%Q.
Proof.
  intros Hle. unfold _clamp, py_max, py_min.
  destruct (Qlt_le_dec value hi); destruct (Qlt_le_dec lo _); lra.
Qed.

(** The last two steps of [_compute_pause_seconds]: the clamp, then the
    factor of [topup_only]. *)
Lemma _compute_pause_seconds_clamped b pc sb speed strength topup lo hi w nw :
  (lo <= hi)%Q ->
  exists v : Q,
    (lo <= v <= hi)%Q
    /\ _compute_pause_seconds b pc sb speed strength topup lo hi w nw
       = if conservative topup b then (v * 0.65)%Q else v.
Proof.
  intros Hle. unfold _compute_pause_seconds, conservative. cbv zeta.
  eexists. split; [apply _clamp_bounds, Hle|reflexivity].
Qed.

Lemma inserted_tag_in_bounds s spans sb speed strength topup lo hi x :
  (lo <= hi)%Q ->
  inserted_by s spans sb speed strength topup lo hi x -> tag_in_bounds topup lo hi x.
Proof.
  intros Hle (b & pc & w & nw & Htag & Hpos & _).
  destruct (_compute_pause_seconds_clamped b pc sb speed strength topup lo hi w nw Hle)
    as (v & Hv & Heq).
  exists (_compute_pause_seconds b pc sb speed strength topup lo hi w nw), v.
  split; [exact Htag|]. split; [exact Hpos|]. split; [exact Hv|].
  rewrite Heq. unfold conservative.
  destruct topup; cbn [andb]; [|now left].
  destruct (negb _); [right; now split|now left].
Qed.

(** C1, as the code has it. With [min_pause <= max_pause], the duration of a
    boundary is a value of the interval from [min_pause] to [max_pause],
    multiplied by 0.65 when [topup_only] is set and the boundary is not a
    paragraph break; so every tag that [insert_auto_pauses] inserts renders
    (to three decimals) a duration of the interval when [topup_only] is off,
    and such a value or 0.65 times such a value when it is on. *)
Theorem inserted_durations_clamped (s style : list N) (speed_factor strength : Q)
    (topup_only : bool) (min_pause max_pause : Q) :
  (min_pause <= max_pause)%Q ->
  (forall b pc sb w nw, exists v : Q,
      (min_pause <= v <= max_pause)%Q
      /\ _compute_pause_seconds b pc sb speed_factor strength topup_only
           min_pause max_pause w nw
         = if conservative topup_only b then (v * 0.65)%Q else v)
  /\ Forall (tag_in_bounds topup_only min_pause max_pause)
       (collect_insertions s style speed_factor strength topup_only min_pause max_pause)
  /\ (topup_only = false ->
      Forall (fun ins => exists d : Q,
                  snd ins = _format_pause d /\ (min_pause <= d <= max_pause)%Q)
        (collect_insertions s style speed_factor strength topup_only min_pause max_pause)).
Proof.
  intros Hle.
  assert (HF : Forall (tag_in_bounds topup_only min_pause max_pause)
                 (collect_insertions s style speed_factor strength topup_only
                    min_pause max_pause))
    by (eapply Forall_impl; [apply collect_insertions_inserted|];
        intros x; now apply inserted_tag_in_bounds).
  split; [|split; [exact HF|]].
  - intros b pc sb w nw. now apply _compute_pause_seconds_clamped.
  - intros Hoff. eapply Forall_impl; [exact HF|].
    intros ins (d & v & Htag & _ & Hv & [->|[Hon _]]); [|congruence].
    now exists v.
Qed.

End Durations.

(** C1, as stated, fails when [topup_only] is set: with the defaults of
    [insert_auto_pauses], style "ad" and [speed_factor] 2, the comma of
    [a, b] gets 0.035 seconds, clamped to [min_pause = 0.04] and then scaled
    to 0.026, below [min_pause]. *)
Lemma topup_pause_below_min_pause :
  @insert_auto_pauses ascii_env (str "a, b") (str "ad") 2 1 true 0.04 1.8
    = str "a,[pause:0.026s] b"
  /\ @collect_insertions ascii_env (str "a, b") (str "ad") 2 1 true 0.04 1.8
     = [(2, _format_pause 0.026)]
  /\ ~ (0.04 <= 0.026 <= 1.8)%Q.
Proof.
  split; [vm_compute; reflexivity|]. split; [vm_compute; reflexivity|]. lra.
Qed.

(** C1 on the same run: the tag comes from the value 0.04 of the interval,
    times 0.65. *)
Lemma inserted_durations_clamped_witness :
  (0.04 <= 1.8)%Q
  /\ Forall (tag_in_bounds true 0.04 1.8)
       (@collect_insertions ascii_env (str "a, b") (str "ad") 2 1 true 0.04 1.8).
Proof.
  split; [lra|].
  apply (@inserted_durations_clamped ascii_env (str "a, b") (str "ad") 2 1 true 0.04 1.8).
  lra.
Defined.

(** ** auto_pauses.py: the speed factor *)

Section Speed.
Context {E : PyEnv}.

Lemma _clamp_not_clamped (value lo hi : Q) :
  not_clamped lo hi value -> (_clamp value lo hi == value)%Q.
Proof.
  unfold not_clamped, _clamp, py_max, py_min. intros [Hlo Hhi].
  destruct (Qlt_le_dec value hi); destruct (Qlt_le_dec lo _); lra.
Qed.

(** The duration before the clamp: the base divided by the speed (at least
    0.2) and multiplied by the strength, plus the additive terms. *)
Lemma unclamped_pause_split b pc sb speed strength w nw :
  (unclamped_pause b pc sb speed strength w nw
   == base_of sb b / py_max speed 0.2 * strength + additive_terms b pc sb w nw)%Q.
Proof.
  unfold unclamped_pause, additive_terms. cbv zeta.
  destruct (nonempty nw); cbn [andb];
    destruct b, w; try destruct (opt_test _ pc);
    try destruct (existsb _ _); ring.
Qed.

Lemma py_max_floor (speed : Q) : (0.2 <= speed)%Q -> py_max speed 0.2 = speed.
Proof. intros H. unfold py_max. destruct (Qlt_le_dec speed 0.2); [lra|reflexivity]. Qed.

Lemma unclamped_pause_doubled b pc sb speed strength w nw :
  (0.2 <= speed)%Q ->
  (unclamped_pause b pc sb (2 * speed) strength w nw
   == unclamped_pause b pc sb speed strength w nw / 2 + additive_terms b pc sb w nw / 2)%Q.
Proof.
  intros Hs. rewrite !unclamped_pause_split, !py_max_floor by lra.
  field. lra.
Qed.

(** C3, as the code has it. For a speed factor of at least 0.2 and a boundary
    whose duration is clamped neither at the speed factor nor at its double,
    doubling the speed factor halves the part of the duration that comes from
    the base pause, and leaves the additive terms (long sentence, question
    mark, discourse marker) as they are; so it halves the duration exactly
    when the boundary has no additive term. *)
Theorem doubling_speed_halves_base b pc sb speed strength topup lo hi w nw :
  (0.2 <= speed)%Q ->
  not_clamped lo hi (unclamped_pause b pc sb speed strength w nw) ->
  not_clamped lo hi (unclamped_pause b pc sb (2 * speed) strength w nw) ->
  let k := (if conservative topup b then 0.65 else 1)%Q in
  (_compute_pause_seconds b pc sb (2 * speed) strength topup lo hi w nw
   == _compute_pause_seconds b pc sb speed strength topup lo hi w nw / 2
      + k * additive_terms b pc sb w nw / 2)%Q
  /\ ((additive_terms b pc sb w nw == 0)%Q ->
      (_compute_pause_seconds b pc sb (2 * speed) strength topup lo hi w nw
       == _compute_pause_seconds b pc sb speed strength topup lo hi w nw / 2)%Q).
Proof.
  intros Hs H1 H2 k.
  assert (Hmain :
    (_compute_pause_seconds b pc sb (2 * speed) strength topup lo hi w nw
     == _compute_pause_seconds b pc sb speed strength topup lo hi w nw / 2
        + k * additive_terms b pc sb w nw / 2)%Q).
  { unfold _compute_pause_seconds. cbv zeta. subst k. unfold conservative.
    destruct (_ && _)%bool;
      rewrite (_clamp_not_clamped _ _ _ H1), (_clamp_not_clamped _ _ _ H2),
        (unclamped_pause_doubled b pc sb speed strength w nw Hs);
      field. }
  split; [exact Hmain|].
  intros H0. rewrite Hmain, H0. field.
Qed.

End Speed.

(** C3, as stated, fails: the bonus of a question mark is not divided by the
    speed. [Why?] gets 0.62 seconds at speed 1 and 0.345 at speed 2, neither
    of them clamped by 0.04 and 1.8. *)
Lemma question_pause_not_halved :
  @insert_auto_pauses ascii_env (str "Why?") (str "audiobook") 1 1 false 0.04 1.8
    = str "Why?[pause:0.62s]"
  /\ @insert_auto_pauses ascii_env (str "Why?") (str "audiobook") 2 1 false 0.04 1.8
     = str "Why?[pause:0.345s]"
  /\ (@_compute_pause_seconds ascii_env sentence_end (Some (chr "?")) (Shared audiobook)
        1 1 false 0.04 1.8 (Some 1%Z) [] == 0.62)%Q
  /\ (@_compute_pause_seconds ascii_env sentence_end (Some (chr "?")) (Shared audiobook)
        2 1 false 0.04 1.8 (Some 1%Z) [] == 0.345)%Q
  /\ ~ (0.345 == 0.62 / 2)%Q.
Proof.
  split; [vm_compute; reflexivity|]. split; [vm_compute; reflexivity|].
  split; [vm_compute; reflexivity|]. split; [vm_compute; reflexivity|].
  vm_compute. discriminate.
Qed.

(** C3 on a comma, which has no additive term: 0.08 seconds at speed 2, half
    of the 0.16 at speed 1. *)
Lemma doubling_speed_halves_base_witness :
  (@_compute_pause_seconds ascii_env comma (Some (chr ",")) (Shared audiobook)
     (2 * 1) 1 false 0.04 1.8 None (str "b")
   == @_compute_pause_seconds ascii_env comma (Some (chr ",")) (Shared audiobook)
        1 1 false 0.04 1.8 None (str "b") / 2)%Q.
Proof.
  apply (@doubling_speed_halves_base ascii_env comma (Some (chr ",")) (Shared audiobook)
           1 1 false 0.04 1.8 None (str "b")).
  - vm_compute. discriminate.
  - split; vm_compute; discriminate.
  - split; vm_compute; discriminate.
  - vm_compute. reflexivity.
Defined.

(** ** The bracket spans of the four components *)

Section BracketSpans.
Context {E : PyEnv}.

Lemma run_length_app_stop (p : N -> bool) (l rest : list N) :
  forallb p l = true ->
  match rest with c :: _ => p c = false | [] => True end ->
  run_length p (l ++ rest) = length l.
Proof.
  intros Hl Hrest. induction l as [|a l IH]; cbn.
  - destruct rest as [|c rest]; [reflexivity|]. cbn. now rewrite Hrest.
  - cbn in Hl. apply andb_true_iff in Hl as [-> Hl]. now rewrite IH.
Qed.

Lemma length_render_piece (pc : piece) : 0 < length (render_piece pc).
Proof. destruct pc; cbn; lia. Qed.

Lemma length_render (ps : list piece) : length ps <= length (render ps).
Proof.
  induction ps as [|pc ps IH]; [reflexivity|]. cbn [render length].
  rewrite length_app. pose proof (length_render_piece pc). lia.
Qed.

Lemma not_bracket_not_close (body : list N) :
  forallb not_bracket body = true -> forallb not_close body = true.
Proof.
  rewrite !forallb_forall. intros H c Hc. apply H in Hc.
  unfold not_bracket, is_bracket, not_close in *.
  now destruct (ch_eqb (chr "[") c), (ch_eqb (chr "]") c).
Qed.

(** *** The depth tracker on flat text *)

Lemma br_loop_body (body : list N) :
  forallb not_bracket body = true ->
  forall st idx rest,
    br_loop st idx (body ++ rest) = br_loop st (idx + length body) rest.
Proof.
  induction body as [|c body IH]; intros Hb st idx rest.
  - cbn. now rewrite Nat.add_0_r.
  - cbn in Hb. apply andb_true_iff in Hb as [Hc Hb].
    cbn [app br_loop length]. rewrite (IH Hb).
    replace (S idx + length body) with (idx + S (length body)) by lia.
    f_equal. unfold br_step.
    unfold not_bracket, is_bracket in Hc. rewrite negb_true_iff, orb_false_iff in Hc.
    destruct Hc as [Ho Hc].
    replace (ch_eqb c (chr "[")) with false by (unfold ch_eqb in *; now rewrite N.eqb_sym).
    replace (ch_eqb c (chr "]")) with false by (unfold ch_eqb in *; now rewrite N.eqb_sym).
    reflexivity.
Qed.

Lemma br_loop_flat (ps : list piece) :
  flat_ok ps = true ->
  forall acc idx,
    br_loop (BrState acc None 0) idx (render ps)
    = BrState (acc ++ piece_spans idx ps) None 0.
Proof.
  induction ps as [|pc ps IH]; intros Hok acc idx.
  - cbn. now rewrite app_nil_r.
  - cbn in Hok. apply andb_true_iff in Hok as [Hpc Hok].
    destruct pc as [c|body]; cbn [render render_piece piece_spans].
    + cbn [app br_loop]. rewrite <- (IH Hok). f_equal.
      unfold br_step. cbn in Hpc. unfold is_open in Hpc.
      replace (ch_eqb c (chr "[")) with false
        by (unfold ch_eqb in *; rewrite N.eqb_sym; now destruct (_ =? _)%N).
      cbn. now rewrite andb_false_r.
    + cbn in Hpc. apply andb_true_iff in Hpc as [_ Hb].
      cbn [app br_loop]. rewrite <- !app_assoc. rewrite (br_loop_body body Hb).
      cbn [app br_loop]. unfold br_step at 2. cbn [br_depth br_start br_ranges].
      replace (ch_eqb (chr "[") (chr "[")) with true by reflexivity.
      cbn [Nat.eqb Nat.add]. unfold br_step.
      replace (ch_eqb (chr "]") (chr "[")) with false by reflexivity.
      replace (ch_eqb (chr "]") (chr "]")) with true by reflexivity.
      cbn [br_depth br_start br_ranges andb Nat.ltb Nat.leb Nat.sub Nat.eqb].
      rewrite IH by assumption. rewrite <- app_assoc. cbn [app].
      replace (S (idx + length body) + 1) with (idx + length body + 2) by lia.
      replace (S (S (idx + length body))) with (idx + length body + 2) by lia.
      reflexivity.
Qed.

(** *** [finditer] on flat text *)

Lemma finditer_from_flat (r : regex) :
  (forall pre ps ma, flat_ok ps = true ->
     match_at r (pre ++ render ps) (length pre) ma = token_match (length pre) ps) ->
  forall ps pre fuel ma,
    flat_ok ps = true -> length ps + 1 < fuel ->
    spans_of (finditer_from r (pre ++ render ps) fuel (length pre) ma)
    = piece_spans (length pre) ps.
Proof.
  intros Hr. induction ps as [|pc ps IH]; intros pre fuel ma Hok Hfuel;
    (destruct fuel as [|fuel]; [lia|]); cbn [finditer_from].
  - rewrite (Hr pre [] ma Hok). cbn [render token_match piece_spans].
    rewrite app_nil_r, Nat.ltb_irrefl.
    destruct fuel as [|fuel]; [reflexivity|]. cbn [finditer_from].
    replace (length pre <? S (length pre)) with true
      by (symmetry; apply Nat.ltb_lt; lia). reflexivity.
  - rewrite (Hr pre (pc :: ps) ma Hok).
    replace (length (pre ++ render (pc :: ps)) <? length pre) with false
      by (symmetry; apply Nat.ltb_ge; rewrite length_app; lia).
    cbn in Hok. apply andb_true_iff in Hok as [Hpc Hok]. cbn [length] in Hfuel.
    destruct pc as [c|body]; cbn [token_match piece_spans render render_piece].
    + replace (pre ++ [c] ++ render ps) with ((pre ++ [c]) ++ render ps)
        by now rewrite <- app_assoc.
      replace (S (length pre)) with (length (pre ++ [c]))
        by (rewrite length_app; cbn; lia).
      apply IH; [assumption|lia].
    + cbn [m_end spans_of map m_start].
      replace (length pre + length body + 2 =? length pre) with false
        by (symmetry; apply Nat.eqb_neq; lia).
      f_equal.
      replace (pre ++ (chr "[" :: body ++ [chr "]"]) ++ render ps)
        with ((pre ++ chr "[" :: body ++ [chr "]"]) ++ render ps)
        by now rewrite <- app_assoc.
      replace (length pre + length body + 2)
        with (length (pre ++ chr "[" :: body ++ [chr "]"]))
        by (rewrite !length_app; cbn [length]; rewrite length_app; cbn; lia).
      apply IH; [assumption|lia].
Qed.

Lemma lookup_after (pre rest : list N) (k : nat) :
  (pre ++ rest) !! (length pre + k) = rest !! k.
Proof. rewrite lookup_app_r by lia. f_equal. lia. Qed.

Lemma lookup_at (pre rest : list N) : (pre ++ rest) !! length pre = rest !! 0.
Proof. rewrite <- (lookup_after pre rest 0). f_equal. lia. Qed.

Lemma run_after (p : N -> bool) (pre rest : list N) (k : nat) :
  run (pre ++ rest) p (length pre + k) = run_length p (drop k rest).
Proof. unfold run. now rewrite drop_app_add. Qed.

Lemma lookup_token_close (pre body rest : list N) (k : nat) :
  k = length pre + S (length body) ->
  (pre ++ chr "[" :: body ++ [chr "]"] ++ rest) !! k = Some (chr "]").
Proof.
  intros ->.
  replace (pre ++ chr "[" :: body ++ [chr "]"] ++ rest)
    with ((pre ++ chr "[" :: body) ++ chr "]" :: rest)
    by (rewrite <- app_assoc; reflexivity).
  apply list_lookup_middle. rewrite length_app. cbn. lia.
Qed.

Lemma match_at_protected_flat (pre : list N) (ps : list piece) (ma : bool) :
  flat_ok ps = true ->
  match_at protected_span_re (pre ++ render ps) (length pre) ma
  = token_match (length pre) ps.
Proof.
  intros Hok. rewrite match_at_protected. unfold protected_end.
  rewrite lookup_at.
  destruct ps as [|[c|body] ps]; cbn [render render_piece token_match app].
  - reflexivity.
  - cbn in Hok. apply andb_true_iff in Hok as [Hc _].
    cbn [lookup list_lookup opt_test]. apply negb_true_iff in Hc. now rewrite Hc.
  - cbn in Hok. apply andb_true_iff in Hok as [Hb _].
    apply andb_true_iff in Hb as [_ Hb].
    cbn [lookup list_lookup opt_test]. replace (is_open (chr "[")) with true by reflexivity.
    cbn [andb].
    replace (S (length pre)) with (length pre + 1) by lia.
    rewrite run_after. cbn [drop]. rewrite ?drop_0, <- ?app_assoc.
    rewrite run_length_app_stop by (auto using not_bracket_not_close; reflexivity).
    rewrite lookup_token_close by lia. cbn [opt_test].
    replace (is_close (chr "]")) with true by reflexivity.
    cbn [fmap option_fmap option_map]. repeat f_equal. lia.
Qed.

Lemma match_at_token_flat (pre : list N) (ps : list piece) (ma : bool) :
  flat_ok ps = true ->
  match_at BRACKET_TOKEN_PATTERN (pre ++ render ps) (length pre) ma
  = token_match (length pre) ps.
Proof.
  intros Hok. rewrite match_at_token. unfold token_end.
  rewrite lookup_at.
  destruct ps as [|[c|body] ps]; cbn [render render_piece token_match app].
  - reflexivity.
  - cbn in Hok. apply andb_true_iff in Hok as [Hc _].
    cbn [lookup list_lookup opt_test]. apply negb_true_iff in Hc. now rewrite Hc.
  - cbn in Hok. apply andb_true_iff in Hok as [Hb _].
    apply andb_true_iff in Hb as [Hne Hb].
    destruct body as [|c body]; [discriminate|]. cbn in Hb.
    apply andb_true_iff in Hb as [Hc Hb].
    cbn [lookup list_lookup opt_test]. replace (is_open (chr "[")) with true by reflexivity.
    cbn [andb].
    replace (S (length pre)) with (length pre + 1) by lia.
    rewrite lookup_after. cbn [app lookup list_lookup opt_test]. rewrite Hc. cbn [andb].
    replace (S (length pre + 1)) with (length pre + 2) by lia.
    rewrite run_after. cbn [drop]. rewrite ?drop_0, <- ?app_assoc.
    rewrite run_length_app_stop
      by (try assumption; cbn; unfold not_bracket, is_bracket;
          replace (ch_eqb (chr "]") (chr "]")) with true by reflexivity;
          now rewrite orb_true_r).
    change (pre ++ chr "[" :: c :: body ++ [chr "]"] ++ render ps)
      with (pre ++ chr "[" :: (c :: body) ++ [chr "]"] ++ render ps).
    rewrite (lookup_token_close pre (c :: body)) by (cbn [length]; lia). cbn [opt_test].
    replace (is_close (chr "]")) with true by reflexivity.
    cbn [fmap option_fmap option_map length]. repeat f_equal. lia.
Qed.

Lemma finditer_flat (r : regex) (ps : list piece) :
  (forall pre ps ma, flat_ok ps = true ->
     match_at r (pre ++ render ps) (length pre) ma = token_match (length pre) ps) ->
  flat_ok ps = true ->
  spans_of (finditer r (render ps)) = piece_spans 0 ps.
Proof.
  intros Hr Hok. unfold finditer.
  apply (finditer_from_flat r Hr ps [] _ false Hok).
  pose proof (length_render ps). lia.
Qed.

(** C5, as the code has it. On a text whose brackets are flat (no bracket
    inside a bracket pair, no empty pair) the four components protect the
    same spans, those that the depth tracking of the voice segmenter finds:
    the tokens of the text. *)
Theorem bracket_spans_agree_on_flat_text (ps : list piece) :
  flat_ok ps = true ->
  _find_bracket_ranges (render ps) = piece_spans 0 ps
  /\ _find_protected_spans (render ps) = piece_spans 0 ps
  /\ _find_bracket_spans (render ps) = piece_spans 0 ps
  /\ _find_spans BRACKET_TOKEN_PATTERN (render ps) = piece_spans 0 ps.
Proof.
  intros Hok. split; [|split; [|split]].
  - unfold _find_bracket_ranges. now rewrite br_loop_flat.
  - apply finditer_flat; [apply match_at_protected_flat|assumption].
  - apply finditer_flat; [apply match_at_protected_flat|assumption].
  - apply finditer_flat; [apply match_at_token_flat|assumption].
Qed.

End BracketSpans.

(** C5, as stated, fails on nested brackets: in [[a[b]c]] the depth tracking
    of the voice segmenter finds the whole text, the currency normalizer and
    the pronunciation substituter stop at the first closing bracket, and the
    auto-pause annotator finds the inner token only. *)
Lemma nested_brackets_disagree :
  _find_bracket_ranges (str "[a[b]c]") = [(0, 7)]
  /\ _find_protected_spans (str "[a[b]c]") = [(0, 5)]
  /\ _find_bracket_spans (str "[a[b]c]") = [(0, 5)]
  /\ _find_spans BRACKET_TOKEN_PATTERN (str "[a[b]c]") = [(2, 5)].
Proof. vm_compute. repeat split. Qed.

(** C5 on a flat text with two tokens and a stray closing bracket. *)
Lemma bracket_spans_agree_on_flat_text_witness :
  render [Plain (chr "a"); Token (str "laugh"); Plain (chr "]"); Token (str "0.5s")]
    = str "a[laugh]][0.5s]"
  /\ _find_spans BRACKET_TOKEN_PATTERN (str "a[laugh]][0.5s]")
     = [(1, 8); (9, 15)].
Proof.
  split; [reflexivity|].
  apply (bracket_spans_agree_on_flat_text
           [Plain (chr "a"); Token (str "laugh"); Plain (chr "]"); Token (str "0.5s")]).
  reflexivity.
Defined.

(** ** auto_pauses.py: the text is kept *)

Section Splicing.

Lemma spliced_pos_ge i t ins out :
  spliced i t ins out -> Forall (fun x => i <= fst x) ins.
Proof.
  induction 1 as [i t|i c t ins out _ IH|i t tag ins out _ IH].
  - constructor.
  - eapply Forall_impl; [exact IH|]. cbn. lia.
  - constructor; [cbn; lia|exact IH].
Qed.

Lemma tags_before_none (ins : list (nat * list N)) (a : nat) :
  Forall (fun x => a < fst x) ins -> tags_before ins a = 0.
Proof.
  induction 1 as [|x ins Hx _ IH]; [reflexivity|]. cbn [tags_before].
  replace (fst x <=? a) with false by (symmetry; apply Nat.leb_gt; lia). exact IH.
Qed.

Lemma tags_before_mono (ins : list (nat * list N)) (a a' : nat) :
  a <= a' -> tags_before ins a <= tags_before ins a'.
Proof.
  intros Ha. induction ins as [|x ins IH]; [reflexivity|]. cbn [tags_before].
  destruct (Nat.leb_spec (fst x) a), (Nat.leb_spec (fst x) a'); lia.
Qed.

(** A stretch of the text into which no tag is inserted is found again in
    the result, shifted by the tags that precede it. *)
Lemma spliced_slice i t ins out :
  spliced i t ins out ->
  forall a b,
    i <= a -> a <= b -> b <= i + length t ->
    Forall (fun x => ~ (a < fst x < b)) ins ->
    take (b - a) (drop (a - i + tags_before ins a) out) = take (b - a) (drop (a - i) t).
Proof.
  induction 1 as [i t|i c t ins out Hsp IH|i t tag ins out Hsp IH];
    intros a b Hia Hab Hb Hins.
  - cbn. now rewrite Nat.add_0_r.
  - apply spliced_pos_ge in Hsp as Hge. cbn [length] in Hb.
    destruct (decide (a = i)) as [->|Hne].
    + rewrite tags_before_none
        by (eapply Forall_impl; [exact Hge|]; cbn; lia).
      rewrite Nat.sub_diag. cbn [Nat.add drop].
      destruct (decide (b = i)) as [->|Hbi]; [now rewrite Nat.sub_diag|].
      replace (b - i) with (S (b - S i)) by lia. cbn [take]. f_equal.
      destruct (decide (b = S i)) as [->|Hbs]; [now rewrite Nat.sub_diag|].
      specialize (IH (S i) b). rewrite Nat.sub_diag in IH. cbn [Nat.add drop] in IH.
      rewrite tags_before_none in IH.
      * cbn [drop] in IH. apply IH; try lia.
        eapply Forall_impl; [exact Hins|]. cbn. lia.
      * rewrite Forall_forall in *. intros x Hx.
        specialize (Hge x Hx). specialize (Hins x Hx). cbn in *. lia.
    + replace (a - i) with (S (a - S i)) by lia. cbn [Nat.add drop].
      apply IH; try lia. exact Hins.
  - apply Forall_cons_1 in Hins as [_ Hins]. cbn [tags_before fst snd].
    replace (i <=? a) with true by (symmetry; apply Nat.leb_le; lia).
    replace (a - i + (length tag + tags_before ins a))
      with (length tag + (a - i + tags_before ins a)) by lia.
    rewrite drop_app_add. now apply IH.
Qed.

Lemma spliced_skip (k : nat) :
  forall i t ins out,
    k <= length t ->
    spliced (i + k) (drop k t) ins out -> spliced i t ins (take k t ++ out).
Proof.
  induction k as [|k IH]; intros i t ins out Hk Hsp.
  - cbn. now rewrite Nat.add_0_r in Hsp.
  - destruct t as [|c t]; [cbn in Hk; lia|]. cbn [take drop app] in *.
    constructor. apply IH; [cbn in Hk; lia|].
    now replace (S i + k) with (i + S k) by lia.
Qed.

Lemma insert_by_pos_nondecreasing x l lo :
  lo <= fst x -> nondecreasing_from lo l -> nondecreasing_from lo (insert_by_pos x l).
Proof.
  revert lo. induction l as [|y l IH]; intros lo Hx Hl; cbn.
  - auto.
  - destruct (fst x <=? fst y) eqn:Hxy.
    + apply Nat.leb_le in Hxy. cbn in *. destruct Hl. auto.
    + apply Nat.leb_gt in Hxy. cbn in *. destruct Hl as [Hy Hl].
      split; [assumption|]. apply IH; [lia|assumption].
Qed.

Lemma sorted_by_pos_nondecreasing (l : list (nat * list N)) :
  nondecreasing_from 0 (sorted_by_pos l).
Proof.
  induction l as [|x l IH]; cbn; [exact I|].
  apply insert_by_pos_nondecreasing; [lia|exact IH].
Qed.

Lemma insert_by_pos_Forall (P : nat * list N -> Prop) x l :
  P x -> Forall P l -> Forall P (insert_by_pos x l).
Proof.
  intros Hx. induction 1 as [|y l Hy Hl IH]; cbn.
  - now constructor.
  - destruct (fst x <=? fst y); repeat constructor; assumption.
Qed.

Lemma sorted_by_pos_Forall (P : nat * list N -> Prop) (l : list (nat * list N)) :
  Forall P l -> Forall P (sorted_by_pos l).
Proof.
  induction 1 as [|x l Hx Hl IH]; cbn; [constructor|].
  now apply insert_by_pos_Forall.
Qed.

(** The splicing loop, on insertions in order and inside the text. *)
Lemma splice_loop_spliced (s : list N) (ins : list (nat * list N)) :
  forall last_idx,
    nondecreasing_from last_idx ins ->
    Forall (fun x => fst x <= length s) ins ->
    spliced last_idx (drop last_idx s) ins (splice_loop s last_idx ins).
Proof.
  induction ins as [|[pos tag] ins IH]; intros last_idx Hnd Hlen; cbn [splice_loop].
  - constructor.
  - cbn in Hnd. destruct Hnd as [Hlo Hnd].
    apply Forall_cons_1 in Hlen as [Hpos Hlen]. cbn in Hpos.
    replace (pos <? last_idx) with false by (symmetry; apply Nat.ltb_ge; lia).
    unfold slice.
    apply spliced_skip; [rewrite length_drop; lia|].
    rewrite drop_drop. replace (last_idx + (pos - last_idx)) with pos by lia.
    constructor. now apply IH.
Qed.

End Splicing.

Section Tokens.
Context {E : PyEnv}.

Lemma not_bracket_not_open (c : N) : not_bracket c = true -> is_open c = false.
Proof.
  unfold not_bracket, is_bracket, is_open. now destruct (ch_eqb (chr "[") c).
Qed.

Lemma is_close_not_open (c : N) : is_close c = true -> is_open c = false.
Proof.
  unfold is_close, is_open, ch_eqb. intros Hc. apply N.eqb_eq in Hc. now subst c.
Qed.

Lemma opt_test_excludes (p q : N -> bool) (o : option N) :
  (forall c, p c = true -> q c = false) -> opt_test p o = true -> opt_test q o = false.
Proof. intros Hpq. destruct o as [c|]; cbn; auto. Qed.

Lemma token_end_at (pre body rest : list N) :
  nonempty body = true -> forallb not_bracket body = true ->
  token_end (pre ++ chr "[" :: body ++ [chr "]"] ++ rest) (length pre)
  = Some (length pre + length body + 2).
Proof.
  intros Hne Hb. unfold token_end. rewrite lookup_at.
  destruct body as [|c body]; [discriminate|]. cbn in Hb.
  apply andb_true_iff in Hb as [Hc Hb].
  replace ((chr "[" :: (c :: body) ++ [chr "]"] ++ rest) !! 0) with (Some (chr "["))
    by reflexivity.
  cbn [opt_test]. replace (is_open (chr "[")) with true by reflexivity. cbn [andb].
  replace (S (length pre)) with (length pre + 1) by lia.
  rewrite lookup_after.
  replace ((chr "[" :: (c :: body) ++ [chr "]"] ++ rest) !! 1) with (Some c) by reflexivity.
  cbn [opt_test]. rewrite Hc. cbn [andb].
  replace (S (length pre + 1)) with (length pre + 2) by lia.
  rewrite run_after.
  replace (drop 2 (chr "[" :: (c :: body) ++ [chr "]"] ++ rest))
    with (body ++ chr "]" :: rest) by reflexivity.
  rewrite run_length_app_stop by (try assumption; reflexivity).
  rewrite (lookup_token_close pre (c :: body)) by (cbn [length]; lia). cbn [opt_test].
  replace (is_close (chr "]")) with true by reflexivity.
  cbn [length]. f_equal. lia.
Qed.

Lemma token_end_no_open_inside (s : list N) (i e : nat) :
  token_end s i = Some e ->
  i < e /\ forall a, i < a < e -> opt_test is_open (s !! a) = false.
Proof.
  unfold token_end. destruct (_ && _)%bool eqn:Hc; [|discriminate].
  intros [= <-]. split; [lia|]. intros a Ha.
  apply andb_true_iff in Hc as [Hc Hclose]. apply andb_true_iff in Hc as [_ Hfirst].
  destruct (decide (a = S i)) as [->|H1].
  { exact (opt_test_excludes _ _ _ not_bracket_not_open Hfirst). }
  destruct (decide (a = S (S i) + run s not_bracket (S (S i)))) as [->|H2].
  { exact (opt_test_excludes _ _ _ is_close_not_open Hclose). }
  destruct (run_in s not_bracket (S (S i)) (a - S (S i))) as (c & Hc & Hnb); [lia|].
  replace (S (S i) + (a - S (S i))) with a in Hc by lia.
  rewrite Hc. cbn. now apply not_bracket_not_open.
Qed.

(** [finditer] misses no token: a token cannot overlap an earlier match. *)
Lemma finditer_from_token_complete (s : list N) (a b : nat) :
  token_end s a = Some b ->
  forall fuel i ma,
    i <= a -> a - i < fuel ->
    In (RMatch a b []) (finditer_from BRACKET_TOKEN_PATTERN s fuel i ma).
Proof.
  intros Htok.
  assert (Hopen : opt_test is_open (s !! a) = true).
  { unfold token_end in Htok. destruct (opt_test is_open (s !! a)); [reflexivity|discriminate]. }
  assert (Ha : a < length s).
  { destruct (s !! a) eqn:Hs; [|discriminate]. now apply lookup_lt_Some in Hs. }
  induction fuel as [|fuel IH]; intros i ma Hi Hfuel; [lia|].
  cbn [finditer_from].
  replace (length s <? i) with false by (symmetry; apply Nat.ltb_ge; lia).
  rewrite match_at_token.
  destruct (decide (i = a)) as [->|Hne].
  - rewrite Htok. cbn. now left.
  - destruct (token_end s i) as [e|] eqn:He; cbn [fmap option_fmap option_map].
    + apply token_end_no_open_inside in He as [Hie He].
      assert (e <= a).
      { destruct (decide (e <= a)); [assumption|].
        rewrite He in Hopen by lia. discriminate. }
      cbn [m_end]. replace (e =? i) with false by (symmetry; apply Nat.eqb_neq; lia).
      right. apply IH; lia.
    + apply IH; lia.
Qed.

Lemma token_in_spans (pre body rest : list N) :
  nonempty body = true -> forallb not_bracket body = true ->
  In (length pre, length pre + length body + 2)
     (_find_spans BRACKET_TOKEN_PATTERN (pre ++ chr "[" :: body ++ [chr "]"] ++ rest)).
Proof.
  intros Hne Hb. unfold _find_spans, spans_of, finditer.
  apply in_map_iff. exists (RMatch (length pre) (length pre + length body + 2) []).
  split; [reflexivity|].
  apply finditer_from_token_complete; [now apply token_end_at|lia|].
  rewrite length_app. cbn [length]. lia.
Qed.

End Tokens.

Section KeepsText.
Context {E : PyEnv}.

Lemma not_strictly_inside (pos : nat) (spans : list (nat * nat)) (a b : nat) :
  _in_same_bracket_boundary pos spans = false -> In (a, b) spans -> ~ (a < pos < b).
Proof.
  unfold _in_same_bracket_boundary. intros Hf Hin [H1 H2].
  assert (existsb (fun sp => (fst sp <? pos) && (pos <? snd sp)) spans = true); [|congruence].
  apply existsb_exists. exists (a, b). split; [assumption|]. cbn.
  apply andb_true_iff. split; now apply Nat.ltb_lt.
Qed.

Lemma insert_auto_pauses_splice (s style : list N) (speed_factor strength : Q)
    (topup_only : bool) (min_pause max_pause : Q) :
  insert_auto_pauses s style speed_factor strength topup_only min_pause max_pause
  = splice_loop s 0
      (sorted_by_pos
         (collect_insertions s style speed_factor strength topup_only min_pause max_pause)).
Proof.
  unfold insert_auto_pauses.
  destruct s as [|c s]; [reflexivity|]. cbn [nonempty negb]. cbv zeta.
  destruct (collect_insertions _ _ _ _ _ _ _) as [|x l]; reflexivity.
Qed.

(** C9. The result is the text with the tags inserted at their offsets: no
    character of the input is consumed. No tag goes strictly inside a
    bracket token of the input ([laugh], [pause:0.5s], [0.5s], ...), so
    every such token is in the result as it is, at an offset that grows with
    its offset in the input. *)
Theorem insert_auto_pauses_keeps_text (s style : list N) (speed_factor strength : Q)
    (topup_only : bool) (min_pause max_pause : Q) :
  let ins := sorted_by_pos
               (collect_insertions s style speed_factor strength topup_only
                  min_pause max_pause) in
  let out := insert_auto_pauses s style speed_factor strength topup_only
               min_pause max_pause in
  spliced 0 s ins out
  /\ (forall pre body rest,
        s = pre ++ chr "[" :: body ++ [chr "]"] ++ rest ->
        nonempty body = true -> forallb not_bracket body = true ->
        slice out (shift ins (length pre)) (shift ins (length pre) + (length body + 2))
        = chr "[" :: body ++ [chr "]"])
  /\ (forall a a', a <= a' -> shift ins a + (a' - a) <= shift ins a').
Proof.
  cbv zeta. rewrite insert_auto_pauses_splice.
  assert (Hok : Forall (insertion_ok s (_find_spans BRACKET_TOKEN_PATTERN s))
                  (collect_insertions s style speed_factor strength topup_only
                     min_pause max_pause)).
  { eapply Forall_impl; [apply collect_insertions_inserted|].
    intros x (b & pc & w & nw & _ & _ & Hlen & Hbr). now split. }
  apply (sorted_by_pos_Forall _ _) in Hok.
  set (ins := sorted_by_pos _) in *.
  assert (Hsp : spliced 0 s ins (splice_loop s 0 ins)).
  { rewrite <- (drop_0 s) at 1. apply splice_loop_spliced.
    - apply sorted_by_pos_nondecreasing.
    - eapply Forall_impl; [exact Hok|]. now intros x [Hx _]. }
  split; [exact Hsp|]. split.
  - intros pre body rest Hs Hne Hb.
    pose proof (spliced_slice 0 s ins _ Hsp (length pre) (length pre + (length body + 2)))
      as Hslice.
    unfold slice, shift.
    replace (length pre + tags_before ins (length pre) + (length body + 2)
             - (length pre + tags_before ins (length pre)))
      with (length pre + (length body + 2) - length pre) by lia.
    rewrite Nat.sub_0_r in Hslice. rewrite Hslice.
    + rewrite Hs, drop_app_length.
      replace (length pre + (length body + 2) - length pre)
        with (length (chr "[" :: body ++ [chr "]"]))
        by (cbn [length]; rewrite length_app; cbn; lia).
      replace (chr "[" :: body ++ [chr "]"] ++ rest)
        with ((chr "[" :: body ++ [chr "]"]) ++ rest)
        by (cbn [app]; now rewrite <- app_assoc).
      apply take_app_length.
    + lia.
    + lia.
    + rewrite Hs, !length_app. cbn [length]. rewrite !length_app. cbn. lia.
    + eapply Forall_impl; [exact Hok|]. intros x [_ Hx].
      apply (not_strictly_inside _ _ _ _ Hx).
      rewrite Hs. replace (length pre + (length body + 2)) with (length pre + length body + 2) by lia.
      now apply token_in_spans.
  - intros a a' Ha. unfold shift. pose proof (tags_before_mono ins a a' Ha). lia.
Qed.

End KeepsText.

(** ** auto_pauses.py: the end of a sentence *)

Section SentenceEnd.
Context {E : PyEnv}.
Variable s : list N.

Lemma opt_test_char_is (p : N -> bool) (i : nat) :
  opt_test p (s !! i) = true <-> char_is s i p.
Proof.
  unfold char_is. destruct (s !! i) as [c|]; cbn.
  - split; [eauto|]. now intros (c' & [= <-] & H).
  - split; [discriminate|]. now intros (c' & [=] & _).
Qed.

Lemma star_iter_last (f : mstate -> list mstate) (fuel : nat) (st : mstate) :
  exists l, star_iter f fuel st = l ++ [st].
Proof. destruct fuel; cbn; [now exists []|eauto]. Qed.

(** [ELLIPSIS_PATTERN.match(text, idx)] succeeds on a dot that has a dot
    right after it, and on nothing else. *)
Lemma ellipsis_at_spec (idx : nat) :
  ellipsis_at s idx = true <-> followed_by_dot s idx.
Proof.
  unfold followed_by_dot. rewrite <- !opt_test_char_is.
  unfold ellipsis_at, match_at, ELLIPSIS_PATTERN, Plus, Lit.
  rewrite ends_seq, ends_set.
  destruct (opt_test (ch_eqb (chr ".")) (s !! idx)); cbn [flat_map];
    [|split; [discriminate|now intros [? _]]].
  rewrite app_nil_r, ends_seq, ends_set.
  destruct (opt_test (ch_eqb (chr ".")) (s !! S idx)); cbn [flat_map];
    [|split; [discriminate|now intros [_ ?]]].
  rewrite app_nil_r, ends_star.
  destruct (star_iter_last (ends s (Set_ (ch_eqb (chr "."))))
              (S (length s - ms_pos (MState (S (S idx)) []))) (MState (S (S idx)) []))
    as [l ->].
  split; [auto|]. intros _.
  destruct l; reflexivity.
Qed.

Lemma decimal_dot_at_spec (start end_ idx : nat) (c : N) :
  s !! idx = Some c ->
  (decimal_dot_at s start end_ idx c = true <-> between_digits s start end_ idx).
Proof.
  intros Hc. unfold decimal_dot_at, between_digits.
  rewrite !andb_true_iff, Nat.ltb_lt, Nat.ltb_lt, <- !opt_test_char_is.
  rewrite Hc. cbn [opt_test].
  assert (Hb : char_before s idx = s !! (idx - 1) \/ idx = 0).
  { destruct idx as [|j]; [now right|left]. cbn. now rewrite Nat.sub_0_r. }
  assert (Hsym : ch_eqb c (chr ".") = ch_eqb (chr ".") c) by apply N.eqb_sym.
  rewrite Hsym. destruct Hb as [->| ->]; [tauto|].
  split; [intros ((((_ & H) & _) & _) & _); lia|intros (_ & H & _); lia].
Qed.

(** The backward loop finds the nearest character that is not whitespace. *)
Lemma prev_non_space_Some (idx p : nat) :
  idx <= length s ->
  (prev_non_space s idx = Some p
   <-> p < idx /\ char_is s p (fun c => negb (uc_isspace c))
       /\ forall k, p < k < idx -> char_is s k uc_isspace).
Proof.
  induction idx as [|j IH]; intros Hlen; cbn [prev_non_space].
  - split; [discriminate|intros [H _]; lia].
  - destruct (s !! j) as [c|] eqn:Hc; [|apply lookup_ge_None in Hc; lia].
    destruct (uc_isspace c) eqn:Hsp.
    + rewrite IH by lia. split.
      * intros (Hp & Hq & Hk). split; [lia|]. split; [assumption|].
        intros k Hk'. destruct (decide (k = j)) as [->|]; [now exists c|apply Hk; lia].
      * intros (Hp & Hq & Hk).
        assert (p <> j).
        { intros ->. destruct Hq as (c' & Hc' & Hn). rewrite Hc in Hc'.
          injection Hc' as <-. now rewrite Hsp in Hn. }
        split; [lia|]. split; [assumption|]. intros k Hk'. apply Hk. lia.
    + split.
      * intros [= <-]. split; [lia|]. split; [exists c; now rewrite Hsp|]. intros k Hk. lia.
      * intros (Hp & Hq & Hk). f_equal.
        destruct (decide (p = j)) as [->|Hne]; [reflexivity|].
        destruct (Hk j) as (c' & Hc' & Hn); [lia|].
        rewrite Hc in Hc'. injection Hc' as <-. congruence.
Qed.

Lemma _should_skip_open_quote_boundary_spec (idx : nat) :
  idx <= length s ->
  (_should_skip_open_quote_boundary s idx = true <-> after_opening_quote s idx).
Proof.
  intros Hlen. unfold _should_skip_open_quote_boundary, after_opening_quote. split.
  - destruct (prev_non_space s idx) as [p|] eqn:Hp; [|discriminate].
    apply prev_non_space_Some in Hp as (Hlt & (c & Hc & Hns) & Hk); [|assumption].
    rewrite Hc. cbn [opt_test]. destruct (is_quote c) eqn:Hq; [|discriminate].
    intros Hstart. exists p. split; [assumption|]. split; [exists c; now rewrite Hns, Hq|].
    split; [assumption|].
    apply orb_true_iff in Hstart as [H0|Hw]; [left; now apply Nat.eqb_eq|].
    destruct p as [|p']; [now left|right]. cbn in Hw. cbn. rewrite Nat.sub_0_r.
    now apply opt_test_char_is.
  - intros (p & Hlt & (c & Hc & Hcq) & Hk & Hstart).
    apply andb_true_iff in Hcq as [Hns Hq].
    assert (Hp : prev_non_space s idx = Some p).
    { apply prev_non_space_Some; [assumption|]. split; [assumption|].
      split; [now exists c|assumption]. }
    rewrite Hp, Hc. cbn [opt_test]. rewrite Hq.
    destruct Hstart as [->|Hw]; [reflexivity|].
    destruct p as [|p']; [reflexivity|]. cbn in Hw. rewrite Nat.sub_0_r in Hw.
    cbn. now apply opt_test_char_is.
Qed.

(** C4, as the code has it. At a scan position with a dot, an exclamation
    mark or a question mark, the character is passed over when it is a dot
    with a dot right after it, a dot between two digits, or a mark whose
    nearest preceding non-space character is an opening quote; then the
    state of the scan is unchanged and no pause is inserted for it. In every
    other case (the last dot of a run of dots included) it ends the sentence:
    the next sentence starts after it and the insertion of its pause is
    attempted. *)
Theorem sentence_mark_classification (start end_ idx : nat) (dashes : list nat) (c : N) :
  s !! idx = Some c ->
  is_sentence_mark c = true ->
  (classify s start end_ dashes idx c = None <-> passed_over s start end_ idx)
  /\ (~ passed_over s start end_ idx ->
      classify s start end_ dashes idx c = Some (Some sentence_end, true))
  /\ (forall bs ms sb speed strength topup lo hi st,
        _inside_spans idx bs = false ->
        let st' := scan_step s bs ms sb speed strength topup lo hi start end_ dashes idx st in
        (passed_over s start end_ idx -> st' = st)
        /\ (~ passed_over s start end_ idx ->
            sentence_start st' = idx + 1
            /\ insertions st'
               = boundary_insertion s bs ms sb speed strength topup lo hi end_ idx c
                   sentence_end
                   (Some (_words_in_sentence (slice s (sentence_start st) (idx + 1))))
                   (insertions st))).
Proof.
  intros Hc Hmark.
  assert (Hlen : idx <= length s) by (apply lookup_lt_Some in Hc; lia).
  assert (Hcl : classify s start end_ dashes idx c
                = if (ellipsis_at s idx || decimal_dot_at s start end_ idx c
                      || _should_skip_open_quote_boundary s idx)%bool
                  then None else Some (Some sentence_end, true)).
  { unfold classify. rewrite Hmark.
    destruct (ellipsis_at s idx), (decimal_dot_at s start end_ idx c),
      (_should_skip_open_quote_boundary s idx); reflexivity. }
  assert (Hiff : (ellipsis_at s idx || decimal_dot_at s start end_ idx c
                  || _should_skip_open_quote_boundary s idx)%bool = true
                 <-> passed_over s start end_ idx).
  { unfold passed_over.
    rewrite !orb_true_iff, ellipsis_at_spec, (decimal_dot_at_spec _ _ _ _ Hc),
      (_should_skip_open_quote_boundary_spec _ Hlen). tauto. }
  assert (Hnone : classify s start end_ dashes idx c = None <-> passed_over s start end_ idx).
  { rewrite Hcl, <- Hiff. destruct (_ || _)%bool; split; congruence. }
  assert (Hsome : ~ passed_over s start end_ idx ->
                  classify s start end_ dashes idx c = Some (Some sentence_end, true)).
  { intros Hn. rewrite Hcl. destruct (_ || _)%bool; [|reflexivity].
    exfalso. apply Hn, Hiff. reflexivity. }
  split; [exact Hnone|]. split; [exact Hsome|].
  intros bs ms sb speed strength topup lo hi st Hin. cbv zeta.
  unfold scan_step. rewrite Hc, Hin. split.
  - intros Hp. apply Hnone in Hp. now rewrite Hp.
  - intros Hn. rewrite (Hsome Hn). cbn. split; reflexivity.
Qed.

End SentenceEnd.

(** C4, as stated, fails on the last dot of an ellipsis: in [Wait...] the
    dots at offsets 4 and 5 are passed over, the dot at offset 6 ends the
    sentence, and the pause is inserted after it. *)
Lemma last_dot_of_ellipsis_ends_sentence :
  str "Wait..." !! 5 = Some (chr ".")
  /\ str "Wait..." !! 6 = Some (chr ".")
  /\ @classify ascii_env (str "Wait...") 0 7 [] 5 (chr ".") = None
  /\ @classify ascii_env (str "Wait...") 0 7 [] 6 (chr ".") = Some (Some sentence_end, true)
  /\ @insert_auto_pauses ascii_env (str "Wait...") (str "audiobook") 1 1 false 0.04 1.8
     = str "Wait...[pause:0.55s]".
Proof. vm_compute. repeat split. Qed.

(** C4 on the dot of [3.50]. *)
Lemma sentence_mark_classification_witness :
  @classify ascii_env (str "It costs 3.50 now.") 0 18 [] 10 (chr ".") = None
  <-> passed_over (E := ascii_env) (str "It costs 3.50 now.") 0 18 10.
Proof.
  apply (@sentence_mark_classification ascii_env (str "It costs 3.50 now.") 0 18 10 []
           (chr ".")); reflexivity.
Defined.

(** ** text_normalization.py: amounts *)

Section Currency.
Context {E : PyEnv}.

Lemma finditer_from_match_at (r : regex) (s : list N) (m : rmatch) :
  forall fuel i ma,
    In m (finditer_from r s fuel i ma) ->
    exists i' ma', i' <= length s /\ match_at r s i' ma' = Some m.
Proof.
  induction fuel as [|fuel IH]; intros i ma Hin; cbn [finditer_from] in Hin; [destruct Hin|].
  destruct (length s <? i) eqn:Hlen; [destruct Hin|]. apply Nat.ltb_ge in Hlen.
  destruct (match_at r s i ma) as [m'|] eqn:Hm.
  - destruct Hin as [<-|Hin]; [eauto|].
    destruct (m_end m' =? i); eauto.
  - eauto.
Qed.

(** *** The shape of a match of the currency pattern *)

Lemma digits_between_refl (p : N -> bool) (s : list N) (a : nat) :
  a <= length s -> digits_between p s a a.
Proof. intros Ha. split; [lia|]. intros k Hk. lia. Qed.

Lemma digits_between_trans (p : N -> bool) (s : list N) (a b c : nat) :
  digits_between p s a b -> digits_between p s b c -> digits_between p s a c.
Proof.
  intros [Hab H1] [Hbc H2]. split; [lia|]. intros k Hk.
  destruct (decide (k < b)); [apply H1|apply H2]; lia.
Qed.

Lemma star_iter_reads (q : N -> bool) (s : list N) (f : mstate -> list mstate) :
  (forall st st', In st' (f st) -> reads q s st st') ->
  forall fuel st st', In st' (star_iter f fuel st) -> reads q s st st'.
Proof.
  intros Hf. induction fuel as [|n IH]; intros st st' Hin; cbn [star_iter] in Hin.
  - destruct Hin as [<-|[]]. split; [reflexivity|]. now apply digits_between_refl.
  - apply in_app_iff in Hin as [Hin|[<-|[]]];
      [|split; [reflexivity|now apply digits_between_refl]].
    apply in_flat_map in Hin as (mid & Hmid & Hin).
    destruct (ms_pos st <? ms_pos mid); [|destruct Hin].
    apply Hf in Hmid as [Hg1 Hd1]. apply IH in Hin as [Hg2 Hd2].
    split; [congruence|]. intros Hst. specialize (Hd1 Hst).
    eapply digits_between_trans; [exact Hd1|]. apply Hd2. destruct Hd1. lia.
Qed.

Lemma ends_reads (q : N -> bool) (s : list N) (r : regex) :
  classes_within q r ->
  forall st st', In st' (ends s r st) -> reads q s st st'.
Proof.
  induction r as [|p|r1 IH1 r2 IH2|r1 IH1 r2 IH2|r IH|i r IH|a]; intros Hr st st' Hin;
    cbn [ends classes_within] in *.
  - destruct Hin as [<-|[]]. split; [reflexivity|]. now apply digits_between_refl.
  - destruct (s !! ms_pos st) as [c|] eqn:Hc; [|destruct Hin].
    destruct (p c) eqn:Hp; [|destruct Hin]. destruct Hin as [<-|[]].
    split; [reflexivity|]. intros _. cbn. apply lookup_lt_Some in Hc as Hlt.
    split; [lia|]. intros k Hk. replace k with (ms_pos st) by lia.
    rewrite Hc. cbn. auto.
  - destruct Hr as [Hr1 Hr2]. apply in_flat_map in Hin as (mid & Hmid & Hin).
    apply (IH1 Hr1) in Hmid as [Hg1 Hd1]. apply (IH2 Hr2) in Hin as [Hg2 Hd2].
    split; [congruence|]. intros Hst. specialize (Hd1 Hst).
    eapply digits_between_trans; [exact Hd1|]. apply Hd2. destruct Hd1. lia.
  - destruct Hr as [Hr1 Hr2]. apply in_app_iff in Hin as [Hin|Hin]; eauto.
  - eapply star_iter_reads; eauto.
  - destruct Hr.
  - destruct Hr.
Qed.

Lemma ends_set_In (s : list N) (p : N -> bool) (st st' : mstate) :
  In st' (ends s (Set_ p) st) ->
  st' = MState (S (ms_pos st)) (ms_groups st) /\ ms_pos st < length s.
Proof.
  cbn [ends]. destruct (s !! ms_pos st) as [c|] eqn:Hc; [|intros []].
  destruct (p c); [|intros []]. intros [<-|[]].
  apply lookup_lt_Some in Hc. auto.
Qed.

Lemma ends_group_In (s : list N) (i : nat) (r : regex) (st st' : mstate) :
  In st' (ends s (Group i r) st) ->
  exists mid, In mid (ends s r st)
              /\ st' = MState (ms_pos mid) ((i, (ms_pos st, ms_pos mid)) :: ms_groups mid).
Proof. cbn [ends]. intros Hin. apply in_map_iff in Hin as (mid & <- & Hin). eauto. Qed.

Lemma dollars_classes : classes_within digit_or_comma
  (Alt (Seq (Repeat 1 3 cls_digit) (Plus (Seq (Lit ",") (Exactly 3 cls_digit))))
       (Plus cls_digit)).
Proof.
  assert (Hd : forall c, uc_isdecimal c = true -> digit_or_comma c = true)
    by (intros c Hc; unfold digit_or_comma; now rewrite Hc).
  assert (Hc : forall c, ch_eqb (chr ",") c = true -> digit_or_comma c = true)
    by (intros c Hc; unfold digit_or_comma; rewrite Hc; apply orb_true_r).
  cbn. tauto.
Qed.

Lemma cents_classes : classes_within uc_isdecimal (Repeat 1 2 cls_digit).
Proof. cbn. tauto. Qed.

Lemma cents_length (s : list N) (st st' : mstate) :
  In st' (ends s (Repeat 1 2 cls_digit) st) -> 1 <= ms_pos st' - ms_pos st <= 2.
Proof.
  unfold Repeat, Exactly, UpTo, Opt. cbn [Nat.sub]. rewrite ends_seq.
  intros Hin. apply in_flat_map in Hin as (mid & Hmid & Hin).
  rewrite ends_seq in Hmid. apply in_flat_map in Hmid as (m1 & Hm1 & Hmid).
  apply ends_set_In in Hm1 as [-> _]. destruct Hmid as [<-|[]].
  cbn [ends ms_pos ms_groups] in Hin. apply in_app_iff in Hin as [Hin|[<-|[]]].
  - apply in_flat_map in Hin as (m2 & Hm2 & Hin).
    change (In m2 (ends s (Set_ uc_isdecimal) (MState (S (ms_pos st)) (ms_groups st))))
      in Hm2.
    apply ends_set_In in Hm2 as [-> _]. cbn in Hin. destruct Hin as [<-|[]]. cbn. lia.
  - cbn. lia.
Qed.

Lemma match_at_currency_groups (s : list N) (i : nat) (ma : bool) (m : rmatch) :
  match_at currency_pattern s i ma = Some m ->
  m_start m = i /\ currency_groups s i (m_groups m).
Proof.
  unfold match_at. destruct (List.find _ _) as [st|] eqn:Hf; [|discriminate].
  intros [= <-]. cbn [m_start m_groups]. split; [reflexivity|].
  apply find_some in Hf as [Hin _]. unfold currency_pattern in Hin.
  rewrite ends_seq in Hin. apply in_flat_map in Hin as (st1 & H1 & Hin).
  apply ends_set_In in H1 as [-> Hi]. cbn [ms_pos ms_groups] in *.
  rewrite ends_seq in Hin. apply in_flat_map in Hin as (st2 & H2 & Hin).
  apply ends_group_In in H2 as (d & Hd & ->). cbn [ms_pos] in *.
  apply (ends_reads _ _ _ dollars_classes) in Hd as [Hg Hdig].
  cbn [ms_pos ms_groups] in *.
  assert (Hsi : S i <= length s) by lia. specialize (Hdig Hsi). rewrite Hg in *.
  exists (ms_pos d). split; [exact Hdig|].
  unfold Opt in Hin. cbn [ends] in Hin. apply in_app_iff in Hin as [Hin|[<-|[]]].
  - right. apply in_flat_map in Hin as (st3 & H3 & Hin).
    apply ends_set_In in H3 as [-> Hj]. cbn [ms_pos ms_groups] in *.
    apply in_map_iff in Hin as (c & <- & Hc). cbn [ms_pos ms_groups].
    pose proof (cents_length _ _ _ Hc) as Hlen.
    apply (ends_reads _ _ _ cents_classes) in Hc as [Hg' Hdig'].
    cbn [ms_pos ms_groups] in *.
    assert (Hsj : S (ms_pos d) <= length s) by lia. specialize (Hdig' Hsj). rewrite Hg'.
    exists (ms_pos c). auto.
  - now left.
Qed.

(** *** The value of a string of digits *)

Lemma int_of_digits_bounds (l : list N) :
  Forall (fun c => uc_isdecimal c = true) l ->
  forall acc, (0 <= acc)%Z ->
    (0 <= fold_left (fun a c => 10 * a + uc_decimal_value c) l acc
       < (acc + 1) * 10 ^ Z.of_nat (length l))%Z.
Proof.
  induction 1 as [|c l Hc _ IH]; intros acc Hacc; cbn [fold_left length].
  - cbn. lia.
  - pose proof (uc_decimal_range c Hc) as Hv.
    assert (Hacc' : (0 <= 10 * acc + uc_decimal_value c)%Z) by lia.
    specialize (IH _ Hacc').
    rewrite Nat2Z.inj_succ, Z.pow_succ_r by lia.
    split; [lia|]. destruct IH as [_ IH].
    eapply Z.lt_le_trans; [exact IH|].
    assert (0 < 10 ^ Z.of_nat (length l))%Z by (apply Z.pow_pos_nonneg; lia). nia.
Qed.

Lemma slice_Forall (p : N -> bool) (s : list N) (a b : nat) :
  digits_between p s a b -> Forall (fun c => p c = true) (slice s a b).
Proof.
  intros [Hab Hk]. unfold slice. apply Forall_lookup. intros k c Hc.
  apply lookup_take_Some in Hc as [Hc Hlt]. rewrite lookup_drop in Hc.
  specialize (Hk (a + k) ltac:(lia)). rewrite Hc in Hk. exact Hk.
Qed.

Lemma length_slice (s : list N) (a b : nat) :
  a <= b <= length s -> length (slice s a b) = b - a.
Proof. intros H. unfold slice. rewrite length_take, length_drop. lia. Qed.

Lemma dollars_of_nonneg (s : list N) (i : nat) (m : rmatch) :
  currency_groups s i (m_groups m) -> (0 <= dollars_of s m)%Z.
Proof.
  intros (j & Hd & Hg). unfold dollars_of, group_text, m_group.
  assert (Hfind : List.find (fun g => fst g =? 1) (m_groups m) = Some (1, (S i, j))).
  { destruct Hg as [->|(k & -> & _)]; reflexivity. }
  rewrite Hfind. cbn [fmap option_fmap option_map default fst snd].
  apply int_of_digits_bounds; [|lia].
  apply slice_Forall in Hd. rewrite List.Forall_forall in *.
  intros c Hc. apply List.filter_In in Hc as [Hin Hnc]. specialize (Hd c Hin).
  unfold digit_or_comma in Hd. apply negb_true_iff in Hnc. rewrite Hnc in Hd.
  now rewrite orb_false_r in Hd.
Qed.

Lemma cents_of_range (s : list N) (i : nat) (m : rmatch) :
  currency_groups s i (m_groups m) -> (0 <= cents_of s m <= 99)%Z.
Proof.
  intros (j & Hd & Hg). unfold cents_of, group_text, m_group.
  destruct Hg as [->|(k & -> & Hc & Hlen)]; cbn [List.find fst snd Nat.eqb fmap option_fmap option_map];
    [lia|].
  pose proof (length_slice s (S j) k (proj1 Hc)) as Hl.
  pose proof (int_of_digits_bounds _ (slice_Forall _ _ _ _ Hc) 0%Z (Z.le_refl 0)) as Hb.
  fold (int_of_digits (slice s (S j) k)) in Hb. rewrite Hl in *.
  destruct (k - S j =? 1) eqn:H1.
  - apply Nat.eqb_eq in H1. rewrite H1 in Hb. cbn in Hb. lia.
  - apply Nat.eqb_neq in H1. replace (k - S j) with 2 in Hb by lia. cbn in Hb. lia.
Qed.

(** What [replace_match] returns for a match of the pattern. *)
Lemma replace_match_spec (max_value : Z) (s : list N) (i : nat) (m : rmatch) :
  currency_groups s i (m_groups m) ->
  replace_match max_value s m
  = if ((dollars_of s m <=? max_value) && (999999999 <? dollars_of s m))%Z
    then Raise ValueError
    else Ok (spoken_amount max_value (slice s (m_start m) (m_end m))
               (dollars_of s m) (cents_of s m)).
Proof.
  intros Hg. pose proof (dollars_of_nonneg s i m Hg) as Hd.
  pose proof (cents_of_range s i m Hg) as Hc.
  unfold replace_match, spoken_amount. cbv zeta.
  fold (dollars_of s m). fold (cents_of s m).
  destruct (max_value <? dollars_of s m)%Z eqn:Hmax.
  { replace (dollars_of s m <=? max_value)%Z with false by lia. reflexivity. }
  replace (dollars_of s m <=? max_value)%Z with true by lia. cbn [andb].
  rewrite (int_to_words_us_in_range (cents_of s m)) by lia.
  destruct (dollars_of s m =? 0)%Z eqn:Hd0.
  - apply Z.eqb_eq in Hd0. rewrite Hd0. cbn [Z.ltb Z.compare Z.eqb andb bind].
    destruct (cents_of s m =? 0)%Z eqn:Hc0.
    + replace (0 <? cents_of s m)%Z with false by lia. cbn. reflexivity.
    + replace (0 <? cents_of s m)%Z with true by lia. cbn [bind]. reflexivity.
  - cbn [andb].
    destruct (999999999 <? dollars_of s m)%Z eqn:Hbig.
    + rewrite int_to_words_us_out_of_range by lia. reflexivity.
    + rewrite int_to_words_us_in_range by lia. cbn [bind].
      destruct (cents_of s m =? 0)%Z; reflexivity.
Qed.

Lemma unprotected_loop_ok (s : list N) (transform : list N -> result (list N)) :
  (forall seg, exists out, transform seg = Ok out) ->
  forall spans last_index, exists out, unprotected_loop s transform last_index spans = Ok out.
Proof.
  intros Ht. induction spans as [|[a b] spans IH]; intros last_index; cbn [unprotected_loop].
  - destruct (last_index <? length s); eauto.
  - destruct (IH b) as [rest ->].
    destruct (last_index <? a); [destruct (Ht (slice s last_index a)) as [head ->]|];
      cbn [bind]; eauto.
Qed.

(** C6, as the code has it. Every match of the currency pattern in a
    segment is replaced by the words of its amount: a single digit of cents
    counts tenfold, an amount above [max_value] is left as it is, zero
    dollars are not mentioned before cents, zero dollars and zero cents are
    "zero dollars", and the units are in the plural except for exactly 1.
    With [max_value] at most 999,999,999 the call returns; only an amount
    above 999,999,999 that a larger [max_value] lets through makes it fail,
    with the error of [int_to_words_us]. *)
Theorem currency_rules (max_value : Z) (s : list N) :
  (forall m, In m (finditer currency_pattern s) ->
     replace_match max_value s m
     = if ((dollars_of s m <=? max_value) && (999999999 <? dollars_of s m))%Z
       then Raise ValueError
       else Ok (spoken_amount max_value (slice s (m_start m) (m_end m))
                  (dollars_of s m) (cents_of s m)))
  /\ ((max_value <= 999999999)%Z ->
      (forall m, In m (finditer currency_pattern s) ->
         replace_match max_value s m
         = Ok (spoken_amount max_value (slice s (m_start m) (m_end m))
                 (dollars_of s m) (cents_of s m)))
      /\ exists out, normalize_currency_usd s (Some max_value) = Ok out).
Proof.
  assert (Hspec : forall seg m, In m (finditer currency_pattern seg) ->
            replace_match max_value seg m
            = if ((dollars_of seg m <=? max_value) && (999999999 <? dollars_of seg m))%Z
              then Raise ValueError
              else Ok (spoken_amount max_value (slice seg (m_start m) (m_end m))
                         (dollars_of seg m) (cents_of seg m))).
  { intros seg m Hin. apply finditer_from_match_at in Hin as (i & ma & _ & Hm).
    apply match_at_currency_groups in Hm as [_ Hg].
    now apply (replace_match_spec max_value seg i m). }
  split; [apply Hspec|]. intros Hmax.
  assert (Hok : forall seg m, In m (finditer currency_pattern seg) ->
            replace_match max_value seg m
            = Ok (spoken_amount max_value (slice seg (m_start m) (m_end m))
                    (dollars_of seg m) (cents_of seg m))).
  { intros seg m Hin. rewrite (Hspec seg m Hin).
    destruct (_ && _)%bool eqn:Hc; [|reflexivity]. lia. }
  split; [apply Hok|].
  assert (Htr : forall seg, exists out,
            re_sub currency_pattern (replace_match max_value seg) seg = Ok out).
  { intros seg. unfold re_sub. apply sub_loop_ok.
    apply List.Forall_forall. intros m Hin. rewrite (Hok seg m Hin). eauto. }
  unfold normalize_currency_usd. cbn [default].
  destruct (_find_protected_spans s); [apply Htr|].
  unfold _apply_to_unprotected_segments. now apply unprotected_loop_ok.
Qed.

End Currency.

(** C6, as stated, fails for an amount above 999,999,999 that does not exceed
    [max_value]: the call raises [ValueError]. *)
Lemma large_amount_raises :
  @normalize_currency_usd ascii_env (str "$1000000000") (Some 2000000000%Z)
  = Raise ValueError.
Proof. vm_compute. reflexivity. Qed.

(** The examples of C6, and two with bracket tokens. *)
Example currency_examples :
  @normalize_currency_usd ascii_env (str "$657.62") None
    = Ok (str "six hundred, fifty seven dollars and sixty two cents")
  /\ @normalize_currency_usd ascii_env (str "$0.05") None = Ok (str "five cents")
  /\ @normalize_currency_usd ascii_env (str "$0.00") None = Ok (str "zero dollars")
  /\ @normalize_currency_usd ascii_env (str "$1.01 or $657.6") None
     = Ok (str "one dollar and one cent or six hundred, fifty seven dollars and sixty cents")
  /\ @normalize_currency_usd ascii_env (str "$1000000000") None = Ok (str "$1000000000")
  /\ @normalize_currency_usd ascii_env (str "[laugh $657.62] $12.") None
     = Ok (str "[laugh $657.62] twelve dollars.").
Proof. vm_compute. repeat split. Qed.

(** ** pronunciation.py *)

Section Pronunciation.
Context {E : PyEnv}.

(** *** The order of the keys *)

Lemma text_leb_total (a b : list N) : text_leb a b = true \/ text_leb b a = true.
Proof.
  revert b. induction a as [|x a IH]; intros [|y b]; cbn; auto.
  destruct (N.ltb_spec x y), (N.ltb_spec y x); auto; lia.
Qed.

Lemma text_leb_trans (a b c : list N) :
  text_leb a b = true -> text_leb b c = true -> text_leb a c = true.
Proof.
  revert b c. induction a as [|x a IH]; intros [|y b] [|z c]; cbn; auto; try discriminate.
  destruct (N.ltb_spec x y), (N.ltb_spec y x), (N.ltb_spec y z), (N.ltb_spec z y),
    (N.ltb_spec x z), (N.ltb_spec z x); auto; try discriminate; try lia.
  apply IH.
Qed.

Lemma key_le_spec (a b : list N) :
  key_le a b <-> length b < length a \/ (length a = length b /\ text_leb a b = true).
Proof.
  unfold key_le, key_leb.
  destruct (Nat.ltb_spec (length b) (length a)) as [H1|H1].
  { split; [left; lia|reflexivity]. }
  destruct (Nat.ltb_spec (length a) (length b)) as [H2|H2].
  { split; [discriminate|intros [?|[? ?]]; lia]. }
  split; [right; split; [lia|assumption]|intros [?|[? ?]]; [lia|assumption]].
Qed.

#[local] Instance key_le_total : Total key_le.
Proof.
  intros a b. rewrite !key_le_spec.
  destruct (text_leb_total a b); destruct (Nat.lt_trichotomy (length a) (length b))
    as [?|[?|?]]; auto.
Qed.

#[local] Instance key_le_trans : Transitive key_le.
Proof.
  intros a b c. rewrite !key_le_spec.
  intros [?|[? Hab]] [?|[? Hbc]]; try (left; lia).
  right. split; [lia|]. eapply text_leb_trans; eauto.
Qed.

Lemma ordered_keys_sorted (keys : list (list N)) :
  StronglySorted key_le (ordered_keys keys) /\ ordered_keys keys ≡ₚ keys.
Proof.
  split; [apply StronglySorted_merge_sort; apply _|apply merge_sort_Permutation].
Qed.

(** *** A sweep *)

Lemma ends_lit_text (s key : list N) :
  forall i g,
    ends s (LitText key) (MState i g)
    = if startswith (drop i s) key then [MState (i + length key) g] else [].
Proof.
  induction key as [|c key IH]; intros i g; cbn [LitText length startswith].
  - cbn. rewrite Nat.add_0_r. now destruct (drop i s).
  - rewrite ends_seq, ends_set.
    destruct (s !! i) as [x|] eqn:Hx.
    + rewrite (drop_S _ _ _ Hx). cbn [opt_test startswith].
      destruct (ch_eqb c x); cbn [flat_map andb]; [|reflexivity].
      rewrite app_nil_r, IH. now replace (S i + length key) with (i + S (length key)) by lia.
    + apply lookup_ge_None in Hx. rewrite drop_ge by lia. reflexivity.
Qed.

(** Where a key matches: at its whole-word occurrences. After an empty
    match at the same offset, an empty key does not match again. *)
Lemma match_at_key_pattern (seg key : list N) (i : nat) (ma : bool) :
  match_at (key_pattern key) seg i ma
  = if (whole_word_at seg key i && (negb ma || negb (length key =? 0)))%bool
    then Some (RMatch i (i + length key) []) else None.
Proof.
  unfold match_at, key_pattern, whole_word_at, not_behind, not_ahead.
  rewrite ends_seq. cbn [ends ms_pos].
  destruct (negb (opt_test is_token_char (char_before seg i))); cbn [flat_map andb];
    [|reflexivity].
  rewrite app_nil_r, ends_lit_text.
  destruct (startswith (drop i seg) key); cbn [flat_map andb ms_pos]; [|reflexivity].
  rewrite app_nil_r.
  destruct (negb (opt_test is_token_char (seg !! (i + length key)))); cbn [andb];
    [|reflexivity].
  cbn [List.find ms_pos ms_groups].
  replace (i + length key =? i) with (length key =? 0)
    by (destruct (Nat.eqb_spec (length key) 0), (Nat.eqb_spec (i + length key) i);
        auto; lia).
  destruct (negb ma || negb (length key =? 0))%bool; reflexivity.
Qed.

Lemma _apply_to_segment_sweeps (segment : list N) (mapping : gmap (list N) (list N)) :
  mapping <> ∅ ->
  _apply_to_segment segment mapping
  = fold_left (sweep_key mapping) (ordered_keys (mapping_keys mapping)) (Ok segment).
Proof.
  intros Hne. unfold _apply_to_segment, _build_replacement_patterns.
  rewrite bool_decide_eq_false_2 by assumption.
  generalize (Ok segment) as acc.
  induction (ordered_keys (mapping_keys mapping)) as [|key keys IH]; intros acc;
    [reflexivity|]. cbn [map fold_left]. apply IH.
Qed.

(** *** The chunks *)

Lemma finditer_from_chained (r : regex) (s : list N) :
  forall fuel i ma,
    chained i (length s) (spans_of (finditer_from r s fuel i ma)).
Proof.
  induction fuel as [|fuel IH]; intros i ma; cbn [finditer_from]; [exact I|].
  destruct (length s <? i) eqn:Hlen; [exact I|]. apply Nat.ltb_ge in Hlen.
  assert (Hmono : forall lo lo' spans, lo <= lo' ->
            chained lo' (length s) spans -> chained lo (length s) spans).
  { intros lo lo' [|sp spans] Hlo; cbn; [auto|]. intros (? & ? & ? & ?). repeat split; auto; lia. }
  destruct (match_at r s i ma) as [m|] eqn:Hm.
  - apply match_at_span in Hm as (Hs & He & Hl & _).
    cbn [spans_of map chained fst snd]. rewrite Hs.
    repeat split; try lia.
    destruct (m_end m =? i) eqn:Heq.
    + apply Nat.eqb_eq in Heq. rewrite Heq. apply IH.
    + apply IH.
  - apply (Hmono i (S i)); [lia|apply IH].
Qed.

Lemma slice_then_drop (s : list N) (a b : nat) :
  a <= b -> slice s a b ++ drop b s = drop a s.
Proof.
  intros Hab. unfold slice. replace (drop b s) with (drop (b - a) (drop a s))
    by (rewrite drop_drop; f_equal; lia).
  apply take_drop.
Qed.

Lemma split_loop_concat (s : list N) (spans : list (nat * nat)) :
  forall last_index,
    chained last_index (length s) spans ->
    concat (snd <$> split_loop s last_index spans) = drop last_index s.
Proof.
  induction spans as [|[a b] spans IH]; intros last_index Hch; cbn [split_loop].
  - destruct (Nat.ltb_spec last_index (length s)); cbn.
    + apply app_nil_r.
    + now rewrite drop_ge.
  - cbn in Hch. destruct Hch as (Hla & Hab & Hb & Hch).
    rewrite fmap_app, concat_app. cbn [fmap list_fmap concat snd].
    rewrite (IH _ Hch), slice_then_drop by assumption.
    destruct (Nat.ltb_spec last_index a); cbn [fmap list_fmap concat snd].
    + rewrite app_nil_r. apply slice_then_drop. lia.
    + cbn. f_equal. lia.
Qed.

Lemma split_loop_protected (s : list N) (spans : list (nat * nat)) :
  forall last_index,
    snd <$> List.filter fst (split_loop s last_index spans)
    = (fun sp => slice s (fst sp) (snd sp)) <$> spans.
Proof.
  induction spans as [|[a b] spans IH]; intros last_index; cbn [split_loop].
  - now destruct (last_index <? length s).
  - rewrite List.filter_app. cbn [List.filter fst]. rewrite fmap_app.
    cbn [fmap list_fmap snd fst]. rewrite IH.
    now destruct (last_index <? a).
Qed.

Lemma _split_by_brackets_chunks (s : list N) :
  concat (snd <$> _split_by_brackets s) = s
  /\ snd <$> List.filter fst (_split_by_brackets s)
     = (fun sp => slice s (fst sp) (snd sp)) <$> _find_bracket_spans s.
Proof.
  unfold _split_by_brackets.
  pose proof (finditer_from_chained BRACKET_SPAN_PATTERN s (2 * length s + 3) 0 false) as Hch.
  fold (finditer BRACKET_SPAN_PATTERN s) in Hch. fold (_find_bracket_spans s) in Hch.
  destruct (_find_bracket_spans s) as [|sp spans] eqn:Hsp.
  - split; [cbn; apply app_nil_r|reflexivity].
  - split; [apply (split_loop_concat s (sp :: spans) 0 Hch)|apply split_loop_protected].
Qed.

Lemma process_segments_results (mapping : gmap (list N) (list N)) (chunks : list (bool * list N)) :
  mapping <> ∅ ->
  forall out,
    process_segments mapping chunks = Ok out <->
    exists rs, Forall2 (chunk_result mapping (ordered_keys (mapping_keys mapping))) chunks rs
               /\ out = concat rs.
Proof.
  intros Hne. induction chunks as [|[prot chunk] chunks IH]; intros out;
    cbn [process_segments].
  - split.
    + intros [= <-]. exists []. split; [constructor|reflexivity].
    + intros (rs & HF & ->). inversion HF. reflexivity.
  - split.
    + destruct prot; cbn [bind].
      * destruct (process_segments mapping chunks) as [tail|e] eqn:Ht; [|discriminate].
        cbn [bind]. intros [= <-].
        destruct (proj1 (IH tail) eq_refl) as (rs & HF & ->).
        exists (chunk :: rs). split; [constructor; [reflexivity|assumption]|reflexivity].
      * destruct (_apply_to_segment chunk mapping) as [head|e] eqn:Hh; [|discriminate].
        cbn [bind].
        destruct (process_segments mapping chunks) as [tail|e] eqn:Ht; [|discriminate].
        cbn [bind]. intros [= <-].
        destruct (proj1 (IH tail) eq_refl) as (rs & HF & ->).
        exists (head :: rs). split; [|reflexivity].
        constructor; [|assumption]. unfold chunk_result. cbn [fst snd].
        now rewrite <- _apply_to_segment_sweeps.
    + intros (rs & HF & ->). inversion HF as [|c r chunks' rs' Hc HF']; subst.
      assert (Ht : process_segments mapping chunks = Ok (concat rs'))
        by (apply IH; eauto).
      rewrite Ht. unfold chunk_result in Hc. cbn [fst snd] in Hc.
      destruct prot.
      * subst r. reflexivity.
      * rewrite <- _apply_to_segment_sweeps in Hc by assumption. rewrite Hc. reflexivity.
Qed.

Lemma mapping_keys_spec (mapping : gmap (list N) (list N)) (key : list N) :
  NoDup (mapping_keys mapping)
  /\ (In key (mapping_keys mapping) <-> exists value, mapping !! key = Some value).
Proof.
  unfold mapping_keys. split; [apply NoDup_fst_map_to_list|].
  rewrite <- list_elem_of_In, list_elem_of_fmap. split.
  - intros ([k v] & -> & Hin). apply elem_of_map_to_list in Hin. eauto.
  - intros (v & Hv). exists (key, v). split; [reflexivity|].
    now apply elem_of_map_to_list.
Qed.

Lemma re_sub_template_ok (r : regex) (repl seg : list N) :
  contains_char (chr "\") repl = false ->
  exists out, re_sub_template r repl seg = Ok out.
Proof.
  intros Hb. unfold re_sub_template. rewrite Hb. cbn [bind]. unfold re_sub.
  apply sub_loop_ok. apply List.Forall_forall. intros m _. eauto.
Qed.

Lemma sweeps_ok (mapping : gmap (list N) (list N)) (keys : list (list N)) :
  (forall key value, mapping !! key = Some value -> contains_char (chr "\") value = false) ->
  forall seg, exists out, fold_left (sweep_key mapping) keys (Ok seg) = Ok out.
Proof.
  intros Hv. induction keys as [|key keys IH]; intros seg; cbn [fold_left]; [eauto|].
  unfold sweep_key at 2. cbn [bind].
  destruct (re_sub_template_ok (key_pattern key) (default [] (mapping !! key)) seg)
    as [seg' ->]; [|apply IH].
  destruct (mapping !! key) as [value|] eqn:Hk; [eauto|reflexivity].
Qed.

Lemma process_segments_ok (mapping : gmap (list N) (list N)) (chunks : list (bool * list N)) :
  (forall key value, mapping !! key = Some value -> contains_char (chr "\") value = false) ->
  exists out, process_segments mapping chunks = Ok out.
Proof.
  intros Hv. induction chunks as [|[prot chunk] chunks [tail IH]]; cbn [process_segments];
    [eauto|]. rewrite IH.
  destruct prot; cbn [bind]; [eauto|].
  unfold _apply_to_segment. destruct (bool_decide (mapping = ∅)); cbn [bind]; [eauto|].
  destruct (sweeps_ok mapping (ordered_keys (mapping_keys mapping)) Hv chunk) as [out Hout].
  unfold _build_replacement_patterns.
  assert (Hfold : forall keys acc,
            fold_left (sweep mapping) (map (fun key => (key, key_pattern key)) keys) acc
            = fold_left (sweep_key mapping) keys acc).
  { induction keys as [|k keys IHk]; intros acc; [reflexivity|]. cbn [map fold_left]. apply IHk. }
  rewrite Hfold, Hout. cbn [bind]. eauto.
Qed.

(** C8, as the code has it. An empty text and an empty mapping give the
    text back. Otherwise the text is cut into chunks by its bracket spans; a
    protected chunk is kept, and every other chunk is swept once for each key
    of the mapping, the longest key first and equally long keys in the order
    of their characters. A sweep replaces, from left to right, the
    occurrences of the key that have neither an ASCII letter, nor an ASCII
    digit, nor an apostrophe right before or right after them. The call
    returns when no value has a backslash. *)
Theorem apply_pronunciation_dict_sweeps (s : list N) (mapping : gmap (list N) (list N)) :
  let chunks := _split_by_brackets s in
  let keys := ordered_keys (mapping_keys mapping) in
  (s = [] \/ mapping = ∅ -> apply_pronunciation_dict s mapping = Ok s)
  /\ (concat (snd <$> chunks) = s
      /\ snd <$> List.filter fst chunks
         = (fun sp => slice s (fst sp) (snd sp)) <$> _find_bracket_spans s)
  /\ (keys ≡ₚ mapping_keys mapping /\ NoDup keys /\ StronglySorted key_le keys
      /\ forall a b, key_le a b
           <-> length b < length a \/ (length a = length b /\ text_leb a b = true))
  /\ (s <> [] -> mapping <> ∅ ->
      forall out,
        apply_pronunciation_dict s mapping = Ok out
        <-> exists rs, Forall2 (chunk_result mapping keys) chunks rs /\ out = concat rs)
  /\ (forall key seg i ma,
        match_at (key_pattern key) seg i ma
        = if (whole_word_at seg key i && (negb ma || negb (length key =? 0)))%bool
          then Some (RMatch i (i + length key) []) else None)
  /\ ((forall key value, mapping !! key = Some value ->
         contains_char (chr "\") value = false) ->
      exists out, apply_pronunciation_dict s mapping = Ok out).
Proof.
  cbv zeta. split; [|split; [apply _split_by_brackets_chunks|]].
  { unfold apply_pronunciation_dict. intros [->| ->]; [reflexivity|].
    rewrite bool_decide_eq_true_2 by reflexivity. now rewrite orb_true_r. }
  destruct (ordered_keys_sorted (mapping_keys mapping)) as [Hsorted Hperm].
  split; [|split; [|split]].
  - split; [exact Hperm|]. split; [|split; [exact Hsorted|apply key_le_spec]].
    rewrite Hperm. apply (mapping_keys_spec mapping []).
  - intros Hs Hm out. unfold apply_pronunciation_dict.
    rewrite bool_decide_eq_false_2 by assumption.
    destruct s as [|c s]; [contradiction|]. cbn [nonempty negb orb].
    now apply process_segments_results.
  - intros key seg i ma. apply match_at_key_pattern.
  - intros Hv. unfold apply_pronunciation_dict.
    destruct (_ || _)%bool; [eauto|]. now apply process_segments_ok.
Qed.

End Pronunciation.

(** C8, as stated, fails next to a letter that is not ASCII: the key
    [Zilog] is replaced in [Zilog] followed by the code point 233 (U+00E9,
    the letter e with an acute accent). *)
Lemma key_replaced_before_accented_letter :
  @apply_pronunciation_dict ascii_env (str "Zilog" ++ [233%N])
    {[ str "Zilog" := str "ZY-log" ]}
  = Ok (str "ZY-log" ++ [233%N]).
Proof. vm_compute. reflexivity. Qed.

(** The examples of C8. *)
Example pronunciation_examples :
  @apply_pronunciation_dict ascii_env (str "Zilog,") {[ str "Zilog" := str "ZY-log" ]}
    = Ok (str "ZY-log,")
  /\ @apply_pronunciation_dict ascii_env (str "Zilogic is different")
       {[ str "Zilog" := str "ZY-log" ]}
     = Ok (str "Zilogic is different")
  /\ @apply_pronunciation_dict ascii_env (str "Hello[laugh Zilog] Zilog's Zilog")
       {[ str "Zilog" := str "ZY-log" ]}
     = Ok (str "Hello[laugh Zilog] Zilog's ZY-log")
  /\ @apply_pronunciation_dict ascii_env (str "USA, US")
       (<[ str "USA" := str "US" ]> {[ str "US" := str "you ess" ]})
     = Ok (str "you ess, you ess")
  /\ ordered_keys (map str ["b"; "abc"; "a"; "ab"; "ba"; "B"]%string)
     = map str ["abc"; "ab"; "ba"; "B"; "a"; "b"]%string.
Proof. vm_compute. repeat split. Qed.

(** * Further properties of the code *)

(** ** Paragraph mode *)

Section Paragraphs.
Context {E : PyEnv}.

Lemma lstrip_by_app_stop (p : N -> bool) (x y : list N) (c : N) :
  p c = false -> lstrip_by p (x ++ c :: y) = lstrip_by p x ++ c :: y.
Proof.
  intros Hc. induction x as [|a x IH]; cbn; [now rewrite Hc|].
  destruct (p a); [apply IH|reflexivity].
Qed.

Lemma lstrip_by_head (p : N -> bool) (t : list N) :
  match lstrip_by p t with [] => True | c :: _ => p c = false end.
Proof.
  induction t as [|a t IH]; cbn; [exact I|].
  destruct (p a) eqn:Ha; [exact IH|exact Ha].
Qed.

Lemma lstrip_by_idem (p : N -> bool) (t : list N) :
  lstrip_by p (lstrip_by p t) = lstrip_by p t.
Proof.
  pose proof (lstrip_by_head p t) as H.
  destruct (lstrip_by p t) as [|c u]; [reflexivity|]. cbn. now rewrite H.
Qed.

Lemma rstrip_by_idem (p : N -> bool) (t : list N) :
  rstrip_by p (rstrip_by p t) = rstrip_by p t.
Proof. unfold rstrip_by. now rewrite rev_involutive, lstrip_by_idem. Qed.

(** Stripping twice is stripping once. *)
Lemma strip_idem (t : list N) : strip (strip t) = strip t.
Proof.
  unfold strip. set (u := lstrip_by uc_isspace t).
  assert (Hu : lstrip_by uc_isspace (rstrip_by uc_isspace u) = rstrip_by uc_isspace u).
  { pose proof (lstrip_by_head uc_isspace t) as H. fold u in H.
    destruct u as [|c u']; [reflexivity|].
    unfold rstrip_by. cbn [rev]. rewrite lstrip_by_app_stop, rev_app_distr by exact H.
    cbn. now rewrite H. }
  now rewrite Hu, rstrip_by_idem.
Qed.

Lemma has_nonspace_strip (t : list N) : has_nonspace (strip t) = has_nonspace t.
Proof. now rewrite <- !strip_nonempty, strip_idem. Qed.

(** Every paragraph kept by the loop is the [strip] of something. *)
Lemma paragraph_step_strips (lines : list (list N)) :
  forall st,
    Forall (fun p => exists x, p = strip x) (fst st) ->
    Forall (fun p => exists x, p = strip x) (fst (fold_left paragraph_step lines st)).
Proof.
  induction lines as [|line lines IH]; intros [paragraphs current] Hst; [exact Hst|].
  cbn [fold_left]. apply IH. unfold paragraph_step.
  destruct (text_eqb _ _); [|exact Hst].
  destruct (nonempty current); [|exact Hst].
  cbn [fst] in *. apply Forall_app. split; [exact Hst|].
  constructor; [|constructor]. unfold paragraph_of. eauto.
Qed.

Lemma split_paragraphs_strips (s : list N) :
  Forall (fun p => nonempty p = true /\ exists x, p = strip x) (split_paragraphs s).
Proof.
  unfold split_paragraphs.
  pose proof (paragraph_step_strips (splitlines s) ([], []) (Forall_nil_2 _)) as H.
  destruct (fold_left paragraph_step (splitlines s) ([], [])) as [paragraphs current].
  cbn [fst] in H.
  apply List.Forall_forall. intros p Hin. apply List.filter_In in Hin as [Hin Hp].
  split; [exact Hp|].
  destruct (nonempty current).
  - apply in_app_iff in Hin as [Hin|[<-|[]]].
    + rewrite List.Forall_forall in H. now apply H.
    + unfold paragraph_of. eauto.
  - rewrite List.Forall_forall in H. now apply H.
Qed.

(** X1. Paragraphs come back trimmed and never blank: a paragraph has a
    character that is not whitespace, and stripping it changes nothing. *)
Theorem split_paragraphs_trimmed (s : list N) :
  Forall (fun p => has_nonspace p = true /\ strip p = p) (split_paragraphs s).
Proof.
  eapply Forall_impl; [apply split_paragraphs_strips|].
  intros p [Hp [x ->]]. cbn beta. split.
  - now rewrite <- strip_nonempty, strip_idem.
  - apply strip_idem.
Qed.

Lemma splitlines_from_Forall (P : N -> Prop) (s : list N) :
  forall line, Forall P line -> Forall P s -> Forall (Forall P) (splitlines_from line s).
Proof.
  remember (length s) as n eqn:Hn. revert s Hn.
  induction n as [n IH] using lt_wf_ind. intros s Hn line Hline Hs.
  destruct s as [|c s']; cbn [splitlines_from].
  - destruct (nonempty line); [constructor; [exact Hline|constructor]|constructor].
  - apply Forall_cons in Hs as [Hc Hs]. cbn [length] in Hn.
    destruct (is_linebreak c).
    + constructor; [exact Hline|].
      destruct s' as [|c' s''].
      * cbn. constructor.
      * destruct (_ && _)%bool.
        -- apply Forall_cons in Hs as [_ Hs].
           eapply (IH (length s'')); [cbn in Hn; lia|reflexivity|constructor|exact Hs].
        -- eapply (IH (length (c' :: s''))); [lia|reflexivity|constructor|exact Hs].
    + eapply (IH (length s')); [lia|reflexivity| |exact Hs].
      apply Forall_app. split; [exact Hline|]. constructor; [exact Hc|constructor].
Qed.

Lemma strip_blank (line : list N) :
  Forall (fun c => uc_isspace c = true) line -> strip line = [].
Proof.
  intros H. assert (Hn : nonempty (strip line) = false).
  { rewrite strip_nonempty. unfold has_nonspace.
    induction H as [|c line Hc _ IH]; [reflexivity|]. cbn. now rewrite Hc. }
  now destruct (strip line).
Qed.

(** X2. A text of whitespace only has no paragraph. *)
Theorem split_paragraphs_blank (s : list N) :
  forallb uc_isspace s = true -> split_paragraphs s = [].
Proof.
  intros Hs. rewrite forallb_forall, <- List.Forall_forall in Hs.
  pose proof (splitlines_from_Forall _ s [] (Forall_nil_2 _) Hs) as Hl.
  unfold split_paragraphs. fold (splitlines s) in Hl.
  assert (Hfold : fold_left paragraph_step (splitlines s) ([], []) = ([], [])).
  { induction Hl as [|line lines Hline _ IH]; [reflexivity|].
    cbn [fold_left]. unfold paragraph_step at 2.
    rewrite (strip_blank line Hline). exact IH. }
  now rewrite Hfold.
Qed.

Lemma build_segments_from_spoken (paragraphs assignments : list (list N))
    (default_voice : list N) :
  Forall (fun p => has_nonspace p = true) paragraphs ->
  forall idx,
    build_segments_from idx paragraphs assignments default_voice
    = imap (fun i p => Segment (Some (assigned_voice assignments default_voice (idx + i))) p)
           paragraphs.
Proof.
  induction 1 as [|p ps Hp _ IH]; intros idx; [reflexivity|].
  cbn [build_segments_from imap]. rewrite strip_nonempty, Hp. cbn [negb].
  rewrite Nat.add_0_r, IH. f_equal. apply imap_ext. intros i x _. cbn.
  now replace (idx + S i) with (S (idx + i)) by lia.
Qed.

(** X3. Paragraph mode end to end: the text is cut into paragraphs and every
    paragraph becomes one segment, none is skipped; the paragraph of index
    [i] gets the voice assigned at index [i] if there is one and it is not
    empty, the default voice otherwise. *)
Theorem paragraphs_to_segments (s : list N) (assignments : list (list N))
    (default_voice : list N) :
  build_segments_from_paragraphs (split_paragraphs s) assignments default_voice
  = imap (fun i p => Segment (Some (assigned_voice assignments default_voice i)) p)
         (split_paragraphs s).
Proof.
  unfold build_segments_from_paragraphs. apply build_segments_from_spoken.
  eapply Forall_impl; [apply split_paragraphs_strips|].
  intros p [Hp [x ->]]. cbn beta. now rewrite <- strip_nonempty, strip_idem.
Qed.

(** X4. Whatever the list of paragraphs: the segments are the paragraphs that
    are not blank, in order, and the voice of a segment is the default voice
    or an assignment that is not empty. *)
Theorem build_segments_from_paragraphs_voices (paragraphs assignments : list (list N))
    (default_voice : list N) :
  let segments := build_segments_from_paragraphs paragraphs assignments default_voice in
  seg_text <$> segments = List.filter has_nonspace paragraphs
  /\ Forall (fun seg => exists v, voice_id seg = Some v
                                  /\ (v = default_voice \/ (v <> [] /\ In v assignments)))
            segments.
Proof.
  cbn zeta. unfold build_segments_from_paragraphs. generalize 0 as idx.
  induction paragraphs as [|p ps IH]; intros idx; [split; [reflexivity|constructor]|].
  cbn [build_segments_from List.filter]. rewrite strip_nonempty.
  destruct (IH (S idx)) as [IH1 IH2].
  destruct (has_nonspace p); cbn [negb]; [|now split].
  split; [cbn; now rewrite <- IH1|].
  constructor; [|exact IH2]. cbn [voice_id]. eexists. split; [reflexivity|].
  unfold assigned_voice. destruct (assignments !! idx) as [v|] eqn:Hv; [|now left].
  destruct v as [|c v]; [now left|]. right. split; [discriminate|].
  apply list_elem_of_lookup_2 in Hv. now apply list_elem_of_In.
Qed.

End Paragraphs.

(** split_paragraphs on text of whitespace only, run. *)
Lemma split_paragraphs_blank_witness :
  @split_paragraphs ascii_env (str "  " ++ [10; 9; 10]%N ++ str " ") = [].
Proof. apply split_paragraphs_blank. reflexivity. Defined.

(** ** Bracket spans of any text *)

Section AnyBrackets.
Context {E : PyEnv}.

Lemma chained_weaken (lo hi hi' : nat) (spans : list (nat * nat)) :
  hi <= hi' -> chained lo hi spans -> chained lo hi' spans.
Proof.
  intros Hhi. revert lo. induction spans as [|sp spans IH]; intros lo; [auto|].
  cbn [chained]. intros (H1 & H2 & H3 & H4). repeat split; [lia..|auto].
Qed.

Lemma chained_snoc (lo b hi x y : nat) (spans : list (nat * nat)) :
  chained lo b spans -> lo <= x -> b <= x -> x <= y -> y <= hi ->
  chained lo hi (spans ++ [(x, y)]).
Proof.
  revert lo. induction spans as [|sp spans IH]; intros lo Hc Hlo Hb Hxy Hy.
  - cbn. repeat split; lia.
  - cbn [chained app] in *. destruct Hc as (H1 & H2 & H3 & H4).
    repeat split; [lia..|]. apply IH; [exact H4|lia..].
Qed.

Lemma bracketed_app (pre rest : list N) (sp : nat * nat) :
  bracketed pre sp -> bracketed (pre ++ rest) sp.
Proof.
  intros (H1 & H2 & H3). repeat split; [exact H1|..].
  - rewrite lookup_app_l; [exact H2|]. now apply lookup_lt_Some in H2.
  - rewrite lookup_app_l; [exact H3|]. now apply lookup_lt_Some in H3.
Qed.

Lemma br_step_inv (pre : list N) (st : br_state) (ch : N) :
  br_inv pre st -> br_inv (pre ++ [ch]) (br_step st (length pre) ch).
Proof.
  intros (Hc & Hb & Hs).
  assert (Hb' : Forall (bracketed (pre ++ [ch])) (br_ranges st)).
  { eapply Forall_impl; [exact Hb|]. intros sp. apply bracketed_app. }
  assert (Hlen : length (pre ++ [ch]) = S (length pre)).
  { rewrite length_app. cbn. lia. }
  unfold br_step, br_inv.
  destruct (ch_eqb ch (chr "[")) eqn:Hopen.
  - apply N.eqb_eq in Hopen. subst ch. cbn [br_ranges br_start br_depth].
    destruct (br_start st) as [a|].
    + destruct Hs as (Ha & Hla & Hd).
      replace (br_depth st =? 0) with false by (symmetry; apply Nat.eqb_neq; lia).
      repeat split; [exact Hc|exact Hb'|lia| |lia].
      rewrite lookup_app_l; [exact Hla|exact Ha].
    + rewrite Hs. cbn [Nat.eqb].
      repeat split; [exact Hc|exact Hb'|lia| |lia].
      rewrite lookup_app_r by lia. now rewrite Nat.sub_diag.
  - destruct (ch_eqb ch (chr "]") && (0 <? br_depth st))%bool eqn:Hclose.
    + apply andb_true_iff in Hclose as [Hch Hd].
      apply N.eqb_eq in Hch. subst ch. apply Nat.ltb_lt in Hd.
      destruct (br_start st) as [a|] eqn:Hst; [|lia].
      destruct Hs as (Ha & Hla & _).
      destruct (br_depth st - 1 =? 0) eqn:Hz; cbn [br_ranges br_start br_depth].
      * apply Nat.eqb_eq in Hz. repeat split; [| |exact Hz].
        -- eapply chained_snoc; [exact Hc|lia..].
        -- apply Forall_app. split; [exact Hb'|]. constructor; [|constructor].
           repeat split; cbn [fst snd]; [lia| |].
           ++ rewrite lookup_app_l; [exact Hla|exact Ha].
           ++ replace (length pre + 1 - 1) with (length pre) by lia.
              rewrite lookup_app_r by lia. now rewrite Nat.sub_diag.
      * apply Nat.eqb_neq in Hz.
        repeat split; [exact Hc|exact Hb'|lia| |lia].
        rewrite lookup_app_l; [exact Hla|exact Ha].
    + destruct (br_start st) as [a|].
      * destruct Hs as (Ha & Hla & Hd).
        repeat split; [exact Hc|exact Hb'|lia| |lia].
        rewrite lookup_app_l; [exact Hla|exact Ha].
      * repeat split; [|exact Hb'|exact Hs].
        eapply chained_weaken; [|exact Hc]. lia.
Qed.

Lemma br_loop_inv (rest : list N) :
  forall pre st, br_inv pre st -> br_inv (pre ++ rest) (br_loop st (length pre) rest).
Proof.
  induction rest as [|ch rest IH]; intros pre st Hinv.
  - now rewrite app_nil_r.
  - cbn [br_loop]. replace (pre ++ ch :: rest) with ((pre ++ [ch]) ++ rest)
      by now rewrite <- app_assoc.
    replace (S (length pre)) with (length (pre ++ [ch])) by (rewrite length_app; cbn; lia).
    apply IH. now apply br_step_inv.
Qed.

Lemma _find_bracket_ranges_inv (s : list N) :
  br_inv s (br_loop (BrState [] None 0) 0 s).
Proof.
  apply (br_loop_inv s [] (BrState [] None 0)).
  repeat split; constructor.
Qed.

(** X5. The ranges of the depth tracker, for any text, balanced or not: they
    come in order, do not overlap, lie in the text, and each one starts
    with an opening bracket and ends with a closing bracket. *)
Theorem find_bracket_ranges_bracketed (s : list N) :
  chained 0 (length s) (_find_bracket_ranges s)
  /\ Forall (bracketed s) (_find_bracket_ranges s).
Proof.
  destruct (_find_bracket_ranges_inv s) as (Hc & Hb & Hs).
  split; [|exact Hb]. unfold _find_bracket_ranges.
  destruct (br_start _) as [a|]; [|exact Hc].
  eapply chained_weaken; [|exact Hc]. lia.
Qed.

Lemma finditer_from_none (r : regex) (s : list N) :
  (forall i ma, i <= length s -> match_at r s i ma = None) ->
  forall fuel i ma, finditer_from r s fuel i ma = [].
Proof.
  intros Hnone. induction fuel as [|fuel IH]; intros i ma; [reflexivity|].
  cbn [finditer_from]. destruct (Nat.ltb_spec (length s) i); [reflexivity|].
  rewrite Hnone by lia. apply IH.
Qed.

Lemma contains_char_lookup (c : N) (s : list N) (k : nat) :
  contains_char c s = false -> opt_test (ch_eqb c) (s !! k) = false.
Proof.
  unfold contains_char. revert k. induction s as [|a s IH]; intros k H; [reflexivity|].
  cbn in H. apply orb_false_iff in H as [Ha Hs].
  destruct k as [|k]; [exact Ha|]. now apply IH.
Qed.

(** X6. An opening bracket that is never closed protects nothing: in a text
    without a closing bracket none of the span finders of the pipeline
    finds a span. *)
Theorem no_span_without_closing_bracket (s : list N) :
  contains_char (chr "]") s = false ->
  _find_bracket_ranges s = []
  /\ _find_protected_spans s = []
  /\ _find_bracket_spans s = []
  /\ _find_spans BRACKET_TOKEN_PATTERN s = [].
Proof.
  intros Hs.
  assert (Hclose : forall k, opt_test is_close (s !! k) = false).
  { intros k. now apply contains_char_lookup. }
  assert (Hp : finditer protected_span_re s = []).
  { apply finditer_from_none. intros i ma _. rewrite match_at_protected.
    unfold protected_end. now rewrite Hclose, andb_false_r. }
  repeat split.
  - destruct (_find_bracket_ranges_inv s) as (_ & Hb & _).
    fold (_find_bracket_ranges s) in Hb.
    destruct (_find_bracket_ranges s) as [|sp l]; [reflexivity|].
    apply Forall_cons in Hb as [(_ & _ & Hsp) _].
    specialize (Hclose (snd sp - 1)). rewrite Hsp in Hclose. discriminate.
  - unfold _find_protected_spans. now rewrite Hp.
  - unfold _find_bracket_spans, BRACKET_SPAN_PATTERN. now rewrite Hp.
  - unfold _find_spans, finditer. rewrite (finditer_from_none BRACKET_TOKEN_PATTERN s); [reflexivity|].
    intros i ma _. rewrite match_at_token.
    unfold token_end. now rewrite Hclose, andb_false_r.
Qed.

(** X7. The spans that the two normalisers protect, for any text: in order,
    not overlapping, inside the text, from an opening bracket to the first
    closing bracket after it. The bracket tokens of the annotator are such
    spans too, with no bracket at all between the two and at least one
    character there. *)
Theorem protected_spans_shape (s : list N) :
  (chained 0 (length s) (_find_protected_spans s)
   /\ Forall (fun sp => bracketed s sp /\ body_of_class not_close s sp)
             (_find_protected_spans s))
  /\ (chained 0 (length s) (_find_spans BRACKET_TOKEN_PATTERN s)
      /\ Forall (fun sp => bracketed s sp /\ body_of_class not_bracket s sp
                           /\ fst sp + 2 < snd sp)
                (_find_spans BRACKET_TOKEN_PATTERN s)).
Proof.
  split; (split; [apply finditer_from_chained|]).
  - unfold _find_protected_spans, spans_of. apply List.Forall_forall.
    intros sp Hin. apply in_map_iff in Hin as (m & <- & Hin).
    apply finditer_from_match_at in Hin as (i & ma & Hi & Hm).
    rewrite match_at_protected in Hm. unfold protected_end in Hm.
    set (e := S i + run s not_close (S i)) in *.
    destruct (_ && _)%bool eqn:Hb; [|discriminate].
    injection Hm as <-. apply andb_true_iff in Hb as [Hopen Hclose].
    unfold bracketed, body_of_class. cbn [m_start m_end fst snd].
    replace (S e - 1) with e by lia.
    repeat split.
    + lia.
    + destruct (s !! i) as [c|]; [|discriminate]. apply N.eqb_eq in Hopen. now subst c.
    + destruct (s !! e) as [c|]; [|discriminate]. apply N.eqb_eq in Hclose. now subst c.
    + intros k Hk.
      destruct (run_in s not_close (S i) (k - S i)) as (c & Hc & Hnc); [lia|].
      replace (S i + (k - S i)) with k in Hc by lia. now rewrite Hc.
  - unfold _find_spans, spans_of. apply List.Forall_forall.
    intros sp Hin. apply in_map_iff in Hin as (m & <- & Hin).
    apply finditer_from_match_at in Hin as (i & ma & Hi & Hm).
    rewrite match_at_token in Hm. unfold token_end in Hm.
    set (e := S (S i) + run s not_bracket (S (S i))) in *.
    destruct (_ && _)%bool eqn:Hb; [|discriminate].
    injection Hm as <-.
    apply andb_true_iff in Hb as [Hb Hclose]. apply andb_true_iff in Hb as [Hopen Hfirst].
    unfold bracketed, body_of_class. cbn [m_start m_end fst snd].
    replace (S e - 1) with e by lia.
    repeat split.
    + lia.
    + destruct (s !! i) as [c|]; [|discriminate]. apply N.eqb_eq in Hopen. now subst c.
    + destruct (s !! e) as [c|]; [|discriminate]. apply N.eqb_eq in Hclose. now subst c.
    + intros k Hk.
      destruct (Nat.eq_dec k (S i)) as [->|Hne]; [exact Hfirst|].
      destruct (run_in s not_bracket (S (S i)) (k - S (S i))) as (c & Hc & Hnc); [lia|].
      replace (S (S i) + (k - S (S i))) with k in Hc by lia. now rewrite Hc.
    + lia.
Qed.

End AnyBrackets.

(** A text with an opening bracket that is never closed, run. *)
Lemma no_span_without_closing_bracket_witness :
  _find_bracket_ranges (str "Hello [laugh world") = []
  /\ _find_protected_spans (str "Hello [laugh world") = []
  /\ _find_bracket_spans (str "Hello [laugh world") = []
  /\ _find_spans BRACKET_TOKEN_PATTERN (str "Hello [laugh world") = [].
Proof. apply no_span_without_closing_bracket. reflexivity. Defined.

(** ** How a duration depends on the settings *)

Section DurationOrder.
Context {E : PyEnv}.

Lemma _clamp_mono (v1 v2 lo hi : Q) :
  (v1 <= v2)%Q -> (_clamp v1 lo hi <= _clamp v2 lo hi)%Q.
Proof.
  intros Hv. unfold _clamp, py_max, py_min.
  destruct (Qlt_le_dec v1 hi), (Qlt_le_dec v2 hi);
    repeat match goal with |- context [Qlt_le_dec ?a ?b] => destruct (Qlt_le_dec a b) end;
    lra.
Qed.

Lemma py_max_speed (speed : Q) : (0.2 <= py_max speed 0.2)%Q.
Proof. unfold py_max. destruct (Qlt_le_dec speed 0.2); lra. Qed.

Lemma py_max_speed_mono (speed1 speed2 : Q) :
  (speed2 <= speed1)%Q -> (py_max speed2 0.2 <= py_max speed1 0.2)%Q.
Proof.
  intros H. unfold py_max.
  destruct (Qlt_le_dec speed1 0.2), (Qlt_le_dec speed2 0.2); lra.
Qed.

Lemma base_of_nonneg (sb : style_base) (b : boundary) : (0 <= base_of sb b)%Q.
Proof. destruct sb as [[]|], b; cbn [base_of BASE_PAUSES]; lra. Qed.

(** The last step of [_compute_pause_seconds] keeps the order. *)
Lemma _compute_pause_seconds_mono b pc pc' sb sb' speed speed' strength strength'
    topup lo hi w nw :
  (unclamped_pause b pc sb speed strength w nw
   <= unclamped_pause b pc' sb' speed' strength' w nw)%Q ->
  (_compute_pause_seconds b pc sb speed strength topup lo hi w nw
   <= _compute_pause_seconds b pc' sb' speed' strength' topup lo hi w nw)%Q.
Proof.
  intros Hu. unfold _compute_pause_seconds. cbv zeta.
  pose proof (_clamp_mono _ _ lo hi Hu) as Hc.
  destruct (_ && _)%bool; lra.
Qed.

Lemma div_speed_nonneg (base speed : Q) :
  (0 <= base)%Q -> (0 <= base / py_max speed 0.2)%Q.
Proof.
  intros Hb. pose proof (py_max_speed speed) as Hm.
  apply Qle_shift_div_l; lra.
Qed.

(** X8. More strength never shortens a pause and more speed never lengthens
    it (for a strength that is not negative), whatever the boundary, the
    style and the bounds. *)
Theorem pause_grows_with_strength_and_slowness b pc sb speed1 speed2 strength1 strength2
    topup lo hi w nw :
  (speed2 <= speed1)%Q -> (0 <= strength1)%Q -> (strength1 <= strength2)%Q ->
  (_compute_pause_seconds b pc sb speed1 strength1 topup lo hi w nw
   <= _compute_pause_seconds b pc sb speed2 strength2 topup lo hi w nw)%Q.
Proof.
  intros Hspeed H0 Hstrength. apply _compute_pause_seconds_mono.
  rewrite !unclamped_pause_split.
  pose proof (base_of_nonneg sb b) as Hb.
  pose proof (py_max_speed speed1) as Hm1. pose proof (py_max_speed speed2) as Hm2.
  pose proof (py_max_speed_mono _ _ Hspeed) as Hm.
  set (m1 := py_max speed1 0.2) in *. set (m2 := py_max speed2 0.2) in *.
  assert (H1 : (0 <= base_of sb b / m1)%Q) by (apply Qle_shift_div_l; lra).
  assert (H2 : (base_of sb b / m1 <= base_of sb b / m2)%Q).
  { apply Qle_shift_div_l; [lra|].
    apply Qle_trans with (base_of sb b / m1 * m1)%Q.
    - apply Qmult_le_compat_nonneg; split; lra.
    - rewrite Qmult_comm, Qmult_div_r; lra. }
  assert (H3 : (base_of sb b / m1 * strength1 <= base_of sb b / m2 * strength2)%Q).
  { apply Qmult_le_compat_nonneg; split; assumption. }
  lra.
Qed.

(** X9. The styles are ordered: with the same settings (and a strength that is
    not negative) a boundary gets its shortest pause in the style [ad], a
    longer or equal one in [youtube], then [audiobook], and its longest in
    [dramatic]. *)
Theorem pause_grows_with_style b pc speed strength topup lo hi w nw :
  (0 <= strength)%Q ->
  let pause sb := _compute_pause_seconds b pc sb speed strength topup lo hi w nw in
  (pause (Shared ad) <= pause (Shared youtube))%Q
  /\ (pause (Shared youtube) <= pause (Shared audiobook))%Q
  /\ (pause (Shared audiobook) <= pause DramaticCopy)%Q.
Proof.
  intros Hs. cbv zeta.
  assert (Hmono : forall sb sb',
            (forall k, base_of sb k <= base_of sb' k)%Q ->
            (forall k, marker_bump sb k <= marker_bump sb' k)%Q ->
            (_compute_pause_seconds b pc sb speed strength topup lo hi w nw
             <= _compute_pause_seconds b pc sb' speed strength topup lo hi w nw)%Q).
  { intros sb sb' Hbase Hbump. apply _compute_pause_seconds_mono.
    rewrite !unclamped_pause_split.
    pose proof (py_max_speed speed) as Hm.
    assert (H1 : (base_of sb b / py_max speed 0.2 * strength
                  <= base_of sb' b / py_max speed 0.2 * strength)%Q).
    { apply Qmult_le_compat_r; [|exact Hs]. unfold Qdiv.
      apply Qmult_le_compat_r; [apply Hbase|].
      apply Qinv_le_0_compat. lra. }
    assert (H2 : (additive_terms b pc sb w nw <= additive_terms b pc sb' w nw)%Q).
    { unfold additive_terms. specialize (Hbump b).
      destruct (_ && _)%bool; lra. }
    lra. }
  repeat split; apply Hmono; intros k; destruct k; cbn [base_of BASE_PAUSES marker_bump]; lra.
Qed.

(** X10. The cap is kept: with [min_pause <= max_pause] and a cap that is not
    negative, no duration exceeds [max_pause]; and with a floor above zero
    every duration is above zero, so that no eligible boundary is left
    without its tag. *)
Theorem pause_within_cap b pc sb speed strength topup lo hi w nw :
  (lo <= hi)%Q -> (0 <= hi)%Q ->
  let pause := _compute_pause_seconds b pc sb speed strength topup lo hi w nw in
  (pause <= hi)%Q /\ ((0 < lo)%Q -> Qgtb0 pause = true).
Proof.
  intros Hle Hhi. cbv zeta.
  destruct (_compute_pause_seconds_clamped b pc sb speed strength topup lo hi w nw Hle)
    as (v & Hv & ->).
  split.
  - destruct (conservative topup b); lra.
  - intros Hlo. unfold Qgtb0.
    destruct (Qlt_le_dec 0 _) as [|Hn]; [reflexivity|].
    destruct (conservative topup b); lra.
Qed.

End DurationOrder.

Lemma pause_grows_with_strength_and_slowness_witness :
  (@_compute_pause_seconds ascii_env sentence_end (Some (chr ".")) (Shared audiobook)
     2 1 false 0.04 1.8 (Some 2%Z) []
   <= @_compute_pause_seconds ascii_env sentence_end (Some (chr ".")) (Shared audiobook)
        1 1.5 false 0.04 1.8 (Some 2%Z) [])%Q.
Proof. apply pause_grows_with_strength_and_slowness; lra. Defined.

Lemma pause_grows_with_style_witness :
  (@_compute_pause_seconds ascii_env comma (Some (chr ",")) (Shared ad)
     1 1 true 0.04 1.8 None (str "but")
   <= @_compute_pause_seconds ascii_env comma (Some (chr ",")) (Shared youtube)
        1 1 true 0.04 1.8 None (str "but"))%Q.
Proof.
  apply (@pause_grows_with_style ascii_env comma (Some (chr ",")) 1 1 true 0.04 1.8 None
           (str "but")).
  lra.
Defined.

Lemma pause_within_cap_witness :
  (@_compute_pause_seconds ascii_env paragraph None DramaticCopy 0.25 2 true 0.04 1.8 None []
   <= 1.8)%Q.
Proof.
  apply (@pause_within_cap ascii_env paragraph None DramaticCopy 0.25 2 true 0.04 1.8 None []);
    lra.
Defined.

(** ** Where the tags go *)

Section Positions.
Context {E : PyEnv}.

Lemma skip_quotes_bounds (s : list N) (end_ fuel : nat) :
  forall pos, pos <= end_ -> pos <= skip_quotes s end_ fuel pos <= end_.
Proof.
  induction fuel as [|fuel IH]; intros pos Hpos; cbn [skip_quotes]; [lia|].
  destruct (_ && _)%bool eqn:Hc; [|lia].
  apply andb_true_iff in Hc as [Hlt _]. apply Nat.ltb_lt in Hlt.
  specialize (IH (S pos)). lia.
Qed.

(** A match of the paragraph pattern is not empty. *)
Lemma paragraph_match_advances (s : list N) (i : nat) (ma : bool) (m : rmatch) :
  match_at paragraph_pattern s i ma = Some m -> m_start m < m_end m.
Proof.
  unfold match_at. destruct (List.find _ _) as [st|] eqn:Hf; [|discriminate].
  intros [= <-]. cbn [m_start m_end].
  apply find_some in Hf as [Hin _].
  unfold paragraph_pattern in Hin. rewrite ends_seq in Hin.
  apply in_flat_map in Hin as (mid & Hmid & Hin).
  apply ends_set_In in Hmid as [-> _].
  apply ends_advances in Hin as [Hle _]. cbn [ms_pos] in Hle. lia.
Qed.

Variables (s : list N) (bracket_spans manual_pause_spans : list (nat * nat)).
Variables (sb : style_base) (speed_factor strength : Q) (topup_only : bool).
Variables (min_pause max_pause : Q).

(** The insertions of a stretch of the text: no two at the same offset,
    each one after [lo], not after [hi] and away from the manual pause
    tags. *)
Let placed (lo hi : nat) (ins : list (nat * list N)) : Prop :=
  NoDup (fst <$> ins)
  /\ Forall (fun x => lo < fst x <= hi
                      /\ _has_manual_pause_near (fst x) manual_pause_spans = false) ins.

Lemma boundary_insertion_placed start end_ idx c b w ins :
  start <= idx < end_ -> placed start end_ ins ->
  placed start end_
    (boundary_insertion s bracket_spans manual_pause_spans sb speed_factor strength
       topup_only min_pause max_pause end_ idx c b w ins).
Proof.
  intros Hidx [Hnd Hall]. unfold boundary_insertion. cbv zeta.
  pose proof (skip_quotes_bounds s end_ (length s) (idx + 1)) as Hb.
  set (pos := skip_quotes s end_ (length s) (idx + 1)) in *.
  destruct (_ || _)%bool; [now split|].
  destruct (_has_manual_pause_near pos _) eqn:Hm; [now split|].
  destruct (_ && _)%bool eqn:Hc; [|now split].
  apply andb_true_iff in Hc as [_ Hnew]. apply negb_true_iff in Hnew.
  split.
  - rewrite fmap_app. apply NoDup_app. split; [exact Hnd|].
    split; [|apply NoDup_singleton].
    intros p Hp Hq. cbn in Hq. apply list_elem_of_singleton in Hq. subst p.
    apply list_elem_of_fmap in Hp as (x & Hx & Hin). apply list_elem_of_In in Hin.
    assert (Hex : existsb (fun ins => fst ins =? pos) ins = true).
    { apply existsb_exists. exists x. split; [exact Hin|]. apply Nat.eqb_eq. now rewrite Hx. }
    congruence.
  - apply Forall_app. split; [exact Hall|]. constructor; [|constructor].
    cbn [fst]. split; [lia|exact Hm].
Qed.

Lemma scan_step_placed start end_ dashes idx st :
  start <= idx < end_ -> placed start end_ (insertions st) ->
  placed start end_
    (insertions (scan_step s bracket_spans manual_pause_spans sb speed_factor strength
                   topup_only min_pause max_pause start end_ dashes idx st)).
Proof.
  intros Hidx Hst. unfold scan_step.
  destruct (s !! idx) as [c|]; [|assumption].
  destruct (_inside_spans idx bracket_spans); [assumption|].
  destruct (classify s start end_ dashes idx c) as [[[b|] ns]|]; cbn [insertions];
    try assumption.
  now apply boundary_insertion_placed.
Qed.

Lemma scan_loop_placed start end_ dashes n :
  forall idx st,
    start <= idx -> idx + n <= end_ -> placed start end_ (insertions st) ->
    placed start end_
      (insertions (scan_loop s bracket_spans manual_pause_spans sb speed_factor strength
                     topup_only min_pause max_pause start end_ dashes n idx st)).
Proof.
  induction n as [|n IH]; intros idx st Hlo Hhi Hst; [assumption|].
  cbn [scan_loop]. apply IH; [lia..|]. apply scan_step_placed; [lia|exact Hst].
Qed.

Lemma _collect_boundaries_for_segment_placed start end_ :
  placed start end_
    (_collect_boundaries_for_segment s bracket_spans manual_pause_spans sb speed_factor
       strength topup_only min_pause max_pause start end_).
Proof.
  unfold _collect_boundaries_for_segment. cbv zeta.
  destruct (le_lt_dec start end_) as [Hle|Hlt].
  - apply scan_loop_placed; [lia..|]. split; constructor.
  - replace (end_ - start) with 0 by lia. split; constructor.
Qed.

Lemma placed_weaken lo hi lo' hi' ins :
  lo' <= lo -> hi <= hi' -> placed lo hi ins -> placed lo' hi' ins.
Proof.
  intros Hlo Hhi [Hnd Hall]. split; [exact Hnd|].
  eapply Forall_impl; [exact Hall|]. intros x [Hx Hm]. split; [lia|exact Hm].
Qed.

Lemma placed_app lo mid hi ins1 ins2 :
  placed lo mid ins1 -> placed mid hi ins2 -> lo <= mid <= hi ->
  placed lo hi (ins1 ++ ins2).
Proof.
  intros [Hnd1 Hall1] [Hnd2 Hall2] Hmid. split.
  - rewrite fmap_app. apply NoDup_app. split; [exact Hnd1|]. split; [|exact Hnd2].
    intros p Hp1 Hp2.
    apply list_elem_of_fmap in Hp1 as (x1 & -> & Hin1).
    apply list_elem_of_fmap in Hp2 as (x2 & Heq & Hin2).
    rewrite List.Forall_forall in Hall1, Hall2.
    apply list_elem_of_In in Hin1, Hin2.
    apply Hall1 in Hin1 as [H1 _]. apply Hall2 in Hin2 as [H2 _]. lia.
  - apply Forall_app. split.
    + eapply Forall_impl; [exact Hall1|]. intros x [Hx Hm]. split; [lia|exact Hm].
    + eapply Forall_impl; [exact Hall2|]. intros x [Hx Hm]. split; [lia|exact Hm].
Qed.

Lemma paragraph_insertion_placed lo boundary_pos :
  lo < boundary_pos ->
  placed lo boundary_pos
    (paragraph_insertion s bracket_spans manual_pause_spans sb speed_factor strength
       topup_only min_pause max_pause boundary_pos).
Proof.
  intros Hlo. unfold paragraph_insertion. cbv zeta.
  destruct (_ && _)%bool eqn:Hc; [|split; constructor].
  apply andb_true_iff in Hc as [_ Hm]. apply negb_true_iff in Hm.
  destruct (Qgtb0 _); [|split; constructor].
  split; [apply NoDup_singleton|]. constructor; [|constructor].
  cbn [fst]. split; [lia|exact Hm].
Qed.

Lemma paragraph_loop_placed para_matches :
  Forall (fun m => m_start m < m_end m) para_matches ->
  forall para_start,
    para_start <= length s ->
    chained para_start (length s) (spans_of para_matches) ->
    placed para_start (length s)
      (paragraph_loop s bracket_spans manual_pause_spans sb speed_factor strength
         topup_only min_pause max_pause para_matches para_start).
Proof.
  induction 1 as [|m ms Hm _ IH]; intros para_start Hstart Hch; cbn [paragraph_loop].
  - apply _collect_boundaries_for_segment_placed.
  - cbn [spans_of map chained fst snd] in Hch. destruct Hch as (H1 & H2 & H3 & H4).
    apply (placed_app _ (m_start m)); [| |lia].
    + apply _collect_boundaries_for_segment_placed.
    + apply (placed_app _ (m_end m)); [| |lia].
      * now apply paragraph_insertion_placed.
      * apply IH; [lia|exact H4].
Qed.

End Positions.

#[local] Existing Instance span_le_dec.

Lemma collect_insertions_placed {E : PyEnv} (s style : list N) (speed_factor strength : Q)
    (topup_only : bool) (min_pause max_pause : Q) :
  let ins := collect_insertions s style speed_factor strength topup_only min_pause max_pause in
  let manual_pause_spans :=
    merge_sort span_le
      (_find_spans MANUAL_PAUSE_CANONICAL_PATTERN s
         ++ _find_spans MANUAL_PAUSE_SHORTHAND_PATTERN s) in
  NoDup (fst <$> ins)
  /\ Forall (fun x => 0 < fst x <= length s
                      /\ _has_manual_pause_near (fst x) manual_pause_spans = false) ins.
Proof.
  cbv zeta. unfold collect_insertions. cbv zeta.
  apply paragraph_loop_placed; [|lia|apply finditer_from_chained].
  apply List.Forall_forall. intros m Hin.
  apply finditer_from_match_at in Hin as (i & ma & _ & Hm).
  now apply paragraph_match_advances in Hm.
Qed.

(** X11. No two tags are inserted at the same offset, and none at the very
    start of the text or beyond its end. *)
Theorem insertion_offsets_unique {E : PyEnv} (s style : list N) (speed_factor strength : Q)
    (topup_only : bool) (min_pause max_pause : Q) :
  let ins := collect_insertions s style speed_factor strength topup_only min_pause max_pause in
  NoDup (fst <$> ins) /\ Forall (fun x => 0 < fst x <= length s) ins.
Proof.
  cbv zeta.
  destruct (collect_insertions_placed s style speed_factor strength topup_only
              min_pause max_pause) as [Hnd Hall].
  split; [exact Hnd|]. eapply Forall_impl; [exact Hall|]. now intros x [Hx _].
Qed.

(** X12. A tag is never inserted within three characters of a pause tag that
    the text already has, in the canonical or in the short form: the
    offset is more than three before the start of the tag or more than
    three after its end. *)
Theorem no_insertion_near_manual_pause {E : PyEnv} (s style : list N)
    (speed_factor strength : Q) (topup_only : bool) (min_pause max_pause : Q) :
  Forall (fun x =>
            Forall (fun sp => fst x + 3 < fst sp \/ snd sp + 3 < fst x)
                   (_find_spans MANUAL_PAUSE_CANONICAL_PATTERN s
                      ++ _find_spans MANUAL_PAUSE_SHORTHAND_PATTERN s))
         (collect_insertions s style speed_factor strength topup_only min_pause max_pause).
Proof.
  destruct (collect_insertions_placed s style speed_factor strength topup_only
              min_pause max_pause) as [_ Hall].
  eapply Forall_impl; [exact Hall|]. intros x [_ Hm]. cbn beta in *.
  apply List.Forall_forall. intros sp Hin.
  unfold _has_manual_pause_near in Hm. cbv zeta in Hm.
  assert (Hsp : In sp (merge_sort span_le
                         (_find_spans MANUAL_PAUSE_CANONICAL_PATTERN s
                            ++ _find_spans MANUAL_PAUSE_SHORTHAND_PATTERN s))).
  { eapply Permutation_in; [|exact Hin]. symmetry. apply merge_sort_Permutation. }
  destruct (Z.leb_spec (Z.of_nat (fst sp)) (Z.of_nat (fst x) + 3)) as [H1|H1];
    destruct (Z.leb_spec (Z.of_nat (fst x) - 3) (Z.of_nat (snd sp))) as [H2|H2];
    try lia.
  assert (Hex : existsb (fun sp => ((Z.of_nat (fst sp) <=? Z.of_nat (fst x) + 3)
                                    && (Z.of_nat (fst x) - 3 <=? Z.of_nat (snd sp)))%Z)
                  (merge_sort span_le
                     (_find_spans MANUAL_PAUSE_CANONICAL_PATTERN s
                        ++ _find_spans MANUAL_PAUSE_SHORTHAND_PATTERN s)) = true).
  { apply existsb_exists. exists sp. split; [exact Hsp|].
    apply andb_true_iff. split; apply Z.leb_le; lia. }
  congruence.
Qed.

(** ** The currency pass and the protected spans *)

Section CurrencyChunks.
Context {E : PyEnv}.

Lemma existsb_drop {A} (f : A -> bool) (l : list A) (n : nat) :
  existsb f l = false -> existsb f (drop n l) = false.
Proof.
  revert n. induction l as [|a l IH]; intros [|n] H; try exact H.
  cbn in H. apply orb_false_iff in H as [_ H]. now apply IH.
Qed.

Lemma existsb_take {A} (f : A -> bool) (l : list A) (n : nat) :
  existsb f l = false -> existsb f (take n l) = false.
Proof.
  revert n. induction l as [|a l IH]; intros [|n] H; try reflexivity.
  cbn in *. apply orb_false_iff in H as [Ha H]. rewrite Ha. now apply IH.
Qed.

(** A segment without a dollar sign is left as it is. *)
Lemma transform_without_dollar (max_value : Z) (seg : list N) :
  contains_char (chr "$") seg = false ->
  re_sub currency_pattern (replace_match max_value seg) seg = Ok seg.
Proof.
  intros Hseg. unfold re_sub, finditer.
  rewrite finditer_from_none; [reflexivity|].
  intros i ma _. unfold match_at, currency_pattern.
  rewrite ends_seq. unfold Lit. rewrite ends_set.
  now rewrite (contains_char_lookup _ _ i Hseg).
Qed.

Lemma unprotected_loop_id (s : list N) (transform : list N -> result (list N)) :
  (forall a b, transform (slice s a b) = Ok (slice s a b)) ->
  (forall a, transform (slice_from s a) = Ok (slice_from s a)) ->
  forall spans last_index,
    chained last_index (length s) spans ->
    unprotected_loop s transform last_index spans = Ok (drop last_index s).
Proof.
  intros Hslice Hfrom. induction spans as [|[start end_] spans IH]; intros last_index Hch.
  - cbn [unprotected_loop]. destruct (Nat.ltb_spec last_index (length s)) as [Hlt|Hge].
    + apply Hfrom.
    + now rewrite drop_ge.
  - cbn [unprotected_loop chained fst snd] in *. destruct Hch as (H1 & H2 & H3 & H4).
    rewrite (IH _ H4).
    assert (Hhead : (if last_index <? start then transform (slice s last_index start)
                     else Ok []) = Ok (slice s last_index start)).
    { destruct (Nat.ltb_spec last_index start) as [Hlt|Hge]; [apply Hslice|].
      unfold slice. now replace (start - last_index) with 0 by lia. }
    rewrite Hhead. cbn [bind]. f_equal.
    rewrite slice_then_drop by exact H2. now rewrite slice_then_drop by exact H1.
Qed.

(** X13. A text without a dollar sign goes through the normaliser unchanged,
    whatever the limit and with or without bracket spans. *)
Theorem text_without_dollar_unchanged (s : list N) :
  contains_char (chr "$") s = false ->
  forall max_value normalize_currency,
    normalize_currency_usd s max_value = Ok s
    /\ normalize_text s normalize_currency max_value = Ok s.
Proof.
  intros Hs.
  assert (Hn : forall max_value, normalize_currency_usd s max_value = Ok s).
  { intros max_value. unfold normalize_currency_usd. cbv zeta.
    destruct (_find_protected_spans s) as [|sp spans] eqn:Hspans.
    - now apply transform_without_dollar.
    - unfold _apply_to_unprotected_segments. rewrite <- Hspans.
      rewrite unprotected_loop_id; [reflexivity| | |apply finditer_from_chained].
      + intros a b. apply transform_without_dollar. unfold contains_char, slice.
        now apply existsb_take, existsb_drop.
      + intros a. apply transform_without_dollar. unfold contains_char, slice_from.
        now apply existsb_drop. }
  intros max_value normalize_currency. split; [apply Hn|].
  unfold normalize_text. cbv zeta. destruct normalize_currency; [apply Hn|reflexivity].
Qed.

Lemma unprotected_loop_chunks (s : list N) (transform : list N -> result (list N))
    (R : bool * list N -> list N -> Prop) :
  (forall chunk r, R (true, chunk) r <-> r = chunk) ->
  (forall chunk r, R (false, chunk) r <-> transform chunk = Ok r) ->
  forall spans last_index out,
    unprotected_loop s transform last_index spans = Ok out
    <-> exists rs, Forall2 R (split_loop s last_index spans) rs /\ out = concat rs.
Proof.
  intros Rtrue Rfalse. induction spans as [|[start end_] spans IH]; intros last_index out.
  - cbn [unprotected_loop split_loop]. destruct (last_index <? length s).
    + split.
      * intros H. exists [out]. split; [|cbn; now rewrite app_nil_r].
        constructor; [now apply Rfalse|constructor].
      * intros (rs & Hrs & ->). inversion Hrs as [|? r ? rs' Hr Hrs']; subst.
        inversion Hrs'; subst. cbn. rewrite app_nil_r. now apply Rfalse.
    + split.
      * intros [= <-]. exists []. split; [constructor|reflexivity].
      * intros (rs & Hrs & ->). inversion Hrs; subst. reflexivity.
  - cbn [unprotected_loop split_loop]. destruct (last_index <? start).
    + split.
      * intros H. destruct (transform (slice s last_index start)) as [h|] eqn:Hh;
          [|discriminate].
        cbn [bind] in H.
        destruct (unprotected_loop s transform end_ spans) as [rest|] eqn:Hrest;
          [|discriminate].
        cbn [bind] in H. injection H as <-.
        apply IH in Hrest as (rs & Hrs & ->).
        exists (h :: slice s start end_ :: rs). split; [|reflexivity].
        cbn [app]. constructor; [now apply Rfalse|].
        constructor; [now apply Rtrue|exact Hrs].
      * intros (rs & Hrs & ->). cbn [app] in Hrs.
        inversion Hrs as [|? h ? rs1 Hh Hrs1]; subst.
        inversion Hrs1 as [|? p ? rs2 Hp Hrs2]; subst.
        apply Rfalse in Hh. apply Rtrue in Hp. subst p. rewrite Hh. cbn [bind].
        assert (Hrest : unprotected_loop s transform end_ spans = Ok (concat rs2))
          by (apply IH; eauto).
        rewrite Hrest. reflexivity.
    + split.
      * intros H. cbn [bind] in H.
        destruct (unprotected_loop s transform end_ spans) as [rest|] eqn:Hrest;
          [|discriminate].
        cbn [bind] in H. injection H as <-.
        apply IH in Hrest as (rs & Hrs & ->).
        exists (slice s start end_ :: rs). split; [|reflexivity].
        cbn [app]. constructor; [now apply Rtrue|exact Hrs].
      * intros (rs & Hrs & ->). cbn [app] in Hrs.
        inversion Hrs as [|? p ? rs2 Hp Hrs2]; subst.
        apply Rtrue in Hp. subst p. cbn [bind].
        assert (Hrest : unprotected_loop s transform end_ spans = Ok (concat rs2))
          by (apply IH; eauto).
        rewrite Hrest. reflexivity.
Qed.

(** X14. The currency pass cuts the text at the bracket spans exactly as the
    pronunciation pass does: the result, when there is one, is the chunks
    put together again, a bracket span as it is and every other chunk with
    its amounts replaced; an error of a chunk is the error of the pass. *)
Theorem normalize_currency_usd_chunks (s : list N) (max_value : option Z) (out : list N) :
  normalize_currency_usd s max_value = Ok out
  <-> exists rs,
        Forall2 (currency_chunk_result (default 999999999%Z max_value))
                (_split_by_brackets s) rs
        /\ out = concat rs.
Proof.
  unfold normalize_currency_usd, _split_by_brackets, _find_bracket_spans,
    BRACKET_SPAN_PATTERN, _find_protected_spans. cbv zeta.
  destruct (spans_of (finditer protected_span_re s)) as [|sp spans] eqn:Hspans.
  - split.
    + intros H. exists [out]. split; [|cbn; now rewrite app_nil_r].
      constructor; [exact H|constructor].
    + intros (rs & Hrs & ->). inversion Hrs as [|? r ? rs' Hr Hrs']; subst.
      inversion Hrs'; subst. cbn. rewrite app_nil_r. exact Hr.
  - unfold _apply_to_unprotected_segments.
    apply unprotected_loop_chunks; intros chunk r; reflexivity.
Qed.

End CurrencyChunks.

Lemma text_without_dollar_unchanged_witness :
  @normalize_currency_usd ascii_env (str "Costs 5 [pause:0.3s] euros") None
  = Ok (str "Costs 5 [pause:0.3s] euros").
Proof.
  apply (@text_without_dollar_unchanged ascii_env (str "Costs 5 [pause:0.3s] euros")
           ltac:(reflexivity) None true).
Defined.

(** ** The letters of a number in words *)

Lemma spoken_text_app (a b : list N) :
  spoken_text a -> spoken_text b -> spoken_text (a ++ b).
Proof. unfold spoken_text. intros Ha Hb. now rewrite forallb_app, Ha, Hb. Qed.

Lemma item_spoken (table : list (list N)) (i : Z) :
  forallb (forallb is_spoken_char) table = true -> spoken_text (item table i).
Proof.
  intros Ht. unfold item. destruct (table !! Z.to_nat i) as [t|] eqn:Hl; [|reflexivity].
  cbn [default]. rewrite forallb_forall in Ht. apply Ht.
  apply list_elem_of_In. eapply list_elem_of_lookup_2, Hl.
Qed.

Lemma two_digit_words_spoken (num : Z) : spoken_text (two_digit_words num).
Proof.
  unfold two_digit_words. cbv zeta.
  repeat match goal with |- context [if ?c then _ else _] => destruct c end;
    repeat first [apply spoken_text_app | apply item_spoken | reflexivity].
Qed.

Lemma three_digit_words_spoken (num : Z) : spoken_text (three_digit_words num).
Proof.
  unfold three_digit_words. cbv zeta.
  destruct (num / 100 =? 0)%Z, (num mod 100 =? 0)%Z; cbn [app nonempty concat];
    repeat first [apply spoken_text_app | apply item_spoken
                 | apply two_digit_words_spoken | reflexivity].
Qed.

Lemma two_digit_words_nonempty (num : Z) :
  (0 <= num < 100)%Z -> nonempty (two_digit_words num) = true.
Proof.
  intros Hn.
  assert (H : forallb (fun k => nonempty (two_digit_words (Z.of_nat k))) (seq 0 100) = true)
    by (vm_compute; reflexivity).
  rewrite forallb_forall in H. specialize (H (Z.to_nat num)).
  rewrite Z2Nat.id in H by lia. apply H, in_seq. lia.
Qed.

Lemma nonempty_app_r {A} (a b : list A) : nonempty b = true -> nonempty (a ++ b) = true.
Proof. destruct a; [auto|reflexivity]. Qed.

Lemma three_digit_words_nonempty (num : Z) :
  (0 <= num < 1000)%Z -> nonempty (three_digit_words num) = true.
Proof.
  intros Hn. unfold three_digit_words. cbv zeta.
  destruct (num / 100 =? 0)%Z, (num mod 100 =? 0)%Z; cbn [app nonempty concat];
    try reflexivity.
  - rewrite app_nil_r. apply two_digit_words_nonempty. apply Z.mod_pos_bound. lia.
  - rewrite <- !app_assoc. apply nonempty_app_r. reflexivity.
  - rewrite <- !app_assoc. apply nonempty_app_r. reflexivity.
Qed.

(** X15. A number in words is never empty and is made of small letters, spaces
    and commas only: no digit, no dollar sign and no bracket comes out of
    [int_to_words_us]. *)
Theorem int_to_words_us_letters (n : Z) (out : list N) :
  int_to_words_us n = Ok out ->
  nonempty out = true /\ forallb is_spoken_char out = true.
Proof.
  unfold int_to_words_us. cbv zeta.
  destruct (_ || _)%bool eqn:Hrange; [discriminate|].
  apply orb_false_iff in Hrange as [Hlo Hhi].
  apply Z.ltb_ge in Hlo, Hhi.
  destruct (n =? 0)%Z eqn:Hz; [intros [= <-]; split; reflexivity|].
  apply Z.eqb_neq in Hz.
  assert (Hb : (0 <= (n mod 1000000) mod 1000 < 1000)%Z) by (apply Z.mod_pos_bound; lia).
  destruct (n / 1000000 =? 0)%Z eqn:Hm, (n mod 1000000 / 1000 =? 0)%Z eqn:Ht,
    ((n mod 1000000) mod 1000 =? 0)%Z eqn:Hu;
    cbn [app nonempty concat negb orb andb]; intros [= <-];
    (split;
     [ rewrite ?app_nil_r;
       first [ now apply three_digit_words_nonempty
             | rewrite <- ?app_assoc; apply nonempty_app_r; reflexivity ]
     | repeat first [apply spoken_text_app | apply three_digit_words_spoken | reflexivity] ]).
Qed.

Lemma int_to_words_us_letters_witness :
  nonempty (str "one thousand, two hundred, thirty four") = true
  /\ forallb is_spoken_char (str "one thousand, two hundred, thirty four") = true.
Proof. apply (int_to_words_us_letters 1234). reflexivity. Defined.

(** ** The order of the keys, and keys that do not occur *)

Section Keys.
Context {E : PyEnv}.

Lemma text_leb_antisym (a b : list N) :
  text_leb a b = true -> text_leb b a = true -> a = b.
Proof.
  revert b. induction a as [|x a IH]; intros [|y b]; cbn; try discriminate; [reflexivity|].
  destruct (N.ltb_spec x y), (N.ltb_spec y x); try discriminate; try lia.
  intros H1 H2. assert (x = y) by lia. subst y. f_equal. now apply IH.
Qed.

Lemma key_le_antisym : AntiSymm eq key_le.
Proof.
  intros a b Hab Hba. apply key_le_spec in Hab, Hba.
  destruct Hab as [?|[? Hab]], Hba as [?|[? Hba]]; try lia.
  now apply text_leb_antisym.
Qed.

(** X16. The order in which the keys are swept does not depend on the order in
    which the mapping lists them: two lists with the same keys give the
    same patterns in the same order. *)
Theorem ordered_keys_any_order (keys1 keys2 : list (list N)) :
  keys1 ≡ₚ keys2 ->
  ordered_keys keys1 = ordered_keys keys2
  /\ _build_replacement_patterns keys1 = _build_replacement_patterns keys2.
Proof.
  intros Hperm.
  assert (Heq : ordered_keys keys1 = ordered_keys keys2).
  { destruct (ordered_keys_sorted keys1) as [Hs1 Hp1].
    destruct (ordered_keys_sorted keys2) as [Hs2 Hp2].
    apply (@StronglySorted_unique _ key_le key_le_antisym); [exact Hs1|exact Hs2|].
    now rewrite Hp1, Hp2. }
  split; [exact Heq|]. unfold _build_replacement_patterns. now rewrite Heq.
Qed.

(** A sweep whose key does not occur leaves the segment as it is. *)
Lemma sweep_key_absent (mapping : gmap (list N) (list N)) (seg key : list N) :
  contains_char (chr "\") (default [] (mapping !! key)) = false ->
  occurs_whole seg key = false ->
  sweep_key mapping (Ok seg) key = Ok seg.
Proof.
  intros Hv Hocc. unfold sweep_key, re_sub_template. cbn [bind]. rewrite Hv. cbn [bind].
  unfold re_sub, finditer. rewrite finditer_from_none; [reflexivity|].
  intros i ma Hi. rewrite match_at_key_pattern.
  assert (Hw : whole_word_at seg key i = false).
  { destruct (whole_word_at seg key i) eqn:Hw; [|reflexivity].
    assert (Hex : occurs_whole seg key = true).
    { apply existsb_exists. exists i. split; [apply in_seq; lia|exact Hw]. }
    congruence. }
  now rewrite Hw.
Qed.

(** X17. When no key of the mapping stands as a whole word in a chunk outside
    the brackets, the text comes back as it is (the values being free of
    backslashes, so that no replacement template is refused). *)
Theorem absent_keys_change_nothing (s : list N) (mapping : gmap (list N) (list N)) :
  (forall key value, mapping !! key = Some value -> contains_char (chr "\") value = false) ->
  (forall key chunk,
     In key (mapping_keys mapping) -> In (false, chunk) (_split_by_brackets s) ->
     occurs_whole chunk key = false) ->
  apply_pronunciation_dict s mapping = Ok s.
Proof.
  intros Hvalues Habsent. unfold apply_pronunciation_dict.
  destruct (_ || _)%bool eqn:Hc; [reflexivity|].
  apply orb_false_iff in Hc as [_ Hm]. apply bool_decide_eq_false in Hm.
  destruct (_split_by_brackets_chunks s) as [Hconcat _].
  rewrite <- Hconcat at 2.
  revert Habsent. generalize (_split_by_brackets s) as chunks.
  induction chunks as [|[is_protected chunk] chunks IH]; intros Habsent; [reflexivity|].
  cbn [process_segments]. rewrite IH by (intros key c Hk Hin; apply Habsent; [exact Hk|now right]).
  assert (Hhead : (if is_protected then Ok chunk else _apply_to_segment chunk mapping)
                  = Ok chunk).
  { destruct is_protected; [reflexivity|].
    rewrite _apply_to_segment_sweeps by exact Hm.
    assert (Hkeys : forall key, In key (ordered_keys (mapping_keys mapping)) ->
                                In key (mapping_keys mapping)).
    { intros key Hin. eapply Permutation_in; [|exact Hin]. apply ordered_keys_sorted. }
    revert Hkeys. generalize (ordered_keys (mapping_keys mapping)) as keys.
    induction keys as [|key keys IHk]; intros Hkeys; [reflexivity|].
    cbn [fold_left]. rewrite sweep_key_absent.
    - apply IHk. intros k Hk. apply Hkeys. now right.
    - destruct (mapping !! key) as [value|] eqn:Hv; [|reflexivity].
      cbn [default]. eapply Hvalues, Hv.
    - apply Habsent; [apply Hkeys; now left|now left]. }
  rewrite Hhead. reflexivity.
Qed.

End Keys.

Lemma ordered_keys_any_order_witness :
  ordered_keys [str "US"; str "Zilog"] = ordered_keys [str "Zilog"; str "US"]
  /\ @_build_replacement_patterns [str "US"; str "Zilog"]
     = @_build_replacement_patterns [str "Zilog"; str "US"].
Proof. apply ordered_keys_any_order. apply perm_swap. Defined.

Lemma absent_keys_change_nothing_witness :
  @apply_pronunciation_dict ascii_env (str "Hello [Zilog] Zilogic")
     {[ str "Zilog" := str "ZY-log" ]}
  = Ok (str "Hello [Zilog] Zilogic").
Proof.
  apply absent_keys_change_nothing.
  - intros key value Hv. apply lookup_singleton_Some in Hv as [_ <-]. reflexivity.
  - intros key chunk Hk Hc.
    assert (Hkeys : mapping_keys ({[ str "Zilog" := str "ZY-log" ]} : gmap (list N) (list N))
                    = [str "Zilog"]).
    { unfold mapping_keys. now rewrite map_to_list_singleton. }
    assert (Hchunks : _split_by_brackets (str "Hello [Zilog] Zilogic")
                      = [(false, str "Hello "); (true, str "[Zilog]");
                         (false, str " Zilogic")])
      by (vm_compute; reflexivity).
    rewrite Hkeys in Hk. rewrite Hchunks in Hc.
    destruct Hk as [<-|[]].
    destruct Hc as [[= <-]|[[=]|[[= <-]|[]]]]; vm_compute; reflexivity.
Defined.

(** ** The voices of the directives *)

Section Voices.
Context {E : PyEnv}.

Lemma lstrip_by_Forall (P : N -> Prop) (p : N -> bool) (t : list N) :
  Forall P t -> Forall P (lstrip_by p t).
Proof.
  induction 1 as [|c t Hc Ht IH]; cbn; [constructor|].
  destruct (p c); [exact IH|now constructor].
Qed.

Lemma strip_Forall (P : N -> Prop) (t : list N) : Forall P t -> Forall P (strip t).
Proof.
  intros H. unfold strip, rstrip_by.
  apply List.Forall_rev, lstrip_by_Forall, List.Forall_rev, lstrip_by_Forall, H.
Qed.

(** A match of the directive pattern has one group, made of characters of
    voice identifiers. *)
Lemma match_at_voice_group (s : list N) (i : nat) (ma : bool) (m : rmatch) :
  i <= length s ->
  match_at _VOICE_DIRECTIVE_RE s i ma = Some m ->
  exists a b, m_groups m = [(1, (a, b))] /\ digits_between is_voice_id_char s a b.
Proof.
  intros Hi. unfold match_at. destruct (List.find _ _) as [st|] eqn:Hf; [|discriminate].
  intros [= <-]. cbn [m_groups].
  apply find_some in Hf as [Hin _]. unfold _VOICE_DIRECTIVE_RE in Hin.
  assert (Hany : forall r st0 st1,
            classes_within (fun _ => true) r -> In st1 (ends s r st0) ->
            ms_pos st0 <= length s ->
            ms_groups st1 = ms_groups st0 /\ ms_pos st1 <= length s).
  { intros r st0 st1 Hr H Hpos. apply (ends_reads _ _ _ Hr) in H as [Hg Hd].
    split; [exact Hg|]. destruct (Hd Hpos) as [? _]. lia. }
  rewrite ends_seq in Hin. apply in_flat_map in Hin as (st1 & H1 & Hin).
  apply Hany in H1 as [Hg1 Hp1];
    [|cbn [classes_within Lits Lit]; repeat split; intros; reflexivity|exact Hi].
  rewrite ends_seq in Hin. apply in_flat_map in Hin as (st2 & H2 & Hin).
  apply Hany in H2 as [Hg2 Hp2]; [|intros c _; reflexivity|exact Hp1].
  rewrite ends_seq in Hin. apply in_flat_map in Hin as (st3 & H3 & Hin).
  apply Hany in H3 as [Hg3 Hp3]; [|intros c _; reflexivity|exact Hp2].
  rewrite ends_seq in Hin. apply in_flat_map in Hin as (st4 & H4 & Hin).
  apply Hany in H4 as [Hg4 Hp4]; [|intros c _; reflexivity|exact Hp3].
  rewrite ends_seq in Hin. apply in_flat_map in Hin as (st5 & H5 & Hin).
  apply ends_group_In in H5 as (mid & Hmid & ->).
  apply (ends_reads is_voice_id_char) in Hmid as [Hgm Hdm];
    [|split; intros c Hc; exact Hc].
  specialize (Hdm Hp4).
  apply Hany in Hin as [Hg _];
    [|split; intros c _; reflexivity|cbn [ms_pos]; destruct Hdm as [? _]; lia].
  cbn [ms_groups] in *. rewrite Hg, Hgm, Hg4, Hg3, Hg2, Hg1. cbn [ms_groups]. eauto.
Qed.

Lemma gaps_voices (s : list N) (ms : list rmatch) :
  forall last_index voice,
    Forall (fun seg => voice_id seg = voice
                       \/ exists m, In m ms /\ voice_id seg = Some (directive_voice s m))
           (gaps s ms last_index voice).
Proof.
  induction ms as [|m ms IH]; intros last_index voice; cbn [gaps]; constructor.
  - now left.
  - eapply Forall_impl; [apply IH|]. intros seg [Hv|(m' & Hin & Hv)]; right.
    + exists m. split; [now left|exact Hv].
    + exists m'. split; [now right|exact Hv].
Qed.

(** X18. A voice identifier that [parse_voice_directives] returns contains
    nothing but ASCII letters, ASCII digits, underscores and hyphens. *)
Theorem parse_voice_directives_voice_chars (s : list N) :
  Forall (fun seg => forall v, voice_id seg = Some v ->
                               Forall (fun c => is_voice_id_char c = true) v)
         (parse_voice_directives s).
Proof.
  assert (Hm : forall m, In m (directive_matches s) ->
                         Forall (fun c => is_voice_id_char c = true) (directive_voice s m)).
  { intros m Hin. unfold directive_matches in Hin. apply List.filter_In in Hin as [Hin _].
    apply finditer_from_match_at in Hin as (i & ma & Hi & Hmatch).
    apply match_at_voice_group in Hmatch as (a & b & Hg & Hd); [|exact Hi].
    unfold directive_voice, group_text, m_group. rewrite Hg.
    cbn [List.find fst snd Nat.eqb fmap option_fmap option_map default].
    apply strip_Forall, slice_Forall, Hd. }
  assert (Hgaps : Forall (fun seg => forall v, voice_id seg = Some v ->
                                      Forall (fun c => is_voice_id_char c = true) v)
                    (gaps s (directive_matches s) 0 None)).
  { eapply Forall_impl; [apply gaps_voices|].
    intros seg [Hv|(m & Hin & Hv)] v Hseg; rewrite Hseg in Hv; [discriminate|].
    injection Hv as ->. now apply Hm. }
  unfold parse_voice_directives. rewrite segments_of_matches_spec. cbv zeta.
  assert (Hbody : Forall (fun seg => forall v, voice_id seg = Some v ->
                                      Forall (fun c => is_voice_id_char c = true) v)
                    (List.filter spoken (gaps s (directive_matches s) 0 None))).
  { apply List.Forall_forall. intros seg Hin. apply List.filter_In in Hin as [Hin _].
    rewrite List.Forall_forall in Hgaps. now apply Hgaps. }
  destruct (_ || _)%bool; [|exact Hbody].
  apply Forall_app. split; [exact Hbody|]. constructor; [|constructor].
  intros v Hv. unfold tail_segment, tail_voice in Hv. cbn [voice_id] in Hv.
  destruct (last (directive_matches s)) as [m|] eqn:Hlast; [|discriminate].
  cbn in Hv. injection Hv as <-. apply Hm.
  apply last_Some in Hlast as (l' & ->). apply in_app_iff. right. now left.
Qed.

(** X19. A text without the character [<] has no directive: it comes back as a
    single segment with no voice, whole, even when it is empty or blank. *)
Theorem parse_voice_directives_plain_text (s : list N) :
  contains_char (chr "<") s = false ->
  parse_voice_directives s = [Segment None s].
Proof.
  intros Hs. unfold parse_voice_directives, directive_matches, finditer.
  rewrite finditer_from_none.
  - cbn. unfold segments_of_matches. cbn. now rewrite orb_true_r.
  - intros i ma _. unfold match_at, _VOICE_DIRECTIVE_RE. cbn [Lits].
    rewrite !ends_seq. unfold Lit. rewrite ends_set.
    now rewrite (contains_char_lookup _ _ i Hs).
Qed.

End Voices.

Lemma parse_voice_directives_plain_text_witness :
  @parse_voice_directives ascii_env (str "  ") = [Segment None (str "  ")].
Proof. apply parse_voice_directives_plain_text. reflexivity. Defined.

(** ** Text without boundaries *)

Section NoBoundary.
Context {E : PyEnv}.

Lemma flat_map_nil {A B} (f : A -> list B) (l : list A) :
  (forall x, f x = []) -> flat_map f l = [].
Proof.
  intros Hf. induction l as [|a l IH]; [reflexivity|]. cbn. now rewrite Hf, IH.
Qed.

Lemma no_spaced_dash (seg : list N) :
  contains_char (chr "-") seg = false -> _collect_spaced_dash_boundaries seg = [].
Proof.
  intros Hseg. unfold _collect_spaced_dash_boundaries, finditer.
  rewrite finditer_from_none; [reflexivity|].
  intros i ma _. unfold match_at, SPACED_DASH_PATTERN. rewrite ends_seq.
  rewrite flat_map_nil; [reflexivity|].
  intros [j g]. rewrite ends_seq. unfold Lit. rewrite ends_set.
  now rewrite (contains_char_lookup _ _ j Hseg).
Qed.

Lemma no_paragraph_break (s : list N) :
  contains_char (chr "010") s = false -> finditer paragraph_pattern s = [].
Proof.
  intros Hs. unfold finditer. apply finditer_from_none.
  intros i ma _. unfold match_at, paragraph_pattern. rewrite ends_seq.
  unfold Lit. rewrite ends_set. now rewrite (contains_char_lookup _ _ i Hs).
Qed.

Lemma forallb_not_contains (c : N) (q : N -> bool) (s : list N) :
  (forall x, q x = false -> ch_eqb c x = false) ->
  forallb (fun x => negb (q x)) s = true -> contains_char c s = false.
Proof.
  intros Hq. unfold contains_char. induction s as [|a s IH]; [reflexivity|].
  cbn. rewrite andb_true_iff, negb_true_iff. intros [Ha Hs].
  now rewrite (Hq a Ha), IH.
Qed.

Variables (s : list N) (bracket_spans manual_pause_spans : list (nat * nat)).
Variables (sb : style_base) (speed_factor strength : Q) (topup_only : bool).
Variables (min_pause max_pause : Q).
Hypothesis Hplain : forallb (fun c => negb (is_boundary_char c)) s = true.

Lemma scan_step_plain start end_ idx st :
  insertions (scan_step s bracket_spans manual_pause_spans sb speed_factor strength
                topup_only min_pause max_pause start end_ [] idx st)
  = insertions st.
Proof.
  unfold scan_step. destruct (s !! idx) as [c|] eqn:Hc; [|reflexivity].
  destruct (_inside_spans idx bracket_spans); [reflexivity|].
  assert (Hb : is_boundary_char c = false).
  { rewrite forallb_forall in Hplain. apply negb_true_iff, Hplain.
    apply list_elem_of_In. eapply list_elem_of_lookup_2, Hc. }
  unfold is_boundary_char in Hb. repeat (apply orb_false_iff in Hb as [Hb ?]).
  unfold classify, is_sentence_mark.
  repeat match goal with H : ch_eqb _ _ = false |- _ => rewrite H; clear H end.
  cbn [existsb orb]. destruct (ch_eqb c (chr "013")); reflexivity.
Qed.

Lemma scan_loop_plain start end_ n :
  forall idx st,
    insertions (scan_loop s bracket_spans manual_pause_spans sb speed_factor strength
                  topup_only min_pause max_pause start end_ [] n idx st)
    = insertions st.
Proof.
  induction n as [|n IH]; intros idx st; [reflexivity|].
  cbn [scan_loop]. rewrite IH. apply scan_step_plain.
Qed.

Lemma paragraph_loop_plain :
  paragraph_loop s bracket_spans manual_pause_spans sb speed_factor strength
    topup_only min_pause max_pause (finditer paragraph_pattern s) 0 = [].
Proof.
  rewrite no_paragraph_break.
  - cbn [paragraph_loop]. unfold _collect_boundaries_for_segment. cbv zeta.
    rewrite no_spaced_dash.
    + cbn [map]. now rewrite scan_loop_plain.
    + unfold contains_char, slice. apply existsb_take, existsb_drop.
      apply (forallb_not_contains _ is_boundary_char); [|exact Hplain].
      intros x Hx. unfold is_boundary_char in Hx.
      repeat (apply orb_false_iff in Hx as [Hx ?]).
      unfold ch_eqb in *. now rewrite N.eqb_sym.
  - apply (forallb_not_contains _ is_boundary_char); [|exact Hplain].
    intros x Hx. unfold is_boundary_char in Hx.
    repeat (apply orb_false_iff in Hx as [Hx ?]).
    unfold ch_eqb in *. now rewrite N.eqb_sym.
Qed.

End NoBoundary.

(** X20. A text without a sentence mark, comma, semicolon, colon, dash, hyphen
    and line feed gets no tag: [insert_auto_pauses] returns it as it is,
    whatever the settings. *)
Theorem text_without_boundaries_unchanged {E : PyEnv} (s style : list N)
    (speed_factor strength : Q) (topup_only : bool) (min_pause max_pause : Q) :
  forallb (fun c => negb (is_boundary_char c)) s = true ->
  insert_auto_pauses s style speed_factor strength topup_only min_pause max_pause = s.
Proof.
  intros Hplain. unfold insert_auto_pauses. destruct (negb (nonempty s)); [reflexivity|].
  cbv zeta. unfold collect_insertions. cbv zeta.
  now rewrite paragraph_loop_plain.
Qed.

Lemma text_without_boundaries_unchanged_witness :
  @insert_auto_pauses ascii_env (str "so [laugh] it goes") (str "dramatic") 1 1 true 0.04 1.8
  = str "so [laugh] it goes".
Proof. apply text_without_boundaries_unchanged. reflexivity. Defined.

(** ** The tags that the annotator writes *)

Section PauseTag.
Context {E : PyEnv}.

Lemma rstrip_by_app_stop (p : N -> bool) (x y : list N) (c : N) :
  p c = false -> rstrip_by p (x ++ c :: y) = x ++ c :: rstrip_by p y.
Proof.
  intros Hc. unfold rstrip_by. rewrite rev_app_distr. cbn [rev].
  rewrite <- app_assoc. cbn [app]. rewrite lstrip_by_app_stop by exact Hc.
  rewrite rev_app_distr. cbn [rev]. now rewrite rev_involutive, <- app_assoc.
Qed.

Lemma rstrip_by_last (p : N -> bool) (t : list N) :
  rstrip_by p t = [] \/ exists u c, rstrip_by p t = u ++ [c] /\ p c = false.
Proof.
  unfold rstrip_by. pose proof (lstrip_by_head p (rev t)) as H.
  destruct (lstrip_by p (rev t)) as [|c u]; [now left|right].
  exists (rev u), c. now split.
Qed.

Lemma rstrip_by_Forall (P : N -> Prop) (p : N -> bool) (t : list N) :
  Forall P t -> Forall P (rstrip_by p t).
Proof. intros H. unfold rstrip_by. now apply List.Forall_rev, lstrip_by_Forall, List.Forall_rev. Qed.

Lemma string_of_uint_digits (d : Decimal.uint) :
  ascii_digits (str (NilEmpty.string_of_uint d)).
Proof.
  unfold ascii_digits.
  induction d; cbn [NilEmpty.string_of_uint str]; constructor; (reflexivity || assumption).
Qed.

Lemma decimal_of_Z_digits (z : Z) :
  decimal_of_Z z <> [] /\ ascii_digits (decimal_of_Z z).
Proof.
  unfold decimal_of_Z, NilZero.string_of_uint.
  destruct (N.to_uint (Z.to_N z)) as [|u|u|u|u|u|u|u|u|u|u] eqn:Hu;
    (split; [cbn [NilEmpty.string_of_uint str]; discriminate|]);
    try apply string_of_uint_digits.
  repeat constructor.
Qed.

Lemma pad3_digits (i : Z) : ascii_digits (pad3 i).
Proof.
  unfold pad3. cbv zeta. apply Forall_app. split; [|apply decimal_of_Z_digits].
  generalize (3 - length (decimal_of_Z i)) as n.
  induction n as [|n IH]; cbn; constructor; [reflexivity|exact IH].
Qed.

Lemma ascii_digits_no_dot (t : list N) :
  ascii_digits t -> contains_char (chr ".") t = false.
Proof.
  unfold contains_char. induction 1 as [|c t Hc _ IH]; [reflexivity|].
  cbn [existsb]. rewrite IH, orb_false_r.
  unfold ascii_isdigit, in_range, ch_eqb in *. apply andb_true_iff in Hc as [Hlo _].
  apply N.leb_le in Hlo. apply N.eqb_neq. cbn in *. lia.
Qed.

(** The number of a tag: digits, a dot, digits. *)
Lemma _format_pause_shape (seconds : Q) :
  (0 <= seconds)%Q ->
  exists whole frac,
    whole <> [] /\ frac <> [] /\ ascii_digits whole /\ ascii_digits frac
    /\ _format_pause seconds = str "[pause:" ++ whole ++ chr "." :: frac ++ str "s]".
Proof.
  intros Hs. unfold _format_pause, format_3f. cbv zeta.
  destruct (Qlt_le_dec seconds 0) as [Hneg|_]; [lra|]. cbn [app].
  set (n := round_half_even (Qabs seconds * 1000)).
  destruct (decimal_of_Z_digits (n / 1000)) as [Hne Hd].
  pose proof (pad3_digits (n mod 1000)) as Hp.
  set (whole := decimal_of_Z (n / 1000)) in *. set (p3 := pad3 (n mod 1000)) in *.
  change (str ".") with [chr "."]. cbn [app].
  rewrite (rstrip_by_app_stop (ch_eqb (chr "0")) whole p3 (chr ".")) by reflexivity.
  pose proof (rstrip_by_Forall _ (ch_eqb (chr "0")) p3 Hp) as Hfrac.
  destruct (rstrip_by_last (ch_eqb (chr "0")) p3) as [Hr|(u & c & Hr & Hc)];
    rewrite Hr in *.
  - exists whole, (str "0"). repeat split; [exact Hne|discriminate|exact Hd|repeat constructor|].
    destruct (exists_last Hne) as (w0 & d & Hw).
    assert (Hdd : ch_eqb (chr ".") d = false).
    { pose proof (ascii_digits_no_dot whole Hd) as Hnd. rewrite Hw in Hnd.
      unfold contains_char in Hnd. rewrite existsb_app in Hnd.
      apply orb_false_iff in Hnd as [_ Hnd]. cbn in Hnd. now rewrite orb_false_r in Hnd. }
    assert (Hstrip : rstrip_by (ch_eqb (chr ".")) (whole ++ [chr "."]) = whole).
    { rewrite Hw, <- app_assoc. cbn [app].
      now rewrite (rstrip_by_app_stop _ w0 [chr "."] d Hdd). }
    rewrite Hstrip, (ascii_digits_no_dot whole Hd).
    rewrite <- !app_assoc. reflexivity.
  - exists whole, (u ++ [c]). repeat split; [exact Hne| |exact Hd|exact Hfrac|].
    { destruct u; discriminate. }
    assert (Hcd : ch_eqb (chr ".") c = false).
    { pose proof (ascii_digits_no_dot _ Hfrac) as Hnd.
      unfold contains_char in Hnd. rewrite existsb_app in Hnd.
      apply orb_false_iff in Hnd as [_ Hnd]. cbn in Hnd. now rewrite orb_false_r in Hnd. }
    replace (whole ++ chr "." :: u ++ [c]) with ((whole ++ chr "." :: u) ++ c :: [])
      by (rewrite <- app_assoc; reflexivity).
    rewrite (rstrip_by_app_stop _ _ [] c Hcd).
    assert (Hdot : contains_char (chr ".") ((whole ++ chr "." :: u) ++ c :: rstrip_by (ch_eqb (chr ".")) [])
                   = true).
    { unfold contains_char. rewrite <- app_assoc, existsb_app. cbn [app existsb].
      replace (ch_eqb (chr ".") (chr ".")) with true by reflexivity.
      now rewrite orb_true_r. }
    rewrite Hdot. rewrite <- !app_assoc. reflexivity.
Qed.

Lemma ends_seq_hit (s : list N) (p : N -> bool) (r : regex) (i : nat) g (c : N) :
  s !! i = Some c -> p c = true ->
  ends s (Seq (Set_ p) r) (MState i g) = ends s r (MState (S i) g).
Proof.
  intros Hc Hp. rewrite ends_seq, ends_set, Hc. cbn [opt_test]. rewrite Hp.
  cbn [flat_map]. apply app_nil_r.
Qed.

Lemma ends_group_eq (s : list N) (i : nat) (r : regex) (st : mstate) :
  ends s (Group i r) st
  = map (fun st' => MState (ms_pos st') ((i, (ms_pos st, ms_pos st')) :: ms_groups st'))
        (ends s r st).
Proof. reflexivity. Qed.

Lemma finditer_from_S (r : regex) (s : list N) (fuel i : nat) (ma : bool) :
  finditer_from r s (S fuel) i ma
  = if length s <? i then []
    else match match_at r s i ma with
         | Some m =>
             m :: (if m_end m =? i then finditer_from r s fuel i true
                   else finditer_from r s fuel (m_end m) false)
         | None => finditer_from r s fuel (S i) false
         end.
Proof. reflexivity. Qed.

(** The greedy loop tries the longest run first. *)
Lemma star_iter_head (s : list N) (p : N -> bool) :
  forall fuel i g,
    length s - i < fuel ->
    exists tl, star_iter (ends s (Set_ p)) fuel (MState i g)
               = MState (i + run s p i) g :: tl.
Proof.
  induction fuel as [|fuel IH]; intros i g Hf; [lia|].
  rewrite star_iter_set, run_step. destruct (s !! i) as [c|] eqn:Hc; cbn [opt_test].
  - destruct (p c).
    + destruct (IH (S i) g) as [tl Htl]; [apply lookup_lt_Some in Hc; lia|].
      rewrite Htl. exists (tl ++ [MState i g]). cbn [app]. f_equal. f_equal. lia.
    + exists []. cbn [app]. now rewrite Nat.add_0_r.
  - exists []. cbn [app]. now rewrite Nat.add_0_r.
Qed.

Lemma run_exact (s : list N) (p : N -> bool) (j : nat) :
  opt_test p (s !! j) = false ->
  forall n i, j = i + n ->
    (forall k, i <= k < j -> opt_test p (s !! k) = true) ->
    run s p i = n.
Proof.
  intros Hj. induction n as [|n IH]; intros i Hi Hrun; rewrite run_step.
  - replace i with j by lia. destruct (s !! j) as [c|]; [|reflexivity].
    cbn [opt_test] in Hj. now rewrite Hj.
  - specialize (Hrun i ltac:(lia)) as Hc. destruct (s !! i) as [c|]; [|discriminate].
    cbn [opt_test] in Hc. rewrite Hc. f_equal. apply IH; [lia|].
    intros k Hk. apply Hrun. lia.
Qed.

Lemma ends_plus_head (s : list N) (p : N -> bool) (i j : nat) g :
  i < j ->
  (forall k, i <= k < j -> opt_test p (s !! k) = true) ->
  opt_test p (s !! j) = false ->
  exists tl, ends s (Plus (Set_ p)) (MState i g) = MState j g :: tl.
Proof.
  intros Hij Hrun Hj. unfold Plus.
  specialize (Hrun i ltac:(lia)) as Hc. destruct (s !! i) as [c|] eqn:Hi; [|discriminate].
  rewrite (ends_seq_hit s p _ i g c Hi Hc), ends_star. cbn [ms_pos].
  destruct (star_iter_head s p (S (length s - S i)) (S i) g) as [tl Htl]; [lia|].
  rewrite Htl. exists tl. f_equal. f_equal.
  rewrite (run_exact s p j Hj (j - S i) (S i)); [lia|lia|].
  intros k Hk. apply Hrun. lia.
Qed.

(** The number pattern reads digits, a dot and digits, as far as they go. *)
Lemma ends_number_head (s : list N) (a b c : nat) g :
  a < b -> S b < c ->
  (forall k, a <= k < b -> opt_test uc_isdecimal (s !! k) = true) ->
  s !! b = Some (chr ".") -> uc_isdecimal (chr ".") = false ->
  (forall k, S b <= k < c -> opt_test uc_isdecimal (s !! k) = true) ->
  opt_test uc_isdecimal (s !! c) = false ->
  exists tl, ends s number_re (MState a g) = MState c g :: tl.
Proof.
  intros Hab Hbc Hwhole Hdot Hnd Hfrac Hc. unfold number_re, cls_digit. rewrite ends_seq.
  destruct (ends_plus_head s uc_isdecimal a b g Hab Hwhole) as [tl1 H1].
  { rewrite Hdot. exact Hnd. }
  rewrite H1. cbn [flat_map]. unfold Opt at 1. cbn [ends].
  unfold Lit at 1. rewrite ends_set, Hdot. cbn [opt_test].
  replace (ch_eqb (chr ".") (chr ".")) with true by reflexivity.
  cbn [flat_map]. rewrite app_nil_r.
  destruct (ends_plus_head s uc_isdecimal (S b) c g Hbc Hfrac Hc) as [tl2 H2].
  rewrite H2. cbn [app]. eauto.
Qed.

Hypothesis HE : reads_ascii E.

Lemma ascii_digit_decimal (c : N) : ascii_isdigit c = true -> uc_isdecimal c = true.
Proof.
  intros Hc. destruct HE as [Hd _]. rewrite Hd; [exact Hc|].
  unfold ascii_isdigit, in_range in Hc. apply andb_true_iff in Hc as [_ Hhi].
  apply N.leb_le in Hhi. cbn in Hhi. lia.
Qed.

Lemma ascii_digit_not_bracket (c : N) : ascii_isdigit c = true -> not_bracket c = true.
Proof.
  intros Hc. unfold ascii_isdigit, in_range in Hc. apply andb_true_iff in Hc as [_ Hhi].
  apply N.leb_le in Hhi. cbn in Hhi.
  unfold not_bracket, is_bracket, ch_eqb. apply negb_true_iff, orb_false_iff.
  split; apply N.eqb_neq; cbn; lia.
Qed.

(** A tag with a number matches the pattern of the manual pause tags from
    its first to its last character, and the group is the number. *)
Lemma match_at_pause_tag (whole frac : list N) :
  whole <> [] -> frac <> [] -> ascii_digits whole -> ascii_digits frac ->
  let tag := str "[pause:" ++ whole ++ chr "." :: frac ++ str "s]" in
  match_at MANUAL_PAUSE_CANONICAL_PATTERN tag 0 false
  = Some (RMatch 0 (length tag) [(1, (7, length tag - 2))]).
Proof.
  intros Hw Hf Hdw Hdf tag.
  set (b := 7 + length whole). set (c := S b + length frac).
  assert (Hlen : length tag = c + 2).
  { unfold tag, c, b. rewrite !length_app. cbn [length]. rewrite length_app. cbn. lia. }
  assert (Hwhole : forall k, 7 <= k < b -> opt_test uc_isdecimal (tag !! k) = true).
  { intros k Hk. unfold tag.
    rewrite (lookup_app_r (str "[pause:")) by (cbn; lia).
    rewrite lookup_app_l by (cbn; unfold b in Hk; lia).
    destruct (whole !! _) as [d|] eqn:Hd.
    - cbn [opt_test]. apply ascii_digit_decimal.
      unfold ascii_digits in Hdw. rewrite Forall_lookup in Hdw. eapply Hdw, Hd.
    - apply lookup_ge_None in Hd. cbn in Hd. unfold b in Hk. lia. }
  assert (Hdot : tag !! b = Some (chr ".")).
  { unfold tag. rewrite (lookup_app_r (str "[pause:")) by (cbn; unfold b; lia).
    apply list_lookup_middle. unfold b. cbn. lia. }
  assert (Htag : tag = (str "[pause:" ++ whole ++ [chr "."]) ++ frac ++ str "s]").
  { unfold tag. rewrite <- !app_assoc. reflexivity. }
  assert (Hpre : length (str "[pause:" ++ whole ++ [chr "."]) = S b).
  { rewrite !length_app. cbn. unfold b. lia. }
  assert (Hfrac : forall k, S b <= k < c -> opt_test uc_isdecimal (tag !! k) = true).
  { intros k Hk. rewrite Htag.
    rewrite lookup_app_r by lia. rewrite lookup_app_l by (unfold c in Hk; lia).
    destruct (frac !! _) as [d|] eqn:Hd.
    - cbn [opt_test]. apply ascii_digit_decimal.
      unfold ascii_digits in Hdf. rewrite Forall_lookup in Hdf. eapply Hdf, Hd.
    - apply lookup_ge_None in Hd. unfold c in Hk. lia. }
  assert (Hrest : forall k x, (str "s]") !! k = Some x -> tag !! (c + k) = Some x).
  { intros k x Hx. rewrite Htag, app_assoc.
    replace c with (length ((str "[pause:" ++ whole ++ [chr "."]) ++ frac))
      by (rewrite length_app, Hpre; unfold c; lia).
    now rewrite lookup_after. }
  assert (Hs : tag !! c = Some (chr "s")).
  { rewrite <- (Nat.add_0_r c). now apply Hrest. }
  assert (Hclose : tag !! S c = Some (chr "]")).
  { replace (S c) with (c + 1) by lia. now apply Hrest. }
  destruct HE as [Hdec Hieq].
  destruct (ends_number_head tag 7 b c [] ltac:(unfold b; destruct whole; [easy|cbn; lia])
              ltac:(unfold c; destruct frac; [easy|cbn; lia]) Hwhole Hdot
              ltac:(now rewrite Hdec) Hfrac ltac:(rewrite Hs; cbn [opt_test]; now rewrite Hdec))
    as [tl Hnum].
  unfold match_at, MANUAL_PAUSE_CANONICAL_PATTERN.
  unfold Lit at 1. rewrite (ends_seq_hit tag _ _ 0 [] (chr "[")) by reflexivity.
  rewrite ends_seq.
  assert (Hword : ends tag (LitsI "pause") (MState 1 []) = [MState 6 []]).
  { cbn [LitsI]. unfold LitI.
    rewrite (ends_seq_hit tag _ _ 1 [] (chr "p")) by (reflexivity || apply Hieq).
    rewrite (ends_seq_hit tag _ _ 2 [] (chr "a")) by (reflexivity || apply Hieq).
    rewrite (ends_seq_hit tag _ _ 3 [] (chr "u")) by (reflexivity || apply Hieq).
    rewrite (ends_seq_hit tag _ _ 4 [] (chr "s")) by (reflexivity || apply Hieq).
    rewrite (ends_seq_hit tag _ _ 5 [] (chr "e")) by (reflexivity || apply Hieq).
    reflexivity. }
  rewrite Hword. cbn [flat_map]. rewrite app_nil_r.
  unfold Lit at 1. rewrite (ends_seq_hit tag _ _ 6 [] (chr ":")) by reflexivity.
  rewrite ends_seq, ends_group_eq, Hnum. cbn [map flat_map ms_pos ms_groups].
  unfold LitI. rewrite (ends_seq_hit tag _ _ c _ (chr "s") Hs) by apply Hieq.
  unfold Lit. rewrite ends_set, Hclose. cbn [opt_test].
  replace (ch_eqb (chr "]") (chr "]")) with true by reflexivity.
  cbn [app List.find negb orb ms_pos ms_groups]. rewrite Hlen.
  repeat f_equal; lia.
Qed.

(** X21. What the annotator writes, it reads back: the tag of a duration that
    is not negative is found by the pattern of the manual pause tags, from
    its first to its last character, and it is a bracket token. *)
Theorem pause_tag_read_back (seconds : Q) :
  (0 <= seconds)%Q ->
  let tag := _format_pause seconds in
  _find_spans MANUAL_PAUSE_CANONICAL_PATTERN tag = [(0, length tag)]
  /\ In (0, length tag) (_find_spans BRACKET_TOKEN_PATTERN tag).
Proof.
  intros Hs. cbv zeta.
  destruct (_format_pause_shape seconds Hs) as (whole & frac & Hw & Hf & Hdw & Hdf & ->).
  pose proof (match_at_pause_tag whole frac Hw Hf Hdw Hdf) as Hm. cbv zeta in Hm.
  set (tag := str "[pause:" ++ whole ++ chr "." :: frac ++ str "s]") in *.
  assert (Hpos : 0 < length tag) by (unfold tag; cbn; lia).
  split.
  - unfold _find_spans, finditer.
    replace (2 * length tag + 3) with (S (S (S (2 * length tag)))) by lia.
    assert (Hend : match_at MANUAL_PAUSE_CANONICAL_PATTERN tag (length tag) false = None).
    { unfold match_at, MANUAL_PAUSE_CANONICAL_PATTERN. rewrite ends_seq.
      unfold Lit. rewrite ends_set. now rewrite lookup_ge_None_2 by lia. }
    rewrite finditer_from_S.
    replace (length tag <? 0) with false by (symmetry; apply Nat.ltb_ge; lia).
    rewrite Hm. cbn [m_end].
    replace (length tag =? 0) with false by (symmetry; apply Nat.eqb_neq; lia).
    rewrite finditer_from_S, Nat.ltb_irrefl, Hend, finditer_from_S.
    replace (length tag <? S (length tag)) with true by (symmetry; apply Nat.ltb_lt; lia).
    reflexivity.
  - pose proof (token_in_spans [] (str "pause:" ++ whole ++ chr "." :: frac ++ str "s") [])
      as Htok.
    replace ([] ++ chr "[" :: (str "pause:" ++ whole ++ chr "." :: frac ++ str "s")
               ++ [chr "]"] ++ []) with tag in Htok.
    2:{ unfold tag. cbn [app str]. rewrite <- !app_assoc. cbn [app].
        do 7 f_equal. f_equal. rewrite <- app_assoc. reflexivity. }
    replace (length [] + length (str "pause:" ++ whole ++ chr "." :: frac ++ str "s") + 2)
      with (length tag) in Htok.
    2:{ unfold tag. cbn [length app str]. rewrite !length_app. cbn [length].
        rewrite !length_app. cbn [length]. lia. }
    apply Htok; [reflexivity|].
    rewrite forallb_app. apply andb_true_iff. split; [reflexivity|].
    rewrite forallb_app. apply andb_true_iff. split.
    + apply forallb_forall. intros x Hx. apply ascii_digit_not_bracket.
      unfold ascii_digits in Hdw. rewrite List.Forall_forall in Hdw. now apply Hdw.
    + cbn [forallb]. apply andb_true_iff. split; [reflexivity|].
      rewrite forallb_app. apply andb_true_iff. split; [|reflexivity].
      apply forallb_forall. intros x Hx. apply ascii_digit_not_bracket.
      unfold ascii_digits in Hdf. rewrite List.Forall_forall in Hdf. now apply Hdf.
Qed.

End PauseTag.

Lemma ascii_env_reads_ascii : reads_ascii ascii_env.
Proof. split; [reflexivity|]. intros c. apply N.eqb_refl. Qed.

Lemma pause_tag_read_back_witness :
  _find_spans (@MANUAL_PAUSE_CANONICAL_PATTERN ascii_env) (_format_pause 0.275)
  = [(0, length (_format_pause 0.275))]
  /\ In (0, length (_format_pause 0.275))
        (_find_spans BRACKET_TOKEN_PATTERN (_format_pause 0.275)).
Proof. apply (@pause_tag_read_back ascii_env ascii_env_reads_ascii 0.275). lra. Defined.

(** ** The word after a boundary *)

Section NextWord.
Context {E : PyEnv}.
Variable s : list N.

Lemma alpha_run_end_spec :
  forall fuel end_,
    end_ <= length s ->
    end_ <= alpha_run_end s fuel end_ <= length s
    /\ forall k, end_ <= k < alpha_run_end s fuel end_ ->
                 opt_test uc_isalpha (s !! k) = true.
Proof.
  induction fuel as [|fuel IH]; intros end_ Hend; cbn [alpha_run_end].
  - split; [lia|]. intros k Hk. lia.
  - destruct (s !! end_) as [c|] eqn:Hc; [|split; [lia|intros k Hk; lia]].
    destruct (uc_isalpha c) eqn:Ha; [|split; [lia|intros k Hk; lia]].
    apply lookup_lt_Some in Hc as Hlt. destruct (IH (S end_) ltac:(lia)) as [Hb Hrun].
    split; [lia|]. intros k Hk.
    destruct (Nat.eq_dec k end_) as [->|Hne]; [now rewrite Hc|]. apply Hrun. lia.
Qed.

Lemma next_word_loop_spec (bracket_spans : list (nat * nat)) :
  forall fuel idx,
    next_word_loop s bracket_spans fuel idx = []
    \/ exists j e,
         idx <= j /\ j < e <= length s
         /\ _inside_spans j bracket_spans = false
         /\ (forall k, j <= k < e -> opt_test uc_isalpha (s !! k) = true)
         /\ next_word_loop s bracket_spans fuel idx = uc_lower (slice s j e).
Proof.
  induction fuel as [|fuel IH]; intros idx; cbn [next_word_loop]; [now left|].
  destruct (s !! idx) as [c|] eqn:Hc; [|now left].
  apply lookup_lt_Some in Hc as Hlt.
  destruct (List.find _ bracket_spans) as [sp|] eqn:Hf.
  - apply find_some in Hf as [_ Hsp]. apply andb_true_iff in Hsp as [_ Hsp].
    apply Nat.ltb_lt in Hsp.
    destruct (IH (snd sp)) as [->|(j & e & Hj & He & Hin & Hrun & ->)]; [now left|right].
    exists j, e. repeat split; try assumption; lia.
  - destruct (uc_isalpha c) eqn:Ha.
    + right. exists idx, (alpha_run_end s (length s) idx).
      destruct (alpha_run_end_spec (length s) idx ltac:(lia)) as [Hb Hrun].
      assert (Hstep : S idx <= alpha_run_end s (length s) idx).
      { destruct (length s) as [|n] eqn:Hn; [lia|]. cbn [alpha_run_end].
        rewrite Hc, Ha. rewrite <- Hn in *.
        destruct (alpha_run_end_spec n (S idx) ltac:(lia)) as [? _]. lia. }
      repeat split; try lia; try assumption.
      unfold _inside_spans. destruct (existsb _ bracket_spans) eqn:Hex; [|reflexivity].
      apply existsb_exists in Hex as (sp & Hin & Hsp).
      now rewrite (find_none _ _ Hf sp Hin) in Hsp.
    + destruct (IH (S idx)) as [->|(j & e & Hj & He & Hin & Hrun & ->)]; [now left|right].
      exists j, e. repeat split; try assumption; lia.
Qed.

(** X22. The word that follows a boundary is read outside the bracket spans:
    [_next_word] gives nothing, or the run of letters, in small letters,
    that starts at or after the given offset at an offset that is in none of
    the spans. *)
Theorem next_word_outside_brackets (start_index : nat) (bracket_spans : list (nat * nat)) :
  _next_word s start_index bracket_spans = []
  \/ exists j e,
       start_index <= j /\ j < e <= length s
       /\ _inside_spans j bracket_spans = false
       /\ (forall k, j <= k < e -> opt_test uc_isalpha (s !! k) = true)
       /\ _next_word s start_index bracket_spans = uc_lower (slice s j e).
Proof. apply next_word_loop_spec. Qed.

End NextWord.

(** tests/test_multi_voice.py, paragraph mode *)
Example test_paragraph_mode :
  @split_paragraphs ascii_env
     (str "First paragraph." ++ [10%N] ++ str "Still first." ++ [10; 10]%N
        ++ str "Second paragraph starts here.")
  = [str "First paragraph." ++ [10%N] ++ str "Still first.";
     str "Second paragraph starts here."]
  /\ voice_id <$> @build_segments_from_paragraphs ascii_env
                    [str "One"; str "Two"; str "Three"] [str "clay"] (str "emily")
     = [Some (str "clay"); Some (str "emily"); Some (str "emily")]
  /\ splitlines (str "a" ++ [13; 10]%N ++ str "b" ++ [10; 13]%N) = [str "a"; str "b"; []].
Proof. vm_compute. repeat split. Qed.

(** * The tests of the repository, run on the model *)

Section RepositoryTests.
#[local] Existing Instance ascii_env.

Let annotate (s : string) (speed_factor : Q) : list N :=
  insert_auto_pauses (str s) (str "audiobook") speed_factor 1 false 0.04 1.8.

(** tests/test_auto_pauses.py *)
Example test_auto_pauses :
  annotate "Hello [laugh], world! [cough] Then [chuckle] done." 1
    = str "Hello [laugh],[pause:0.16s] world![pause:0.55s] [cough] Then [chuckle] done.[pause:0.55s]"
  /\ annotate "Hello world. Next sentence." 1
     = str "Hello world.[pause:0.55s] Next sentence.[pause:0.55s]"
  /\ annotate "Hello.[pause:0.5s] Next sentence." 1
     = str "Hello.[pause:0.5s] Next sentence.[pause:0.55s]"
  /\ annotate "Keep [note: inside, brackets] flowing smoothly." 1
     = str "Keep [note: inside, brackets] flowing smoothly.[pause:0.55s]"
  /\ annotate "Quick test." 2 = str "Quick test.[pause:0.275s]"
  /\ annotate "Quick test." 1 = str "Quick test.[pause:0.55s]"
  /\ annotate "First thought. However, this continues." 1
     = str "First thought.[pause:0.65s] However,[pause:0.16s] this continues.[pause:0.55s]"
  /\ insert_auto_pauses (str "One." ++ [10; 10]%N ++ str "Two.") (str "audiobook")
       1 1 false 0.04 1.8
     = str "One.[pause:0.55s]" ++ [10; 10]%N ++ str "[pause:1.15s]Two.[pause:0.55s]".
Proof. vm_compute. repeat split. Qed.

(** tests/test_text_normalization.py *)
Example test_text_normalization :
  normalize_currency_usd (str "$15,348.92") None
    = Ok (str "fifteen thousand, three hundred, forty eight dollars and ninety two cents")
  /\ normalize_currency_usd (str "$1.01") None = Ok (str "one dollar and one cent")
  /\ normalize_currency_usd (str "$1.10") None = Ok (str "one dollar and ten cents")
  /\ normalize_currency_usd (str "$657") None = Ok (str "six hundred, fifty seven dollars")
  /\ normalize_currency_usd (str "$657.6") None
     = Ok (str "six hundred, fifty seven dollars and sixty cents")
  /\ normalize_currency_usd (str "$0.50") None = Ok (str "fifty cents")
  /\ normalize_currency_usd (str "[laugh] $657.62") None
     = Ok (str "[laugh] six hundred, fifty seven dollars and sixty two cents")
  /\ normalize_currency_usd (str "Hello[laugh $657.62]world") None
     = Ok (str "Hello[laugh $657.62]world")
  /\ normalize_currency_usd (str "657.62") None = Ok (str "657.62")
  /\ normalize_currency_usd (str "$12.") None = Ok (str "twelve dollars.")
  /\ normalize_currency_usd (str "$0.05)") None = Ok (str "five cents)")
  /\ normalize_currency_usd (str "$1000000000") (Some 999999999%Z) = Ok (str "$1000000000").
Proof. vm_compute. repeat split. Qed.

(** tests/test_pronunciation.py *)
Example test_pronunciation :
  let zilog : gmap (list N) (list N) := {[ str "Zilog" := str "ZY-log" ]} in
  apply_pronunciation_dict (str "Zilog makes") zilog = Ok (str "ZY-log makes")
  /\ apply_pronunciation_dict (str "(Zilog)") zilog = Ok (str "(ZY-log)")
  /\ apply_pronunciation_dict (str "zilog") zilog = Ok (str "zilog")
  /\ apply_pronunciation_dict (str "Hello[laugh] Zilog") zilog = Ok (str "Hello[laugh] ZY-log")
  /\ apply_pronunciation_dict (str "Hello[pause:0.3s]Zilog") zilog
     = Ok (str "Hello[pause:0.3s]ZY-log")
  /\ apply_pronunciation_dict (str "Hello[laugh Zilog] world") zilog
     = Ok (str "Hello[laugh Zilog] world")
  /\ apply_pronunciation_dict (str "Zilog builds in the US, not US Zilogic.")
       (<[ str "US" := str "you ess" ]> zilog)
     = Ok (str "ZY-log builds in the you ess, not you ess Zilogic.").
Proof. vm_compute. repeat split. Qed.

(** tests/test_multi_voice.py *)
Example test_multi_voice :
  parse_voice_directives
      (str "Intro." ++ [10%N] ++ str "<voice:clay>" ++ [10%N] ++ str "Hello!" ++ [10%N]
         ++ str "<voice:emily>" ++ [10%N] ++ str "Hi.")
    = [Segment None (str "Intro." ++ [10%N]);
       Segment (Some (str "clay")) ([10%N] ++ str "Hello!" ++ [10%N]);
       Segment (Some (str "emily")) ([10%N] ++ str "Hi.")]
  /\ parse_voice_directives (str "[<voice:clay>] Actual <voice:emily>Outside")
     = [Segment None (str "[<voice:clay>] Actual ");
        Segment (Some (str "emily")) (str "Outside")].
Proof. vm_compute. repeat split. Qed.

End RepositoryTests.
